(** * RFC 9535 JSONPath in Go: a shallow embedding of the evaluator and parser

    The development follows the layout of the Go package: the JSON value
    model, the path and function types with their convertibility relation,
    the JSONPath values and the built-in functions, segments and selectors,
    filter expressions, and the recursive-descent parser.

    Go interfaces ([Selector], [basicExpr], [FunctionExprArg]) are embedded
    as records of methods.  A Go panic is an explicit outcome of the [Go]
    monad, so that "never raises" is a statement one can prove or refute. *)

From Stdlib Require Import ZArith List String Ascii Bool Lia SpecFloat DecimalString.
Import ListNotations.

Local Open Scope string_scope.
Local Open Scope list_scope.
Local Open Scope Z_scope.

(** String concatenation, kept apart from list append. *)
Infix "+++" := String.append (at level 60, right associativity).

Set Implicit Arguments.
Set Warnings "-register-all".

(* ================================================================== *)
(** ** Go runtime outcomes *)

(** A Go call either returns or panics with a message. *)
Inductive Go (A : Type) : Type :=
| Ret (a : A)
| Panic (msg : string).

Arguments Ret {A} a.
Arguments Panic {A} msg.

Definition bind {A B : Type} (m : Go A) (k : A -> Go B) : Go B :=
  match m with
  | Ret a => k a
  | Panic msg => Panic msg
  end.

Declare Scope go_scope.
Delimit Scope go_scope with go.
Notation "x <- m ;; k" := (bind m (fun x => k))
  (at level 61, m at next level, right associativity) : go_scope.
Local Open Scope go_scope.

(** [for _, x := range l { ret = append(ret, f(x)...) }] *)
Definition appendEach {A B : Type} (f : A -> Go (list B)) : list A -> Go (list B) :=
  fix go (l : list A) : Go (list B) :=
    match l with
    | [] => Ret []
    | x :: l' => r <- f x ;; rs <- go l' ;; Ret (r ++ rs)
    end.

(** [for _, x := range l { res = append(res, f(x)) }] *)
Definition collect {A B : Type} (f : A -> Go B) : list A -> Go (list B) :=
  fix go (l : list A) : Go (list B) :=
    match l with
    | [] => Ret []
    | x :: l' => r <- f x ;; rs <- go l' ;; Ret (r :: rs)
    end.

(** [jv[i]], which panics out of range. *)
Definition index {A : Type} (jv : list A) (i : nat) : Go A :=
  match nth_error jv i with
  | Some a => Ret a
  | None => Panic "runtime error: index out of range"
  end.

(** Go's [len] on a slice. *)
Definition len {A : Type} (l : list A) : Z := Z.of_nat (List.length l).

(** The character [0x22], which Go's [%q] puts around a string. *)
Definition dquote : string := String (ascii_of_nat 34) EmptyString.

(* ================================================================== *)
(** ** The JSON value model *)

(** A Go [any] holding decoded JSON.  All Go integer widths behave alike
    in the code below and are carried by [JInt]; both float widths by
    [JFloat].  An object is an association list: its order stands for the
    unspecified iteration order of the Go map. *)
Inductive JSON : Type :=
| JNull
| JBool (b : bool)
| JInt (i : Z)
| JFloat (f : spec_float)
| JString (s : string)
| JArray (val : list JSON)
| JObject (val : list (string * JSON)).

(** The members of a value, in iteration order. *)
Definition members (v : JSON) : list JSON :=
  match v with
  | JArray val => val
  | JObject val => map snd val
  | _ => []
  end.

Section JSON_induction.
Variable P : JSON -> Prop.
Hypothesis Hnull : P JNull.
Hypothesis Hbool : forall b, P (JBool b).
Hypothesis Hint : forall i, P (JInt i).
Hypothesis Hfloat : forall f, P (JFloat f).
Hypothesis Hstring : forall s, P (JString s).
Hypothesis Harray : forall val, Forall P val -> P (JArray val).
Hypothesis Hobject : forall val, Forall (fun kv => P (snd kv)) val -> P (JObject val).

Fixpoint JSON_members_ind (v : JSON) : P v :=
  match v with
  | JNull => Hnull
  | JBool b => Hbool b
  | JInt i => Hint i
  | JFloat f => Hfloat f
  | JString s => Hstring s
  | JArray val =>
      Harray ((fix go (l : list JSON) : Forall P l :=
                 match l with
                 | [] => Forall_nil _
                 | x :: l' => Forall_cons x (JSON_members_ind x) (go l')
                 end) val)
  | JObject val =>
      Hobject ((fix go (l : list (string * JSON)) : Forall (fun kv => P (snd kv)) l :=
                  match l with
                  | [] => Forall_nil _
                  | kv :: l' =>
                      Forall_cons (P := fun kv => P (snd kv)) kv
                        (JSON_members_ind (snd kv)) (go l')
                  end) val)
  end.
End JSON_induction.

(* ================================================================== *)
(** ** Path types, function types and convertibility *)

Inductive PathType : Type := PathValue | PathLogical | PathNodes.

Inductive FuncType : Type :=
| FuncLiteral | FuncSingularQuery | FuncValue | FuncNodeList | FuncLogical.

Definition PathType_eqb (a b : PathType) : bool :=
  match a, b with
  | PathValue, PathValue | PathLogical, PathLogical | PathNodes, PathNodes => true
  | _, _ => false
  end.

Definition FuncType_eqb (a b : FuncType) : bool :=
  match a, b with
  | FuncLiteral, FuncLiteral | FuncSingularQuery, FuncSingularQuery
  | FuncValue, FuncValue | FuncNodeList, FuncNodeList
  | FuncLogical, FuncLogical => true
  | _, _ => false
  end.

(** [func (ft FuncType) convertsTo(pv PathType) bool].  The [default]
    branch of the Go switch is for bytes that are none of the five
    declared constants. *)
Definition convertsTo (ft : FuncType) (pv : PathType) : bool :=
  match ft with
  | FuncLiteral | FuncValue => PathType_eqb pv PathValue
  | FuncSingularQuery => true
  | FuncNodeList => negb (PathType_eqb pv PathValue)
  | FuncLogical => PathType_eqb pv PathLogical
  end.

(* ================================================================== *)
(** ** JSONPath values *)

Definition NodesType : Type := list JSON.

Inductive LogicalType : Type := LogicalFalse | LogicalTrue.

Definition logicalFrom (b : bool) : LogicalType :=
  if b then LogicalTrue else LogicalFalse.

Definition Bool (lt : LogicalType) : bool :=
  match lt with LogicalTrue => true | LogicalFalse => false end.

(** [type ValueType struct { any }] *)
Record ValueType : Type := mkValueType { any : JSON }.

(** The interface [JSONPathValue]: a nil interface, or one of its three
    implementations.  [PVValue] carries a non-nil [*ValueType]; the code
    only ever stores the untyped [nil] for "no value". *)
Inductive JSONPathValue : Type :=
| PVNil
| PVNodes (n : NodesType)
| PVLogical (l : LogicalType)
| PVValue (v : ValueType).

(** A [*ValueType], which may be the nil pointer. *)
Definition ValueTypePtr : Type := option ValueType.

(** Reading a field through a pointer. *)
Definition deref (p : ValueTypePtr) : Go ValueType :=
  match p with
  | Some v => Ret v
  | None => Panic "runtime error: invalid memory address or nil pointer dereference"
  end.

Definition newNodesTypeFrom (value : JSONPathValue) : Go NodesType :=
  match value with
  | PVNodes v => Ret v
  | PVValue v => Ret [any v]
  | PVNil => Ret []
  | PVLogical _ => Panic "unexpected argument of type jsonpath.LogicalType"
  end.

Definition newLogicalTypeFrom (value : JSONPathValue) : Go LogicalType :=
  match value with
  | PVLogical v => Ret v
  | PVNodes v => Ret (logicalFrom (len v >? 0))
  | PVNil => Ret LogicalFalse
  | PVValue _ => Panic "unexpected argument of type *jsonpath.ValueType"
  end.

Definition newValueTypeFrom (value : JSONPathValue) : Go ValueTypePtr :=
  match value with
  | PVValue v => Ret (Some v)
  | PVNil => Ret None
  | PVNodes _ => Panic "unexpected argument of type jsonpath.NodesType"
  | PVLogical _ => Panic "unexpected argument of type jsonpath.LogicalType"
  end.

(** [func (vt *ValueType) testFilter(_, _ any) bool]: the truthiness of
    the underlying value. *)
Definition ValueType_testFilter (vt : ValueType) : bool :=
  match any vt with
  | JNull => false
  | JBool v => v
  | JInt v => negb (v =? 0)
  | JFloat v => negb (SFeqb v (S754_zero false))
  | _ => true
  end.

(* ================================================================== *)
(** ** The host regular-expression library

    [regexp] and [regexp/syntax] belong to the Go distribution, not to
    this package.  The package sees them through three calls, which form
    the interface [RegexpHost]; the syntax tree they exchange is the part
    of [syntax.Regexp] that [replaceDot] inspects. *)

Inductive Op : Type :=
| OpNoMatch | OpEmptyMatch | OpLiteral | OpCharClass | OpAnyCharNotNL
| OpAnyChar | OpBeginLine | OpEndLine | OpBeginText | OpEndText
| OpWordBoundary | OpNoWordBoundary | OpCapture | OpStar | OpPlus
| OpQuest | OpRepeat | OpConcat | OpAlternate.

Definition Op_eqb (a b : Op) : bool :=
  match a, b with
  | OpNoMatch, OpNoMatch | OpEmptyMatch, OpEmptyMatch | OpLiteral, OpLiteral
  | OpCharClass, OpCharClass | OpAnyCharNotNL, OpAnyCharNotNL
  | OpAnyChar, OpAnyChar | OpBeginLine, OpBeginLine | OpEndLine, OpEndLine
  | OpBeginText, OpBeginText | OpEndText, OpEndText
  | OpWordBoundary, OpWordBoundary | OpNoWordBoundary, OpNoWordBoundary
  | OpCapture, OpCapture | OpStar, OpStar | OpPlus, OpPlus | OpQuest, OpQuest
  | OpRepeat, OpRepeat | OpConcat, OpConcat | OpAlternate, OpAlternate => true
  | _, _ => false
  end.

(** [syntax.Regexp]: the operator, the subexpressions and the runes (for
    a literal its characters, for a class its ranges as pairs). *)
Inductive Regexp : Type :=
| Re (op : Op) (Sub : list Regexp) (Rune : list Z).

Class RegexpHost : Type := {
  (** the compiled form, [*regexp.Regexp] *)
  Compiled : Type;
  (** [syntax.Parse(str, syntax.Perl|syntax.DotNL)]; [None] is an error *)
  syntax_Parse : string -> option Regexp;
  (** [regexp.Compile(r.String())]; [None] is the nil result of an error *)
  regexp_Compile : Regexp -> option Compiled;
  (** [rc.MatchString(s)]: some substring of [s] matches *)
  MatchString : Compiled -> string -> bool
}.

(** [var clrf, _ = syntax.Parse("[^\n\r]", syntax.Perl)]: the class of
    the ranges 0-9, 11-12 and 14-0x10FFFF. *)
Definition clrf : Regexp := Re OpCharClass [] [0; 9; 11; 12; 14; 1114111].

(** [replaceDot] overwrites every "." node in place; here it returns the
    rewritten tree. *)
Fixpoint replaceDot (re : Regexp) : Regexp :=
  match re with
  | Re op Sub Rune =>
      if Op_eqb op OpAnyChar then clrf
      else Re op (map replaceDot Sub) Rune
  end.

(* ================================================================== *)
(** ** Function extensions *)

(** A Go [error]; [None] is nil. *)
Definition error : Type := option string.

(** Decimal rendering of an integer, as [%v] prints it. *)
Definition itoa (z : Z) : string := DecimalString.NilZero.string_of_int (Z.to_int z).

(** The part of the interface [FunctionExprArg] that validation uses. *)
Class FunctionExprArgI (A : Type) : Type := asTypeKind : A -> FuncType.

(** [type Function struct], over the representation [A] of argument
    expressions.  The field [Name] is [FuncName] here, [Name] being the
    selector. *)
Record Function (A : Type) : Type := mkFunction {
  FuncName : string;
  ResultType : FuncType;
  Validate : list A -> error;
  Evaluate : list JSONPathValue -> Go JSONPathValue
}.

(** [utf8.RuneCountInString] on well-formed UTF-8: the bytes that are not
    continuation bytes. *)
Fixpoint RuneCountInString (s : string) : Z :=
  match s with
  | EmptyString => 0
  | String c s' =>
      (if Z.land (Z.of_N (N_of_ascii c)) 192 =? 128 then 0 else 1)
      + RuneCountInString s'
  end.

Section Builtins.
Context {host : RegexpHost}.
Context {A : Type} {argI : FunctionExprArgI A}.

Definition checkLengthArgs (fea : list A) : error :=
  match fea with
  | [a] =>
      let kind := asTypeKind a in
      if negb (convertsTo kind PathValue)
      then Some "cannot convert length() argument to ValueType"
      else None
  | _ => Some ("expected 1 argument but found " +++ itoa (len fea))
  end.

Definition lengthFunc (jv : list JSONPathValue) : Go JSONPathValue :=
  a0 <- index jv 0 ;;
  v <- newValueTypeFrom a0 ;;
  match v with
  | None => Ret PVNil
  | Some v =>
      match any v with
      | JString v => Ret (PVValue (mkValueType (JInt (RuneCountInString v))))
      | JArray v => Ret (PVValue (mkValueType (JInt (len v))))
      | JObject v => Ret (PVValue (mkValueType (JInt (len v))))
      | _ => Ret PVNil
      end
  end.

Definition checkCountArgs (fea : list A) : error :=
  match fea with
  | [a] =>
      let kind := asTypeKind a in
      if negb (convertsTo kind PathNodes)
      then Some "cannot convert count() argument to PathNodes"
      else None
  | _ => Some ("expected 1 argument but found " +++ itoa (len fea))
  end.

Definition countFunc (jv : list JSONPathValue) : Go JSONPathValue :=
  a0 <- index jv 0 ;;
  nodes <- newNodesTypeFrom a0 ;;
  Ret (PVValue (mkValueType (JInt (len nodes)))).

Definition checkValueArgs (fea : list A) : error :=
  match fea with
  | [a] =>
      let kind := asTypeKind a in
      if negb (convertsTo kind PathNodes)
      then Some "cannot convert value() argument to PathNodes"
      else None
  | _ => Some ("expected 1 argument but found " +++ itoa (len fea))
  end.

Definition valueFunc (jv : list JSONPathValue) : Go JSONPathValue :=
  a0 <- index jv 0 ;;
  nodes <- newNodesTypeFrom a0 ;;
  match nodes with
  | [n] => Ret (PVValue (mkValueType n))
  | _ => Ret PVNil
  end.

(** The loop of [checkMatchArgs] and [checkSearchArgs]: the first
    argument (counted from [i]) that does not convert to a value. *)
Fixpoint checkValueKinds (fname : string) (i : Z) (fea : list A) : error :=
  match fea with
  | [] => None
  | arg :: rest =>
      let kind := asTypeKind arg in
      if negb (convertsTo kind PathValue)
      then Some ("cannot convert " +++ fname +++ "() argument "
                 +++ itoa (i + 1) +++ " to PathNodes")
      else checkValueKinds fname (i + 1) rest
  end.

Definition checkMatchArgs (fea : list A) : error :=
  if negb (len fea =? 2)
  then Some ("expected 2 arguments but found " +++ itoa (len fea))
  else checkValueKinds "match" 0 fea.

Definition checkSearchArgs (fea : list A) : error :=
  if negb (len fea =? 2)
  then Some ("expected 2 arguments but found " +++ itoa (len fea))
  else checkValueKinds "search" 0 fea.

(** [compileRegex]: parse, rewrite the dots, compile the result. *)
Definition compileRegex (str : string) : option Compiled :=
  match syntax_Parse str with
  | None => None
  | Some r => regexp_Compile (replaceDot r)
  end.

(** [matchFunc]: [newValueTypeFrom(jv[0]).any.(string)] reads the field
    [any] through the pointer that [newValueTypeFrom] returns. *)
Definition matchFunc (jv : list JSONPathValue) : Go JSONPathValue :=
  a0 <- index jv 0 ;;
  p0 <- newValueTypeFrom a0 ;;
  v0 <- deref p0 ;;
  match any v0 with
  | JString v =>
      a1 <- index jv 1 ;;
      p1 <- newValueTypeFrom a1 ;;
      v1 <- deref p1 ;;
      match any v1 with
      | JString r =>
          match compileRegex ("\A" +++ r +++ "\z") with
          | Some rc => Ret (PVLogical (logicalFrom (MatchString rc v)))
          | None => Ret (PVLogical LogicalFalse)
          end
      | _ => Ret (PVLogical LogicalFalse)
      end
  | _ => Ret (PVLogical LogicalFalse)
  end.

Definition searchFunc (jv : list JSONPathValue) : Go JSONPathValue :=
  a0 <- index jv 0 ;;
  p0 <- newValueTypeFrom a0 ;;
  v0 <- deref p0 ;;
  match any v0 with
  | JString val =>
      a1 <- index jv 1 ;;
      p1 <- newValueTypeFrom a1 ;;
      v1 <- deref p1 ;;
      match any v1 with
      | JString r =>
          match compileRegex r with
          | Some rc => Ret (PVLogical (logicalFrom (MatchString rc val)))
          | None => Ret (PVLogical LogicalFalse)
          end
      | _ => Ret (PVLogical LogicalFalse)
      end
  | _ => Ret (PVLogical LogicalFalse)
  end.

(** [registerFunctions]: the registry after package initialisation, in
    registration order. *)
Definition registry : list (string * Function A) :=
  [ ("length", mkFunction "length" FuncValue checkLengthArgs lengthFunc);
    ("count", mkFunction "count" FuncValue checkCountArgs countFunc);
    ("value", mkFunction "value" FuncValue checkValueArgs valueFunc);
    ("match", mkFunction "match" FuncLogical checkMatchArgs matchFunc);
    ("search", mkFunction "search" FuncLogical checkSearchArgs searchFunc) ].

(** [registry[name]] *)
Fixpoint lookup (name : string) (r : list (string * Function A)) : option (Function A) :=
  match r with
  | [] => None
  | (k, fn) :: r' => if String.eqb k name then Some fn else lookup name r'
  end.

Definition GetFunction (name : string) : option (Function A) :=
  lookup name registry.

(** [type FunctionExpr struct] *)
Record FunctionExpr : Type := mkFunctionExpr {
  args : list A;
  fn : Function A
}.

(** The error of [NewFunctionExpr]: an unregistered name, or what the
    function's [Validate] reports. *)
Inductive FunctionError : Type :=
| ErrUnregistered (msg : string)
| ErrInvalid (msg : string).

Definition NewFunctionExpr (name : string) (args : list A)
  : FunctionExpr + FunctionError :=
  match lookup name registry with
  | Some fn =>
      match Validate fn args with
      | Some err => inr (ErrInvalid err)
      | None => inl (mkFunctionExpr args fn)
      end
  | None => inr (ErrUnregistered ("jsonpath: unknown jsonpath function " +++ name +++ "()"))
  end.
End Builtins.

Arguments FunctionExpr A : clear implicits.
Arguments FunctionError : clear implicits.

(* ================================================================== *)
(** ** Selectors and segments *)

(** The interface [Selector]: a value of the interface is the record of
    its methods. *)
Record Selector : Type := mkSelector {
  Select : JSON -> JSON -> Go (list JSON);
  isSingular : bool
}.

(** [type Segment struct] *)
Record Segment : Type := mkSegment {
  selectors : list Selector;
  descendant : bool
}.

Definition Child (sel : list Selector) : Segment := mkSegment sel false.

Definition Descendant (sel : list Selector) : Segment := mkSegment sel true.

(** [func (s *Segment) Select(current, root any) []any], with the loop of
    [descend] in place of the call: the two methods call each other, and
    the recursion goes down the members of [current]. *)
Fixpoint Segment_Select (s : Segment) (current root : JSON) {struct current}
  : Go (list JSON) :=
  ret <- appendEach (fun sel => Select sel current root) (selectors s) ;;
  if descendant s then
    d <- match current with
         | JArray val => appendEach (fun v => Segment_Select s v root) val
         | JObject val =>
             appendEach (fun kv : string * JSON => let (_, v) := kv in Segment_Select s v root) val
         | _ => Ret []
         end ;;
    Ret (ret ++ d)
  else Ret ret.

(** [func (s *Segment) descend(current, root any) []any] *)
Definition descend (s : Segment) (current root : JSON) : Go (list JSON) :=
  match current with
  | JArray val => appendEach (fun v => Segment_Select s v root) val
  | JObject val =>
      appendEach (fun kv : string * JSON => let (_, v) := kv in Segment_Select s v root) val
  | _ => Ret []
  end.

(** [func (s *Segment) isSingular() bool] *)
Definition Segment_isSingular (s : Segment) : bool :=
  if descendant s || negb (len (selectors s) =? 1) then false
  else match selectors s with
       | sel :: _ => isSingular sel
       | [] => false
       end.


(** *** The selectors

    The file that defines the selectors is not among the sources; its
    tests are.  The five selectors are stated from the specification. *)

(** [obj[s]] and whether the key exists. *)
Fixpoint getKey (s : string) (obj : list (string * JSON)) : option JSON :=
  match obj with
  | [] => None
  | (k, v) :: obj' => if String.eqb k s then Some v else getKey s obj'
  end.

(** Modelled from the spec: the selector [Name], missing from the
    sources.  On an object it yields the member of that key if there is
    one; on anything else nothing. *)
Definition Name_Select (s : string) (current root : JSON) : Go (list JSON) :=
  match current with
  | JObject obj =>
      match getKey s obj with
      | Some v => Ret [v]
      | None => Ret []
      end
  | _ => Ret []
  end.

Definition Name (s : string) : Selector := mkSelector (Name_Select s) true.

(** Modelled from the spec: the selector [Index], missing from the
    sources.  On an array of length [n] it resolves [j = i] if [i >= 0]
    and [n + i] otherwise, and yields the element at [j] if
    [0 <= j < n]. *)
Definition Index_Select (i : Z) (current root : JSON) : Go (list JSON) :=
  match current with
  | JArray arr =>
      let n := len arr in
      let j := if i >=? 0 then i else n + i in
      if (0 <=? j) && (j <? n)
      then match nth_error arr (Z.to_nat j) with
           | Some v => Ret [v]
           | None => Ret []
           end
      else Ret []
  | _ => Ret []
  end.

Definition Index (i : Z) : Selector := mkSelector (Index_Select i) true.

(** Modelled from the spec: the selector [Wildcard], missing from the
    sources.  It yields every member of an array or object. *)
Definition Wildcard_Select (current root : JSON) : Go (list JSON) :=
  Ret (members current).

Definition Wildcard : Selector := mkSelector Wildcard_Select false.

(** Modelled from the spec: the selector [Slice] and its [bounds],
    missing from the sources.  [start] and [end] are optional, [step]
    defaults to 1 ([end] is a keyword here: the field is [end_]). *)
Record SliceSelector : Type := mkSlice {
  start : option Z;
  end_ : option Z;
  step : Z
}.

(** Modelled from the spec: the constructor [Slice] of up to three
    optional integers, missing from the sources. *)
Definition Slice (start end_ step : option Z) : SliceSelector :=
  mkSlice start end_ (match step with Some k => k | None => 1 end).

(** Modelled from the spec: the normalization of an endpoint of a slice,
    missing from the sources. *)
Definition normalize (x n : Z) : Z := if x <? 0 then x + n else x.

(** Modelled from the spec: [clamp(x, lo, hi)], missing from the sources. *)
Definition clamp (x lo hi : Z) : Z := Z.max lo (Z.min x hi).

(** "normalize(x) default d" *)
Definition normalizeOr (x : option Z) (n d : Z) : Z :=
  match x with
  | Some x => normalize x n
  | None => d
  end.

(** Modelled from the spec: [bounds], the lower and upper bound for an
    array of length [n].  The specification gives them for the two signs
    of the step; for step 0 they are [(0, 0)], as [TestSliceBounds]
    expects. *)
Definition bounds (s : SliceSelector) (n : Z) : Z * Z :=
  let (defaultStart, defaultEnd) := if step s >? 0 then (0, n) else (n - 1, -1) in
  if step s >? 0 then
    (clamp (normalizeOr (start s) n defaultStart) 0 n,
     clamp (normalizeOr (end_ s) n defaultEnd) 0 n)
  else if step s <? 0 then
    (clamp (normalizeOr (end_ s) n defaultEnd) (-1) (n - 1),
     clamp (normalizeOr (start s) n defaultStart) (-1) (n - 1))
  else (0, 0).

(** [json[i]] for a Go [int]: out of range on either side panics. *)
Definition indexZ {A : Type} (arr : list A) (i : Z) : Go A :=
  if i <? 0 then Panic "runtime error: index out of range"
  else index arr (Z.to_nat i).

(** [for i := lower; i < upper; i += step { res = append(res, json[i]) }],
    at most [fuel] rounds. *)
Fixpoint sliceUp (fuel : nat) (json : list JSON) (i upper step : Z)
  : Go (list JSON) :=
  match fuel with
  | O => Ret []
  | S fuel' =>
      if i <? upper then
        x <- indexZ json i ;;
        res <- sliceUp fuel' json (i + step) upper step ;;
        Ret (x :: res)
      else Ret []
  end.

(** [for i := upper; lower < i; i += step { res = append(res, json[i]) }],
    at most [fuel] rounds. *)
Fixpoint sliceDown (fuel : nat) (json : list JSON) (i lower step : Z)
  : Go (list JSON) :=
  match fuel with
  | O => Ret []
  | S fuel' =>
      if lower <? i then
        x <- indexZ json i ;;
        res <- sliceDown fuel' json (i + step) lower step ;;
        Ret (x :: res)
      else Ret []
  end.

(** The helper [extract] of [TestSliceBounds], which is the iteration of
    the specification.  A round moves [i] by at least one, so the
    distance between the bounds is fuel enough ([sliceUp_fuel] and
    [sliceDown_fuel] below). *)
Definition extract (json : list JSON) (s : SliceSelector) : Go (list JSON) :=
  let (lower, upper) := bounds s (len json) in
  if step s >? 0 then sliceUp (Z.to_nat (upper - lower)) json lower upper (step s)
  else if step s <? 0 then sliceDown (Z.to_nat (upper - lower)) json upper lower (step s)
  else Ret [].

(** Modelled from the spec: [Select] of a slice, missing from the
    sources: the iteration on an array, nothing on any other value. *)
Definition Slice_Select (s : SliceSelector) (current root : JSON) : Go (list JSON) :=
  match current with
  | JArray json => extract json s
  | _ => Ret []
  end.

Definition SliceSel (s : SliceSelector) : Selector := mkSelector (Slice_Select s) false.

(** *** Queries *)

(** Modelled from the spec: [Query] and its [Select], missing from the
    sources.  A query starts from the root, or from the current node when
    it is relative, and folds its segments from left to right. *)
Record Query : Type := mkQuery {
  root : bool;
  segments : list Segment
}.

(** Modelled from the spec: the fold of [Query.Select], missing from
    the sources: from the node list [L] to the results of the segment on
    each node of [L], one after the other. *)
Fixpoint Query_fold (segs : list Segment) (L : list JSON) (rootNode : JSON)
  : Go (list JSON) :=
  match segs with
  | [] => Ret L
  | seg :: rest =>
      L' <- appendEach (fun n => Segment_Select seg n rootNode) L ;;
      Query_fold rest L' rootNode
  end.

(** Modelled from the spec: [Query.Select], missing from the sources. *)
Definition Query_Select (q : Query) (current rootNode : JSON) : Go (list JSON) :=
  Query_fold (segments q) [if root q then rootNode else current] rootNode.

(** Modelled from the spec: a query is singular iff each of its
    segments is ([isSingular] of a query is missing from the sources). *)
Definition Query_isSingular (q : Query) : bool :=
  forallb Segment_isSingular (segments q).

(* ================================================================== *)
(** ** Filter expressions *)

(** The interface [basicExpr]. *)
Record basicExpr : Type := mkBasicExpr {
  testFilter : JSON -> JSON -> Go bool
}.

Definition LogicalAndExpr : Type := list basicExpr.

(** [func (la LogicalAndExpr) testFilter(current, root any) bool] *)
Fixpoint LogicalAndExpr_testFilter (la : LogicalAndExpr) (current root : JSON)
  : Go bool :=
  match la with
  | [] => Ret true
  | e :: la' =>
      b <- testFilter e current root ;;
      if negb b then Ret false
      else LogicalAndExpr_testFilter la' current root
  end.

Definition LogicalOrExpr : Type := list LogicalAndExpr.

(** [func (lo LogicalOrExpr) testFilter(current, root any) bool] *)
Fixpoint LogicalOrExpr_testFilter (lo : LogicalOrExpr) (current root : JSON)
  : Go bool :=
  match lo with
  | [] => Ret false
  | e :: lo' =>
      b <- LogicalAndExpr_testFilter e current root ;;
      if b then Ret true
      else LogicalOrExpr_testFilter lo' current root
  end.

(** [func (lo LogicalOrExpr) execute(current, root any) JSONPathValue] *)
Definition LogicalOrExpr_execute (lo : LogicalOrExpr) (current root : JSON)
  : Go JSONPathValue :=
  b <- LogicalOrExpr_testFilter lo current root ;;
  Ret (PVLogical (logicalFrom b)).

(** [ParenExpr] embeds [LogicalOrExpr] and inherits its [testFilter]. *)
Definition ParenExpr (lo : LogicalOrExpr) : basicExpr :=
  mkBasicExpr (LogicalOrExpr_testFilter lo).

Definition NotParenExpr_testFilter (np : LogicalOrExpr) (current root : JSON)
  : Go bool :=
  b <- LogicalOrExpr_testFilter np current root ;;
  Ret (negb b).

Definition NotParenExpr (lo : LogicalOrExpr) : basicExpr :=
  mkBasicExpr (NotParenExpr_testFilter lo).

Definition ExistExpr_testFilter (e : Query) (current rootNode : JSON) : Go bool :=
  res <- Query_Select e current rootNode ;;
  Ret (len res >? 0).

Definition ExistExpr (q : Query) : basicExpr :=
  mkBasicExpr (ExistExpr_testFilter q).

Definition NotExistsExpr_testFilter (ne : Query) (current rootNode : JSON) : Go bool :=
  res <- Query_Select ne current rootNode ;;
  Ret (len res =? 0).

Definition NotExistsExpr (q : Query) : basicExpr :=
  mkBasicExpr (NotExistsExpr_testFilter q).

(** Modelled from the spec: the selector [Filter], missing from the
    sources.  It keeps the members for which the expression is truthy,
    each tested as the current node: the elements of an array in order,
    the member values of an object; on anything else nothing. *)
Definition Filter_Select (f : LogicalOrExpr) (current rootNode : JSON)
  : Go (list JSON) :=
  appendEach
    (fun v => b <- LogicalOrExpr_testFilter f v rootNode ;;
              Ret (if b then [v] else []))
    (members current).

Definition Filter (f : LogicalOrExpr) : Selector := mkSelector (Filter_Select f) false.

(* ================================================================== *)
(** ** Function arguments and function expressions *)

(** The interface [FunctionExprArg]. *)
Record FunctionExprArg : Type := mkArg {
  execute : JSON -> JSON -> Go JSONPathValue;
  argTypeKind : FuncType
}.

#[global] Instance FunctionExprArg_kind : FunctionExprArgI FunctionExprArg :=
  argTypeKind.

(** The interface [CompVal]. *)
Record CompVal : Type := mkCompVal {
  asValue : JSON -> JSON -> Go JSONPathValue
}.

(** [type literalArg struct { literal any }] *)
Record literalArg : Type := mkLiteralArg { literal : JSON }.

Definition literalArg_execute (la : literalArg) (current rootNode : JSON)
  : Go JSONPathValue :=
  Ret (PVValue (mkValueType (literal la))).

Definition literalArg_arg (la : literalArg) : FunctionExprArg :=
  mkArg (literalArg_execute la) FuncLiteral.

Definition literalArg_asValue (la : literalArg) : CompVal :=
  mkCompVal (fun _ _ => Ret (PVValue (mkValueType (literal la)))).

(** [type singularQuery struct] (the field [selectors] is [sq_selectors]
    here, [selectors] being the field of a segment). *)
Record singularQuery : Type := mkSingularQuery {
  relative : bool;
  sq_selectors : list Selector
}.

(** The loop of [singularQuery.execute]. *)
Fixpoint singularQuery_walk (sels : list Selector) (target : JSON)
  : Go JSONPathValue :=
  match sels with
  | [] => Ret (PVValue (mkValueType target))
  | seg :: sels' =>
      res <- Select seg target JNull ;;
      match res with
      | [] => Ret PVNil
      | r0 :: _ => singularQuery_walk sels' r0
      end
  end.

(** [func (sq *singularQuery) execute(current, root any) JSONPathValue] *)
Definition singularQuery_execute (sq : singularQuery) (current rootNode : JSON)
  : Go JSONPathValue :=
  let target := if relative sq then current else rootNode in
  singularQuery_walk (sq_selectors sq) target.

Definition singularQuery_arg (sq : singularQuery) : FunctionExprArg :=
  mkArg (singularQuery_execute sq) FuncSingularQuery.

Definition singularQuery_asValue (sq : singularQuery) : CompVal :=
  mkCompVal (singularQuery_execute sq).

(** [type filterQuery struct { *Query }] *)
Definition filterQuery_execute (fq : Query) (current rootNode : JSON)
  : Go JSONPathValue :=
  res <- Query_Select fq current rootNode ;;
  Ret (PVNodes res).

Definition filterQuery_asTypeKind (fq : Query) : FuncType :=
  if Query_isSingular fq then FuncSingularQuery else FuncNodeList.

Definition filterQuery_arg (fq : Query) : FunctionExprArg :=
  mkArg (filterQuery_execute fq) (filterQuery_asTypeKind fq).

Definition LogicalOrExpr_arg (lo : LogicalOrExpr) : FunctionExprArg :=
  mkArg (LogicalOrExpr_execute lo) FuncLogical.

(** [func (fe *FunctionExpr) execute(current, root any) JSONPathValue] *)
Definition FunctionExpr_execute (fe : FunctionExpr FunctionExprArg)
  (current rootNode : JSON) : Go JSONPathValue :=
  res <- collect (fun a => execute a current rootNode) (args fe) ;;
  Evaluate (fn fe) res.

Definition FunctionExpr_asTypeKind (fe : FunctionExpr FunctionExprArg) : FuncType :=
  ResultType (fn fe).

Definition FunctionExpr_arg (fe : FunctionExpr FunctionExprArg) : FunctionExprArg :=
  mkArg (FunctionExpr_execute fe) (FunctionExpr_asTypeKind fe).

Definition FunctionExpr_asValue (fe : FunctionExpr FunctionExprArg) : CompVal :=
  mkCompVal (FunctionExpr_execute fe).

(** [func (fe *FunctionExpr) testFilter(current, root any) bool] *)
Definition FunctionExpr_testFilter (fe : FunctionExpr FunctionExprArg)
  (current rootNode : JSON) : Go bool :=
  res <- FunctionExpr_execute fe current rootNode ;;
  match res with
  | PVNodes res => Ret (len res >? 0)
  | PVValue res => Ret (ValueType_testFilter res)
  | PVLogical res => Ret (Bool res)
  | PVNil => Ret false
  end.

Definition FunctionExpr_basic (fe : FunctionExpr FunctionExprArg) : basicExpr :=
  mkBasicExpr (FunctionExpr_testFilter fe).

(** [func (nf NotFuncExpr) testFilter(current, root any) bool] *)
Definition NotFuncExpr_testFilter (nf : FunctionExpr FunctionExprArg)
  (current rootNode : JSON) : Go bool :=
  b <- FunctionExpr_testFilter nf current rootNode ;;
  Ret (negb b).

Definition NotFuncExpr (fe : FunctionExpr FunctionExprArg) : basicExpr :=
  mkBasicExpr (NotFuncExpr_testFilter fe).

(* ================================================================== *)
(** ** A model of the host regular expressions

    To run [match] and [search] on concrete inputs the interface
    [RegexpHost] needs an inhabitant.  [HostModel] is one for a fragment
    of the syntax of [regexp/syntax]: literal characters, [.], [|],
    groups, the postfix operators [*], [+] and [?], and the anchors [\A]
    and [\z].  A pattern outside the fragment is reported as one that
    does not parse; nothing below runs such a pattern.  Trees are not
    normalised the way Go's parser normalises them (literals are not
    merged, alternations not factored); the language matched is the
    same.  A string is read as a sequence of one-byte characters. *)
Module HostModel.

Local Open Scope char_scope.

Definition isMeta (c : ascii) : bool :=
  existsb (Ascii.eqb c)
    ["\"; "."; "+"; "*"; "?"; "("; ")"; "|"; "["; "]"; "{"; "}"; "^"; "$"].

Definition lit (c : ascii) : Regexp := Re OpLiteral [] [Z.of_N (N_of_ascii c)].

Definition mkConcat (items : list Regexp) : Regexp :=
  match items with
  | [] => Re OpEmptyMatch [] []
  | [r] => r
  | _ => Re OpConcat items []
  end.

Definition mkAlternate (branches : list Regexp) : Regexp :=
  match branches with
  | [r] => r
  | _ => Re OpAlternate branches []
  end.

(** The postfix operators that follow an atom. *)
Fixpoint postfix (r : Regexp) (s : list ascii) : Regexp * list ascii :=
  match s with
  | "*" :: s' => postfix (Re OpStar [r] []) s'
  | "+" :: s' => postfix (Re OpPlus [r] []) s'
  | "?" :: s' => postfix (Re OpQuest [r] []) s'
  | _ => (r, s)
  end.

(** Recursive descent: alternation, then concatenation, then atoms. *)
Fixpoint parseAlternation (fuel : nat) (s : list ascii) {struct fuel}
  : option (list Regexp * list ascii) :=
  match fuel with
  | O => None
  | S fuel' =>
      match parseConcat fuel' s with
      | None => None
      | Some (items, rest) =>
          match rest with
          | "|" :: rest' =>
              match parseAlternation fuel' rest' with
              | Some (branches, r) => Some (mkConcat items :: branches, r)
              | None => None
              end
          | _ => Some ([mkConcat items], rest)
          end
      end
  end
with parseConcat (fuel : nat) (s : list ascii) {struct fuel}
  : option (list Regexp * list ascii) :=
  match fuel with
  | O => None
  | S fuel' =>
      match s with
      | [] => Some ([], [])
      | "|" :: _ | ")" :: _ => Some ([], s)
      | _ =>
          match parseAtom fuel' s with
          | None => None
          | Some (a, rest) =>
              let (a', rest') := postfix a rest in
              match parseConcat fuel' rest' with
              | Some (items, r) => Some (a' :: items, r)
              | None => None
              end
          end
      end
  end
with parseAtom (fuel : nat) (s : list ascii) {struct fuel}
  : option (Regexp * list ascii) :=
  match fuel with
  | O => None
  | S fuel' =>
      match s with
      | "(" :: rest =>
          match parseAlternation fuel' rest with
          | Some (branches, ")" :: r) => Some (Re OpCapture [mkAlternate branches] [], r)
          | _ => None
          end
      | "." :: rest => Some (Re OpAnyChar [] [], rest)
      | "\" :: "A" :: rest => Some (Re OpBeginText [] [], rest)
      | "\" :: "z" :: rest => Some (Re OpEndText [] [], rest)
      | "\" :: c :: rest => if isMeta c then Some (lit c, rest) else None
      | c :: rest => if isMeta c then None else Some (lit c, rest)
      | [] => None
      end
  end.

Definition syntaxParse (str : string) : option Regexp :=
  let s := list_ascii_of_string str in
  match parseAlternation (3 * List.length s + 3) s with
  | Some (branches, []) => Some (mkAlternate branches)
  | _ => None
  end.

Local Close Scope char_scope.

(** [c] lies in one of the ranges, given as pairs. *)
Fixpoint inRanges (ranges : list Z) (c : Z) : bool :=
  match ranges with
  | lo :: hi :: ranges' => ((lo <=? c) && (c <=? hi)) || inRanges ranges' c
  | _ => false
  end.

(** The character at position [i], as a rune. *)
Definition runeAt (s : list ascii) (i : nat) : option Z :=
  option_map (fun c => Z.of_N (N_of_ascii c)) (nth_error s i).

(** The positions reached from [cur] by zero to [n] rounds of [f]. *)
Fixpoint rounds (f : nat -> list nat) (n : nat) (cur : list nat) : list nat :=
  match n with
  | O => cur
  | S n' => cur ++ rounds f n' (flat_map f cur)
  end.

(** The literal [runes] read from position [i]. *)
Fixpoint literalEnds (runes : list Z) (s : list ascii) (i : nat) : list nat :=
  match runes with
  | [] => [i]
  | c :: runes' =>
      match runeAt s i with
      | Some d => if c =? d then literalEnds runes' s (S i) else []
      | None => []
      end
  end.

(** The positions at which a match of [re] that starts at [i] can end. *)
Fixpoint ends (re : Regexp) (s : list ascii) (i : nat) {struct re} : list nat :=
  match re with
  | Re op Sub Rune =>
      match op with
      | OpEmptyMatch => [i]
      | OpLiteral => literalEnds Rune s i
      | OpCharClass =>
          match runeAt s i with
          | Some c => if inRanges Rune c then [S i] else []
          | None => []
          end
      | OpAnyChar =>
          match runeAt s i with
          | Some _ => [S i]
          | None => []
          end
      | OpAnyCharNotNL =>
          match runeAt s i with
          | Some c => if c =? 10 then [] else [S i]
          | None => []
          end
      | OpBeginText => if Nat.eqb i 0 then [i] else []
      | OpEndText => if Nat.eqb i (List.length s) then [i] else []
      | OpCapture =>
          match Sub with
          | [r] => ends r s i
          | _ => []
          end
      | OpConcat =>
          (fix chain (subs : list Regexp) (cur : list nat) : list nat :=
             match subs with
             | [] => cur
             | r :: subs' => chain subs' (flat_map (ends r s) cur)
             end) Sub [i]
      | OpAlternate =>
          (fix any_of (subs : list Regexp) : list nat :=
             match subs with
             | [] => []
             | r :: subs' => ends r s i ++ any_of subs'
             end) Sub
      | OpStar =>
          match Sub with
          | [r] => rounds (ends r s) (List.length s) [i]
          | _ => []
          end
      | OpPlus =>
          match Sub with
          | [r] => rounds (ends r s) (List.length s) (ends r s i)
          | _ => []
          end
      | OpQuest =>
          match Sub with
          | [r] => i :: ends r s i
          | _ => []
          end
      | _ => []
      end
  end.

(** [MatchString]: a match starts at some position of [str]. *)
Definition Match (re : Regexp) (str : string) : bool :=
  let s := list_ascii_of_string str in
  existsb (fun i => match ends re s i with [] => false | _ => true end)
    (seq 0 (S (List.length s))).

(** A match of [re] that covers the whole of [str]. *)
Definition MatchWhole (re : Regexp) (str : string) : bool :=
  let s := list_ascii_of_string str in
  existsb (Nat.eqb (List.length s)) (ends re s 0).

#[export] Instance host : RegexpHost := {
  Compiled := Regexp;
  syntax_Parse := syntaxParse;
  regexp_Compile := fun r => Some r;
  MatchString := Match
}.

End HostModel.

(* ================================================================== *)
(** ** The syntax tree the parser builds

    The parser calls the constructors of the package [spec], which is not
    among the sources.  They are the constructors of the inductive types
    of this module: the tree is kept as data, one constructor for each
    kind of node the parser creates. *)
Module spec.

Inductive CompOp : Type :=
| EqualTo | NotEqualTo | LessThan | GreaterThan
| LessThanEqualTo | GreaterThanEqualTo.

(** [spec.Literal(v)] *)
Inductive LiteralArg : Type := Literal (v : JSON).

Inductive Selector : Type :=
| Name (s : string)
| Index (i : Z)
| SliceSel (s : SliceSelector)
| Wildcard
| Filter (lor : list (list BasicExpr))
with Segment : Type :=
| Child (sel : list Selector)
| Descendant (sel : list Selector)
with PathQuery : Type :=
| Query (root : bool) (segs : list Segment)
with BasicExpr : Type :=
| Paren (e : list (list BasicExpr))
| NotParen (e : list (list BasicExpr))
| ExistExpr (q : PathQuery)
| Nonexistence (q : PathQuery)
| ComparisonExpr (Left : CompVal) (Op : CompOp) (Right : CompVal)
| FuncExpr (f : FunctionExpr)
| NotFuncExpr (f : FunctionExpr)
with SingularQueryExpr : Type :=
| SingularQuery (root : bool) (sel : list Selector)
with CompVal : Type :=
| CompLiteral (l : LiteralArg)
| CompSingular (sq : SingularQueryExpr)
| CompFunc (f : FunctionExpr)
with FunctionExprArg : Type :=
| ArgLiteral (l : LiteralArg)
| ArgSingular (sq : SingularQueryExpr)
| ArgQuery (q : PathQuery)
| ArgFunc (f : FunctionExpr)
| ArgLogicalOr (e : list (list BasicExpr))
with FunctionExpr : Type :=
| Func (name : string) (result : FuncType) (args : list FunctionExprArg).

Definition LogicalAnd : Type := list BasicExpr.
Definition LogicalOr : Type := list LogicalAnd.

(** [f.ResultType()] *)
Definition ResultType (f : FunctionExpr) : FuncType :=
  match f with Func _ result _ => result end.

Definition Selector_isSingular (sel : Selector) : bool :=
  match sel with
  | Name _ | Index _ => true
  | _ => false
  end.

(** Modelled from the spec: the singularity of a segment and of a
    query, missing from the sources.  A query is singular iff every
    segment is a child segment with exactly one selector, a [Name] or
    an [Index]. *)
Definition Segment_isSingular (s : Segment) : bool :=
  match s with
  | Child [sel] => Selector_isSingular sel
  | _ => false
  end.

Definition isSingular (q : PathQuery) : bool :=
  match q with Query _ segs => forallb Segment_isSingular segs end.

(** Modelled from the spec: [q.Singular()], missing from the sources.
    It is the singular query of the selectors of [q] when [q] is
    singular, and nil otherwise. *)
Definition Singular (q : PathQuery) : option SingularQueryExpr :=
  match q with
  | Query root segs =>
      if forallb Segment_isSingular segs
      then Some (SingularQuery root
                   (flat_map (fun s => match s with
                                       | Child sel => sel
                                       | Descendant sel => sel
                                       end) segs))
      else None
  end.

(** Modelled from the spec: [q.Expression()], missing from the sources:
    the query as a function argument, which is its singular query when
    it is singular (a value or nothing, of kind [FuncSingularQuery]) and
    the query itself otherwise (a node list). *)
Definition Expression (q : PathQuery) : FunctionExprArg :=
  match Singular q with
  | Some sq => ArgSingular sq
  | None => ArgQuery q
  end.

#[global] Instance FunctionExprArg_kind : FunctionExprArgI FunctionExprArg :=
  fun a =>
    match a with
    | ArgLiteral _ => FuncLiteral
    | ArgSingular _ => FuncSingularQuery
    | ArgQuery q => if isSingular q then FuncSingularQuery else FuncNodeList
    | ArgFunc f => ResultType f
    | ArgLogicalOr _ => FuncLogical
    end.

End spec.

(* ================================================================== *)
(** ** Tokens, the lexer interface and number conversion *)

(** A Go [rune] as the lexer and the parser use it: a character of the
    input, or one of the negative constants that name a token class. *)
Inductive rune : Type :=
| Char (c : ascii)
| invalid | eof | identifier | integer | number | goString
| boolTrue | boolFalse | jsonNull | blankSpace.

Definition rune_eqb (a b : rune) : bool :=
  match a, b with
  | Char c, Char d => Ascii.eqb c d
  | invalid, invalid | eof, eof | identifier, identifier
  | integer, integer | number, number | goString, goString
  | boolTrue, boolTrue | boolFalse, boolFalse | jsonNull, jsonNull
  | blankSpace, blankSpace => true
  | _, _ => false
  end.

(** [r == 'c'] *)
Definition isChar (r : rune) (c : string) : bool :=
  match r, c with
  | Char d, String c' EmptyString => Ascii.eqb d c'
  | _, _ => false
  end.

(** [type token struct]: the class, the text and the offset in the
    input, counted from zero. *)
Record token : Type := mkToken {
  tok : rune;
  val : string;
  pos : Z
}.

(** The lexer is not among the sources.  The parser uses its field [r]
    (the character about to be read), [scan] and the blank-space helpers,
    and the method [name] of a token; they form this interface. *)
Class Lexer : Type := {
  lexer : Type;
  newLexer : string -> lexer;
  r : lexer -> rune;
  scan : lexer -> token * lexer;
  skipBlankSpace : lexer -> rune * lexer;
  scanBlankSpace : lexer -> token * lexer;
  peekPastBlankSpace : lexer -> rune;
  isBlankSpace : rune -> bool;
  name : token -> string
}.

(** *** [strconv]

    The conversions of the Go library that the parser calls, in base 10
    and 64 bits. *)
Inductive NumError : Type := ErrSyntax | ErrRange.

Definition NumError_Error (e : NumError) : string :=
  match e with
  | ErrSyntax => "invalid syntax"
  | ErrRange => "value out of range"
  end.

Definition digitOf (c : ascii) : option Z :=
  let n := Z.of_N (N_of_ascii c) in
  if (48 <=? n) && (n <=? 57) then Some (n - 48) else None.

Definition maxUint64 : Z := 18446744073709551615.

(** The loop of [strconv.ParseUint]: a character that is no digit is a
    syntax error, a value that leaves 64 bits a range error. *)
Fixpoint ParseUint_loop (s : string) (n : Z) : Z + NumError :=
  match s with
  | EmptyString => inl n
  | String c s' =>
      match digitOf c with
      | None => inr ErrSyntax
      | Some d =>
          if n >=? maxUint64 / 10 + 1 then inr ErrRange
          else
            let n1 := n * 10 + d in
            if n1 >? maxUint64 then inr ErrRange
            else ParseUint_loop s' n1
      end
  end.

Definition ParseUint (s : string) : Z + NumError :=
  match s with
  | EmptyString => inr ErrSyntax
  | _ => ParseUint_loop s 0
  end.

(** [strconv.ParseInt(s, 10, 64)] *)
Definition ParseInt (s : string) : Z + NumError :=
  match s with
  | EmptyString => inr ErrSyntax
  | String c s' =>
      let '(neg, digits) :=
        if Ascii.eqb c "+" then (false, s')
        else if Ascii.eqb c "-" then (true, s')
        else (false, s) in
      match ParseUint digits with
      | inr ErrSyntax => inr ErrSyntax
      | res =>
          let un := match res with inl n => n | inr _ => maxUint64 end in
          let cutoff := 9223372036854775808 in
          if negb neg && (un >=? cutoff) then inr ErrRange
          else if neg && (un >? cutoff) then inr ErrRange
          else inl (if neg then - un else un)
      end
  end.

(** [strconv.Quote] on text without quotes, backslashes or control
    characters, which is all that is quoted below. *)
Definition Quote (s : string) : string := dquote +++ s +++ dquote.

(** The nearest binary64 to [m * 10 ^ e10], ties to even.  A negative
    exponent is a division: the quotient is taken with 64 bits to spare
    and its last bit records whether anything was left. *)
Definition decimalToFloat (neg : bool) (m e10 : Z) : spec_float :=
  if m =? 0 then S754_zero neg
  else
    let sign z := if neg then - z else z in
    if e10 >=? 0 then binary_normalize 53 1024 (sign (m * 10 ^ e10)) 0 false
    else
      let d := 10 ^ (- e10) in
      let s := Z.log2 d + 65 in
      let q := (m * 2 ^ s) / d in
      let sticky := if (m * 2 ^ s) mod d =? 0 then 0 else 1 in
      binary_normalize 53 1024 (sign (2 * q + sticky)) (- (s + 1)) false.

(** The digits at the head of [s], their value after [acc], their number,
    and the rest. *)
Fixpoint digitsOf (s : string) (acc : Z) (count : Z) : Z * Z * string :=
  match s with
  | EmptyString => (acc, count, s)
  | String c s' =>
      match digitOf c with
      | Some d => digitsOf s' (acc * 10 + d) (count + 1)
      | None => (acc, count, s)
      end
  end.

(** [strconv.ParseFloat(s, 64)] on the number syntax of JSON: an optional
    sign, digits, an optional fraction and an optional exponent.  The
    result is the float with the error, if any; a value too large is the
    infinity together with [ErrRange]. *)
Definition ParseFloat (s : string) : spec_float * option NumError :=
  let '(neg, s1) :=
    match s with
    | String "-" s' => (true, s')
    | String "+" s' => (false, s')
    | _ => (false, s)
    end in
  let '(ip, ni, s2) := digitsOf s1 0 0 in
  let '(m, nf, s3) :=
    match s2 with
    | String "." s' => digitsOf s' ip 0
    | _ => (ip, 0, s2)
    end in
  let digitsSeen := negb (ni + nf =? 0) in
  let exponent : option (Z * string) :=
    match s3 with
    | String c s' =>
        if Ascii.eqb c "e" || Ascii.eqb c "E" then
          let '(eneg, s4) :=
            match s' with
            | String "-" t => (true, t)
            | String "+" t => (false, t)
            | _ => (false, s')
            end in
          let '(e, ne, s5) := digitsOf s4 0 0 in
          if ne =? 0 then None else Some (if eneg then - e else e, s5)
        else Some (0, s3)
    | EmptyString => Some (0, s3)
    end in
  match exponent with
  | Some (e, EmptyString) =>
      if digitsSeen then
        let f := decimalToFloat neg m (e - nf) in
        match f with
        | S754_infinity _ => (f, Some ErrRange)
        | _ => (f, None)
        end
      else (S754_zero false, Some ErrSyntax)
  | _ => (S754_zero false, Some ErrSyntax)
  end.

(* ================================================================== *)
(** ** The parser *)

(** The outcome of a parsing function: a value and the lexer after it, a
    parse error, or the fuel of the model used up. *)
Inductive PResult (L A : Type) : Type :=
| POk (a : A) (lex : L)
| PErr (err : string)
| PFuel.

Arguments POk {L A} a lex.
Arguments PErr {L A} err.
Arguments PFuel {L A}.

Section Parser.
Context {host : RegexpHost} {L : Lexer}.

(** A parsing function threads the lexer and stops at the first error. *)
Definition Parser (A : Type) : Type := lexer -> PResult lexer A.

Definition pret {A : Type} (a : A) : Parser A := fun lex => POk a lex.

Definition fail {A : Type} (err : string) : Parser A := fun _ => PErr err.

Definition pbind {A B : Type} (m : Parser A) (k : A -> Parser B) : Parser B :=
  fun lex =>
    match m lex with
    | POk a lex' => k a lex'
    | PErr err => PErr err
    | PFuel => PFuel
    end.

Declare Scope parser_scope.
Notation "x <- m ;; k" := (pbind m (fun x => k))
  (at level 61, m at next level, right associativity) : parser_scope.
Notation "m ;;; k" := (pbind m (fun _ => k))
  (at level 61, right associativity) : parser_scope.
Local Open Scope parser_scope.

(** [lex.scan()] *)
Definition scanTok : Parser token :=
  fun lex => let (t, lex') := scan lex in POk t lex'.

(** [lex.r] *)
Definition curRune : Parser rune := fun lex => POk (r lex) lex.

(** [lex.skipBlankSpace()] *)
Definition skipBlank : Parser rune :=
  fun lex => let (c, lex') := skipBlankSpace lex in POk c lex'.

(** [lex.scanBlankSpace()] *)
Definition scanBlank : Parser token :=
  fun lex => let (t, lex') := scanBlankSpace lex in POk t lex'.

(** [lex.peekPastBlankSpace()] *)
Definition peekPast : Parser rune := fun lex => POk (peekPastBlankSpace lex) lex.

(** [fmt.Errorf("%w: %v at position %v", ErrPathParse, msg, tok.pos+1)] *)
Definition makeError (tok : token) (msg : string) : string :=
  "jsonpath: " +++ msg +++ " at position " +++ itoa (pos tok + 1).

Definition unexpected (t : token) : string :=
  if rune_eqb (tok t) invalid then makeError t (val t)
  else makeError t ("unexpected " +++ name t).

(** [makeNumErr], for the [*strconv.NumError] of the text [num]. *)
Definition makeNumErr (t : token) (num : string) (err : NumError) : string :=
  makeError t ("cannot parse " +++ Quote num +++ ", " +++ NumError_Error err).

Definition parseNameOrWildcard : Parser spec.Selector :=
  t <- scanTok ;;
  if rune_eqb (tok t) identifier then pret (spec.Name (val t))
  else if isChar (tok t) "*" then pret spec.Wildcard
  else fail (unexpected t).

Definition minVal : Z := - 2 ^ 53 + 1.
Definition maxVal : Z := 2 ^ 53 - 1.

(** [func parsePathInt(tok token) (int64, error)] *)
Definition parsePathInt (t : token) : Z + string :=
  if String.eqb (val t) "-0" then
    inr (makeError t ("invalid integer path value " +++ Quote (val t)))
  else
    match ParseInt (val t) with
    | inr err => inr (makeNumErr t (val t) err)
    | inl idx =>
        if (idx >? maxVal) || (idx <? minVal) then
          inr (makeError t ("cannot parse " +++ Quote (val t) +++ ", value out of range"))
        else inl idx
    end.

(** A function that returns a value or an error, as a parsing step. *)
Definition lift {A : Type} (res : A + string) : Parser A :=
  match res with
  | inl a => pret a
  | inr err => fail err
  end.

(** [var args [3]any] and the assignment [args[i] = int(num)] *)
Definition sliceArgs : Type := (option Z * option Z * option Z)%type.

Definition setArg (args : sliceArgs) (i : Z) (num : Z) : sliceArgs :=
  let '(a0, a1, a2) := args in
  if i =? 0 then (Some num, a1, a2)
  else if i =? 1 then (a0, Some num, a2)
  else (a0, a1, Some num).

(** The loop of [parseSlice]. *)
Fixpoint parseSlice_loop (fuel : nat) (args : sliceArgs) (i : Z) (t : token)
  : Parser SliceSelector :=
  match fuel with
  | O => fun _ => PFuel
  | S fuel' =>
      if i <? 3 then
        step <- (if isChar (tok t) ":" then pret (args, i + 1)
                 else if rune_eqb (tok t) integer then
                   num <- lift (parsePathInt t) ;;
                   pret (setArg args i num, i)
                 else fail (unexpected t)) ;;
        let '(args', i') := step in
        next <- skipBlank ;;
        if isChar next "]" || isChar next "," then
          let '(a0, a1, a2) := args' in pret (Slice a0 a1 a2)
        else
          t' <- scanTok ;;
          parseSlice_loop fuel' args' i' t'
      else fail (unexpected t)
  end.

Definition parseSlice (fuel : nat) (t : token) : Parser SliceSelector :=
  parseSlice_loop fuel (None, None, None) 0 t.

(** [func parseLiteral(tok token)], which returns a literal or an error *)
Definition parseLiteral (t : token) : spec.LiteralArg + string :=
  match tok t with
  | goString => inl (spec.Literal (JString (val t)))
  | integer =>
      match ParseInt (val t) with
      | inr err => inr (makeNumErr t (val t) err)
      | inl i => inl (spec.Literal (JInt i))
      end
  | number =>
      match ParseFloat (val t) with
      | (_, Some err) => inr (makeNumErr t (val t) err)
      | (num, None) => inl (spec.Literal (JFloat num))
      end
  | boolTrue => inl (spec.Literal (JBool true))
  | boolFalse => inl (spec.Literal (JBool false))
  | jsonNull => inl (spec.Literal JNull)
  | _ => inr (unexpected t)
  end.

(** [func parseCompOp(lex *lexer)] *)
Definition parseCompOp : Parser spec.CompOp :=
  t <- scanTok ;;
  c <- curRune ;;
  if isChar (tok t) "=" then
    if isChar c "=" then scanTok ;;; pret spec.EqualTo
    else fail (makeError t "invalid comparison operator")
  else if isChar (tok t) "!" then
    if isChar c "=" then scanTok ;;; pret spec.NotEqualTo
    else fail (makeError t "invalid comparison operator")
  else if isChar (tok t) "<" then
    if isChar c "=" then scanTok ;;; pret spec.LessThanEqualTo
    else pret spec.LessThan
  else if isChar (tok t) ">" then
    if isChar c "=" then scanTok ;;; pret spec.GreaterThanEqualTo
    else pret spec.GreaterThan
  else fail (makeError t "invalid comparison operator").

(** The loop of [parseSingularQuery]. *)
Fixpoint parseSingularQuery_loop (fuel : nat) (startToken : token)
  (selectors : list spec.Selector) : Parser spec.SingularQueryExpr :=
  match fuel with
  | O => fun _ => PFuel
  | S fuel' =>
      c <- curRune ;;
      if isChar c "[" then
        skipBlank ;;;
        scanTok ;;;
        t <- scanTok ;;
        sel <- (if rune_eqb (tok t) goString then pret (spec.Name (val t))
                else if rune_eqb (tok t) integer then
                  idx <- lift (parsePathInt t) ;;
                  pret (spec.Index idx)
                else fail (unexpected t)) ;;
        skipBlank ;;;
        t' <- scanTok ;;
        if negb (isChar (tok t') "]") then fail (unexpected t')
        else parseSingularQuery_loop fuel' startToken (selectors ++ [sel])
      else if isChar c "." then
        scanTok ;;;
        t <- scanTok ;;
        if negb (rune_eqb (tok t) identifier) then fail (unexpected t)
        else parseSingularQuery_loop fuel' startToken (selectors ++ [spec.Name (val t)])
      else pret (spec.SingularQuery (isChar (tok startToken) "$") selectors)
  end.

Definition parseSingularQuery (fuel : nat) (startToken : token)
  : Parser spec.SingularQueryExpr :=
  parseSingularQuery_loop fuel startToken [].

(** The literal token classes. *)
Definition isLiteralTok (c : rune) : bool :=
  match c with
  | goString | integer | number | boolFalse | boolTrue | jsonNull => true
  | _ => false
  end.

(** The characters that start a comparison operator. *)
Definition isCompStart (c : rune) : bool :=
  isChar c "=" || isChar c "!" || isChar c "<" || isChar c ">".

(** The parsing functions call each other; every call takes one unit
    of [fuel].  A loop of the Go code is the function calling itself
    with the values it has collected. *)
Fixpoint parseQuery (fuel : nat) (root : bool) (segs : list spec.Segment)
  {struct fuel} : Parser spec.PathQuery :=
  match fuel with
  | O => fun _ => PFuel
  | S fuel' =>
      c <- curRune ;;
      if isChar c "[" then
        scanTok ;;;
        selectors <- parseSelectors fuel' [] ;;
        parseQuery fuel' root (segs ++ [spec.Child selectors])
      else if isChar c "." then
        scanTok ;;;
        c' <- curRune ;;
        if isChar c' "." then
          scanTok ;;;
          seg <- parseDescendant fuel' ;;
          parseQuery fuel' root (segs ++ [seg])
        else
          sel <- parseNameOrWildcard ;;
          parseQuery fuel' root (segs ++ [spec.Child [sel]])
      else if isBlankSpace c then
        p <- peekPast ;;
        if isChar p "." || isChar p "[" then
          scanBlank ;;;
          parseQuery fuel' root segs
        else pret (spec.Query root segs)
      else pret (spec.Query root segs)
  end

with parseDescendant (fuel : nat) {struct fuel} : Parser spec.Segment :=
  match fuel with
  | O => fun _ => PFuel
  | S fuel' =>
      t <- scanTok ;;
      if isChar (tok t) "[" then
        selectors <- parseSelectors fuel' [] ;;
        pret (spec.Descendant selectors)
      else if rune_eqb (tok t) identifier then
        pret (spec.Descendant [spec.Name (val t)])
      else if isChar (tok t) "*" then pret (spec.Descendant [spec.Wildcard])
      else fail (unexpected t)
  end

with parseSelectors (fuel : nat) (selectors : list spec.Selector)
  {struct fuel} : Parser (list spec.Selector) :=
  match fuel with
  | O => fun _ => PFuel
  | S fuel' =>
      (* Successfully parsed a selector. What's next? *)
      let next (selectors : list spec.Selector) : Parser (list spec.Selector) :=
        c <- skipBlank ;;
        if isChar c "," then scanTok ;;; parseSelectors fuel' selectors
        else if isChar c "]" then scanTok ;;; pret selectors
        else t' <- scanTok ;; fail (unexpected t') in
      t <- scanTok ;;
      if isChar (tok t) "?" then
        filter <- parseFilter fuel' ;;
        next (selectors ++ [filter])
      else if isChar (tok t) "*" then next (selectors ++ [spec.Wildcard])
      else if rune_eqb (tok t) goString then next (selectors ++ [spec.Name (val t)])
      else if rune_eqb (tok t) integer then
        c <- skipBlank ;;
        if isChar c ":" then
          slice <- parseSlice fuel' t ;;
          next (selectors ++ [spec.SliceSel slice])
        else
          idx <- lift (parsePathInt t) ;;
          next (selectors ++ [spec.Index idx])
      else if isChar (tok t) ":" then
        slice <- parseSlice fuel' t ;;
        next (selectors ++ [spec.SliceSel slice])
      else if rune_eqb (tok t) blankSpace then parseSelectors fuel' selectors
      else fail (unexpected t)
  end

with parseFilter (fuel : nat) {struct fuel} : Parser spec.Selector :=
  match fuel with
  | O => fun _ => PFuel
  | S fuel' =>
      lor <- parseLogicalOrExpr fuel' ;;
      pret (spec.Filter lor)
  end

with parseLogicalOrExpr (fuel : nat) {struct fuel} : Parser spec.LogicalOr :=
  match fuel with
  | O => fun _ => PFuel
  | S fuel' =>
      land <- parseLogicalAndExpr fuel' ;;
      scanBlank ;;;
      parseLogicalOrExpr_loop fuel' [land]
  end

with parseLogicalOrExpr_loop (fuel : nat) (ands : list spec.LogicalAnd)
  {struct fuel} : Parser spec.LogicalOr :=
  match fuel with
  | O => fun _ => PFuel
  | S fuel' =>
      c <- curRune ;;
      if negb (isChar c "|") then pret ands
      else
        scanTok ;;;
        next <- scanTok ;;
        if negb (isChar (tok next) "|") then
          fail (makeError next ("expected '|' but found " +++ name next))
        else
          land <- parseLogicalAndExpr fuel' ;;
          parseLogicalOrExpr_loop fuel' (ands ++ [land])
  end

with parseLogicalAndExpr (fuel : nat) {struct fuel} : Parser spec.LogicalAnd :=
  match fuel with
  | O => fun _ => PFuel
  | S fuel' =>
      expr <- parseBasicExpr fuel' ;;
      scanBlank ;;;
      parseLogicalAndExpr_loop fuel' [expr]
  end

with parseLogicalAndExpr_loop (fuel : nat) (ors : list spec.BasicExpr)
  {struct fuel} : Parser spec.LogicalAnd :=
  match fuel with
  | O => fun _ => PFuel
  | S fuel' =>
      c <- curRune ;;
      if negb (isChar c "&") then pret ors
      else
        scanTok ;;;
        next <- scanTok ;;
        if negb (isChar (tok next) "&") then
          fail (makeError next ("expected '&' but found " +++ name next))
        else
          expr <- parseBasicExpr fuel' ;;
          parseLogicalAndExpr_loop fuel' (ors ++ [expr])
  end

with parseBasicExpr (fuel : nat) {struct fuel} : Parser spec.BasicExpr :=
  match fuel with
  | O => fun _ => PFuel
  | S fuel' =>
      skipBlank ;;;
      t <- scanTok ;;
      if isChar (tok t) "!" then
        c <- skipBlank ;;
        if isChar c "(" then
          scanTok ;;;
          parseNotParenExpr fuel'
        else
          next <- scanTok ;;
          if rune_eqb (tok next) identifier then
            f <- parseFunction fuel' next ;;
            pret (spec.NotFuncExpr f)
          else parseNotExistsExpr fuel' next
      else if isChar (tok t) "(" then parseParenExpr fuel'
      else if isLiteralTok (tok t) then
        left <- lift (parseLiteral t) ;;
        parseComparableExpr fuel' (spec.CompLiteral left)
      else if rune_eqb (tok t) identifier then
        c <- curRune ;;
        if isChar c "(" then parseFunctionFilterExpr fuel' t
        else fail (unexpected t)
      else if isChar (tok t) "@" || isChar (tok t) "$" then
        q <- parseFilterQuery fuel' t ;;
        match spec.Singular q with
        | Some sing =>
            c <- skipBlank ;;
            if isCompStart c then parseComparableExpr fuel' (spec.CompSingular sing)
            else pret (spec.ExistExpr q)
        | None => pret (spec.ExistExpr q)
        end
      else fail (unexpected t)
  end

with parseFunctionFilterExpr (fuel : nat) (ident : token) {struct fuel}
  : Parser spec.BasicExpr :=
  match fuel with
  | O => fun _ => PFuel
  | S fuel' =>
      f <- parseFunction fuel' ident ;;
      if FuncType_eqb (spec.ResultType f) FuncLogical then pret (spec.FuncExpr f)
      else
        c <- skipBlank ;;
        if isCompStart c then parseComparableExpr fuel' (spec.CompFunc f)
        else
          t <- scanTok ;;
          fail (makeError t "missing comparison to function result")
  end

with parseNotExistsExpr (fuel : nat) (t : token) {struct fuel}
  : Parser spec.BasicExpr :=
  match fuel with
  | O => fun _ => PFuel
  | S fuel' =>
      q <- parseFilterQuery fuel' t ;;
      pret (spec.Nonexistence q)
  end

with parseFilterQuery (fuel : nat) (t : token) {struct fuel}
  : Parser spec.PathQuery :=
  match fuel with
  | O => fun _ => PFuel
  | S fuel' => parseQuery fuel' (isChar (tok t) "$") []
  end

with parseInnerParenExpr (fuel : nat) {struct fuel} : Parser spec.LogicalOr :=
  match fuel with
  | O => fun _ => PFuel
  | S fuel' =>
      expr <- parseLogicalOrExpr fuel' ;;
      next <- scanTok ;;
      if negb (isChar (tok next) ")") then
        fail (makeError next ("expected ')' but found " +++ name next))
      else pret expr
  end

with parseParenExpr (fuel : nat) {struct fuel} : Parser spec.BasicExpr :=
  match fuel with
  | O => fun _ => PFuel
  | S fuel' =>
      expr <- parseInnerParenExpr fuel' ;;
      pret (spec.Paren expr)
  end

with parseNotParenExpr (fuel : nat) {struct fuel} : Parser spec.BasicExpr :=
  match fuel with
  | O => fun _ => PFuel
  | S fuel' =>
      expr <- parseInnerParenExpr fuel' ;;
      pret (spec.NotParen expr)
  end

with parseFunction (fuel : nat) (t : token) {struct fuel}
  : Parser spec.FunctionExpr :=
  match fuel with
  | O => fun _ => PFuel
  | S fuel' =>
      paren <- scanTok ;;
      args <- parseFunctionArgs fuel' [] ;;
      match NewFunctionExpr (val t) args with
      | inl fe => pret (spec.Func (FuncName (fn fe)) (ResultType (fn fe)) args)
      | inr (ErrUnregistered err) => fail (makeError t err)
      | inr (ErrInvalid err) => fail (makeError paren err)
      end
  end

with parseFunctionArgs (fuel : nat) (res : list spec.FunctionExprArg)
  {struct fuel} : Parser (list spec.FunctionExprArg) :=
  match fuel with
  | O => fun _ => PFuel
  | S fuel' =>
      (* Successfully parsed an argument. What's next? *)
      let next (res : list spec.FunctionExprArg)
        : Parser (list spec.FunctionExprArg) :=
        c <- skipBlank ;;
        if isChar c "," then scanTok ;;; parseFunctionArgs fuel' res
        else if isChar c ")" then scanTok ;;; pret res
        else t' <- scanTok ;; fail (unexpected t') in
      t <- scanTok ;;
      if isLiteralTok (tok t) then
        v <- lift (parseLiteral t) ;;
        next (res ++ [spec.ArgLiteral v])
      else if isChar (tok t) "@" || isChar (tok t) "$" then
        q <- parseFilterQuery fuel' t ;;
        next (res ++ [spec.Expression q])
      else if rune_eqb (tok t) identifier then
        c <- skipBlank ;;
        if negb (isChar c "(") then fail (unexpected t)
        else
          f <- parseFunction fuel' t ;;
          next (res ++ [spec.ArgFunc f])
      else if rune_eqb (tok t) blankSpace then parseFunctionArgs fuel' res
      else if isChar (tok t) ")" then pret res
      else if isChar (tok t) "!" || isChar (tok t) "(" then
        ors <- parseLogicalOrExpr fuel' ;;
        next (res ++ [spec.ArgLogicalOr ors])
      else next res
  end

with parseComparableExpr (fuel : nat) (left : spec.CompVal) {struct fuel}
  : Parser spec.BasicExpr :=
  match fuel with
  | O => fun _ => PFuel
  | S fuel' =>
      skipBlank ;;;
      op <- parseCompOp ;;
      skipBlank ;;;
      t <- scanTok ;;
      right <- parseComparableVal fuel' t ;;
      pret (spec.ComparisonExpr left op right)
  end

with parseComparableVal (fuel : nat) (t : token) {struct fuel}
  : Parser spec.CompVal :=
  match fuel with
  | O => fun _ => PFuel
  | S fuel' =>
      if isLiteralTok (tok t) then
        v <- lift (parseLiteral t) ;;
        pret (spec.CompLiteral v)
      else if isChar (tok t) "@" || isChar (tok t) "$" then
        sq <- parseSingularQuery fuel' t ;;
        pret (spec.CompSingular sq)
      else if rune_eqb (tok t) identifier then
        c <- curRune ;;
        if negb (isChar c "(") then fail (unexpected t)
        else
          f <- parseFunction fuel' t ;;
          if FuncType_eqb (spec.ResultType f) FuncLogical then
            fail (makeError t "cannot compare result of logical function")
          else pret (spec.CompFunc f)
      else fail (unexpected t)
  end.

(** [func Parse(path string)], without the wrapping of the query into a
    [Path]. *)
Definition Parse (fuel : nat) (path : string) : PResult lexer spec.PathQuery :=
  let lex := newLexer path in
  let (t, lex) := scan lex in
  if isChar (tok t) "$" then
    (q <- parseQuery fuel true [] ;;
     c <- curRune ;;
     if negb (rune_eqb c eof) then
       t' <- scanTok ;;
       fail (unexpected t')
     else pret q) lex
  else if rune_eqb (tok t) eof then PErr "jsonpath: unexpected end of input"
  else PErr (unexpected t).

End Parser.

(* ================================================================== *)
(** ** A model of the lexer

    Modelled from the spec: the lexer, missing from the sources.  Its
    state is the input still to be read and the offset reached; [r] is
    the first character of that input.  Tokens follow the description of
    the specification: one token for each punctuation character,
    identifiers (with the words [true], [false] and [null]), numbers in
    the syntax of JSON, quoted strings with their escapes, and runs of
    blank space.  The input is read byte by byte, and a byte above 127
    counts as a character of a name.  Where the specification is silent
    (the text of the message of an invalid token, the printed name of a
    token) the model picks one; no statement below rests on that. *)
Module LexerModel.

Record state : Type := mkState {
  input : list ascii;
  offset : Z
}.

Definition codeOf (c : ascii) : Z := Z.of_N (N_of_ascii c).

Definition isBlank (c : ascii) : bool :=
  let n := codeOf c in (n =? 32) || (n =? 9) || (n =? 10) || (n =? 13).

Definition isDigit (c : ascii) : bool :=
  let n := codeOf c in (48 <=? n) && (n <=? 57).

Definition isNameFirst (c : ascii) : bool :=
  let n := codeOf c in
  ((65 <=? n) && (n <=? 90)) || ((97 <=? n) && (n <=? 122))
  || (n =? 95) || (128 <=? n).

Definition isNameChar (c : ascii) : bool := isNameFirst c || isDigit c.

(** The longest prefix of characters that satisfy [p], and the rest. *)
Fixpoint span (p : ascii -> bool) (s : list ascii) : list ascii * list ascii :=
  match s with
  | c :: s' =>
      if p c then let (a, b) := span p s' in (c :: a, b) else ([], s)
  | [] => ([], [])
  end.

Definition text (cs : list ascii) : string := string_of_list_ascii cs.

Definition advance (st : state) (taken : list ascii) (rest : list ascii) : state :=
  mkState rest (offset st + len taken).

Definition cur (st : state) : rune :=
  match input st with
  | c :: _ => Char c
  | [] => eof
  end.

Definition blankRune (c : rune) : bool :=
  match c with
  | Char c => isBlank c
  | _ => false
  end.

Definition scanBlanks (st : state) : token * state :=
  let (blanks, rest) := span isBlank (input st) in
  (mkToken blankSpace (text blanks) (offset st), advance st blanks rest).

Definition skipBlanks (st : state) : rune * state :=
  let st' := snd (scanBlanks st) in (cur st', st').

Definition peekPast (st : state) : rune := fst (skipBlanks st).

Definition scanIdentifier (st : state) : token * state :=
  let (word, rest) := span isNameChar (input st) in
  let kind :=
    if String.eqb (text word) "true" then boolTrue
    else if String.eqb (text word) "false" then boolFalse
    else if String.eqb (text word) "null" then jsonNull
    else identifier in
  (mkToken kind (text word) (offset st), advance st word rest).

Local Open Scope char_scope.
Local Open Scope Z_scope.

(** A number: an optional sign, an integer part without a leading
    zero, an optional fraction and an optional exponent. *)
Definition scanNumber (st : state) : token * state :=
  let bad (taken rest : list ascii) :=
    (mkToken invalid "invalid number literal"%string (offset st), advance st taken rest) in
  let (sign, s1) :=
    match input st with
    | "-" :: s' => (["-"], s')
    | s => ([], s)
    end in
  let (ip, s2) := span isDigit s1 in
  match ip with
  | [] => bad sign s1
  | "0" :: _ :: _ => bad (sign ++ ip) s2
  | _ =>
      let (frac, s3) :=
        match s2 with
        | "." :: s' =>
            let (fd, rest) := span isDigit s' in
            match fd with
            | [] => ([], s2)
            | _ => ("." :: fd, rest)
            end
        | _ => ([], s2)
        end in
      let expo : option (list ascii * list ascii) :=
        match s3 with
        | c :: s' =>
            if Ascii.eqb c "e" || Ascii.eqb c "E" then
              let (esign, s4) :=
                match s' with
                | "-" :: t => (["-"], t)
                | "+" :: t => (["+"], t)
                | _ => ([], s')
                end in
              let (ed, rest) := span isDigit s4 in
              match ed with
              | [] => None
              | _ => Some (c :: esign ++ ed, rest)
              end
            else Some ([], s3)
        | [] => Some ([], s3)
        end in
      match expo with
      | None => bad (sign ++ ip ++ frac) s3
      | Some (ex, rest) =>
          let taken := sign ++ ip ++ frac ++ ex in
          let kind := match frac, ex with [], [] => integer | _, _ => number end in
          (mkToken kind (text taken) (offset st), advance st taken rest)
      end
  end.

Definition hexOf (c : ascii) : option Z :=
  let n := codeOf c in
  if (48 <=? n) && (n <=? 57) then Some (n - 48)
  else if (65 <=? n) && (n <=? 70) then Some (n - 55)
  else if (97 <=? n) && (n <=? 102) then Some (n - 87)
  else None.

(** Four hexadecimal digits. *)
Definition hex4 (s : list ascii) : option (Z * list ascii) :=
  match s with
  | a :: b :: c :: d :: rest =>
      match hexOf a, hexOf b, hexOf c, hexOf d with
      | Some a, Some b, Some c, Some d =>
          Some (((a * 16 + b) * 16 + c) * 16 + d, rest)
      | _, _, _, _ => None
      end
  | _ => None
  end.

Definition byte (n : Z) : ascii := ascii_of_N (Z.to_N n).

(** The UTF-8 encoding of a scalar value. *)
Definition utf8 (cp : Z) : list ascii :=
  if cp <? 128 then [byte cp]
  else if cp <? 2048 then [byte (192 + cp / 64); byte (128 + cp mod 64)]
  else if cp <? 65536 then
    [byte (224 + cp / 4096); byte (128 + (cp / 64) mod 64); byte (128 + cp mod 64)]
  else
    [byte (240 + cp / 262144); byte (128 + (cp / 4096) mod 64);
     byte (128 + (cp / 64) mod 64); byte (128 + cp mod 64)].

(** The body of a quoted string up to the closing [quote]: the decoded
    text, the number of bytes read and the rest; [None] for a string
    that does not end or an escape that is not allowed. *)
Fixpoint scanStringBody (fuel : nat) (quote : ascii) (s : list ascii)
  (acc : list ascii) (read : Z) : option (list ascii * Z * list ascii) :=
  match fuel with
  | O => None
  | S fuel' =>
      match s with
      | [] => None
      | "\" :: e :: rest =>
          let simple (c : Z) := scanStringBody fuel' quote rest (acc ++ [byte c]) (read + 2) in
          if Ascii.eqb e quote then simple (codeOf quote)
          else if Ascii.eqb e "\" then simple 92
          else if Ascii.eqb e "/" then simple 47
          else if Ascii.eqb e "b" then simple 8
          else if Ascii.eqb e "f" then simple 12
          else if Ascii.eqb e "n" then simple 10
          else if Ascii.eqb e "r" then simple 13
          else if Ascii.eqb e "t" then simple 9
          else if Ascii.eqb e "u" then
            match hex4 rest with
            | Some (hi, rest') =>
                if (55296 <=? hi) && (hi <? 56320) then
                  match rest' with
                  | "\" :: "u" :: rest'' =>
                      match hex4 rest'' with
                      | Some (lo, rest''') =>
                          if (56320 <=? lo) && (lo <? 57344) then
                            scanStringBody fuel' quote rest'''
                              (acc ++ utf8 (65536 + (hi - 55296) * 1024 + (lo - 56320)))
                              (read + 12)
                          else None
                      | None => None
                      end
                  | _ => None
                  end
                else if (56320 <=? hi) && (hi <? 57344) then None
                else scanStringBody fuel' quote rest' (acc ++ utf8 hi) (read + 6)
            | None => None
            end
          else None
      | c :: rest =>
          if Ascii.eqb c quote then Some (acc, read + 1, rest)
          else scanStringBody fuel' quote rest (acc ++ [c]) (read + 1)
      end
  end.

Definition scanString (st : state) (quote : ascii) (body : list ascii)
  : token * state :=
  match scanStringBody (S (List.length body)) quote body [] 1 with
  | Some (decoded, read, rest) =>
      (mkToken goString (text decoded) (offset st), mkState rest (offset st + read))
  | None =>
      (mkToken invalid "invalid string literal"%string (offset st),
       mkState [] (offset st + len (input st)))
  end.

Definition scanToken (st : state) : token * state :=
  match input st with
  | [] => (mkToken eof EmptyString (offset st), st)
  | c :: rest =>
      if isBlank c then scanBlanks st
      else if Ascii.eqb c (ascii_of_nat 34) || Ascii.eqb c "'"%char then scanString st c rest
      else if isNameFirst c then scanIdentifier st
      else if isDigit c || Ascii.eqb c "-" then scanNumber st
      else (mkToken (Char c) (String c EmptyString) (offset st), advance st [c] rest)
  end.

Local Close Scope char_scope.

Definition tokenName (t : token) : string :=
  match tok t with
  | Char c => "'" +++ String c EmptyString +++ "'"
  | invalid => "invalid"
  | eof => "eof"
  | identifier => "identifier"
  | integer => "integer"
  | number => "number"
  | goString => "string"
  | boolTrue => "true"
  | boolFalse => "false"
  | jsonNull => "null"
  | blankSpace => "blank space"
  end.

#[export] Instance model : Lexer := {
  lexer := state;
  newLexer := fun path => mkState (list_ascii_of_string path) 0;
  r := cur;
  scan := scanToken;
  skipBlankSpace := skipBlanks;
  scanBlankSpace := scanBlanks;
  peekPastBlankSpace := peekPast;
  isBlankSpace := blankRune;
  name := tokenName
}.

End LexerModel.

(* ================================================================== *)
(** ** Notions used in the statements *)

(** The truthiness of a JSON value, case by case: null, false and the
    zeros are falsy, everything else is truthy. *)
Inductive Truthy : JSON -> Prop :=
| Truthy_true : Truthy (JBool true)
| Truthy_int : forall i, i <> 0 -> Truthy (JInt i)
| Truthy_float : forall f, SFeqb f (S754_zero false) = false -> Truthy (JFloat f)
| Truthy_string : forall s, Truthy (JString s)
| Truthy_array : forall val, Truthy (JArray val)
| Truthy_object : forall val, Truthy (JObject val).

(** The reading under which an empty array or object is falsy. *)
Definition truthyUnlessEmpty (v : JSON) : bool :=
  match v with
  | JNull => false
  | JBool b => b
  | JInt i => negb (i =? 0)
  | JFloat f => negb (SFeqb f (S754_zero false))
  | JString _ => true
  | JArray val => negb (len val =? 0)
  | JObject val => negb (len val =? 0)
  end.

(** The selectors of a singular query: a name or an index. *)
Inductive SingularSelector : Type :=
| SName (s : string)
| SIndex (i : Z).

Definition toSelector (s : SingularSelector) : Selector :=
  match s with
  | SName s => Name s
  | SIndex i => Index i
  end.

(** The value a name or an index leads to from [v], if any. *)
Definition stepTo (s : SingularSelector) (v : JSON) : option JSON :=
  match s, v with
  | SName k, JObject obj => getKey k obj
  | SIndex i, JArray arr =>
      let j := if i <? 0 then len arr + i else i in
      if (j <? 0) || (len arr <=? j) then None else nth_error arr (Z.to_nat j)
  | _, _ => None
  end.

(** The value reached by following a chain from [v]. *)
Fixpoint reach (sels : list SingularSelector) (v : JSON) : option JSON :=
  match sels with
  | [] => Some v
  | s :: sels' =>
      match stepTo s v with
      | Some v' => reach sels' v'
      | None => None
      end
  end.

(** A decimal digit, its character and its value. *)
Inductive digit : Type := D0 | D1 | D2 | D3 | D4 | D5 | D6 | D7 | D8 | D9.

Definition digitVal (d : digit) : Z :=
  match d with
  | D0 => 0 | D1 => 1 | D2 => 2 | D3 => 3 | D4 => 4
  | D5 => 5 | D6 => 6 | D7 => 7 | D8 => 8 | D9 => 9
  end.

Definition digitChar (d : digit) : ascii := ascii_of_N (Z.to_N (48 + digitVal d)).

Fixpoint digitsText (ds : list digit) : string :=
  match ds with
  | [] => EmptyString
  | d :: ds' => String (digitChar d) (digitsText ds')
  end.

(** The value of the digits [ds] written after a number of value [acc]. *)
Fixpoint digitsValue (acc : Z) (ds : list digit) : Z :=
  match ds with
  | [] => acc
  | d :: ds' => digitsValue (acc * 10 + digitVal d) ds'
  end.

(** The text of an integer token: an optional minus sign and digits. *)
Definition intText (neg : bool) (ds : list digit) : string :=
  if neg then String "-" (digitsText ds) else digitsText ds.

Definition intValue (neg : bool) (ds : list digit) : Z :=
  if neg then - digitsValue 0 ds else digitsValue 0 ds.

(** Whether the pattern [pat], compiled as it stands, matches the whole
    of [s]; [None] when it does not compile. *)
Definition fullMatch (pat s : string) : option bool :=
  match compileRegex (host := HostModel.host) pat with
  | Some rc => Some (HostModel.MatchWhole rc s)
  | None => None
  end.

(** A string as a JSONPath value. *)
Definition strValue (s : string) : JSONPathValue := PVValue (mkValueType (JString s)).

(** The call [match(@.x, "a")], of a singular query and a literal. *)
Definition matchCall {host : RegexpHost} : option (FunctionExpr FunctionExprArg) :=
  match GetFunction "match" with
  | Some fn =>
      Some (mkFunctionExpr
              [singularQuery_arg (mkSingularQuery true [Name "x"]);
               literalArg_arg (mkLiteralArg (JString "a"))] fn)
  | None => None
  end.

(** The filter [?match(@, "a.b")], of the current node and a literal. *)
Definition matchDotFilter {host : RegexpHost} : option Selector :=
  match GetFunction "match" with
  | Some fn =>
      Some (Filter
              [[FunctionExpr_basic
                  (mkFunctionExpr
                     [singularQuery_arg (mkSingularQuery true []);
                      literalArg_arg (mkLiteralArg (JString "a.b"))] fn)]])
  | None => None
  end.

(** The call [value(@)], of the current node as a singular query. *)
Definition valueCall : FunctionExpr FunctionExprArg :=
  mkFunctionExpr [singularQuery_arg (mkSingularQuery true [])]
    (mkFunction "value" FuncValue checkValueArgs valueFunc).

(** The iteration of a slice with a positive step, as a relation: from
    [i] upward by [step] while [i < upper], taking [json[i]]. *)
Inductive upFrom (json : list JSON) (upper step : Z) : Z -> list JSON -> Prop :=
| upFrom_stop : forall i, upper <= i -> upFrom json upper step i []
| upFrom_step : forall i x l,
    i < upper -> 0 <= i -> nth_error json (Z.to_nat i) = Some x ->
    upFrom json upper step (i + step) l ->
    upFrom json upper step i (x :: l).

(** The iteration with a negative step: from [i] downward by [step]
    while [lower < i]. *)
Inductive downFrom (json : list JSON) (lower step : Z) : Z -> list JSON -> Prop :=
| downFrom_stop : forall i, i <= lower -> downFrom json lower step i []
| downFrom_step : forall i x l,
    lower < i -> 0 <= i -> nth_error json (Z.to_nat i) = Some x ->
    downFrom json lower step (i + step) l ->
    downFrom json lower step i (x :: l).

(** *** Fuel

    [leq r1 r2]: the outcome [r2], reached with more fuel, agrees with
    [r1] unless [r1] ran out of fuel.  [Mono n m] says so of every
    parsing function at the fuels [n] and [m]. *)
Section Fuel.
Context {host : RegexpHost} {L : Lexer}.

Definition leq {A : Type} (r1 r2 : PResult lexer A) : Prop := r1 = PFuel \/ r1 = r2.

Record Mono (n m : nat) : Prop := {
  mono_parseSlice_loop : forall args i t lex,
    leq (parseSlice_loop n args i t lex) (parseSlice_loop m args i t lex);
  mono_parseSingularQuery_loop : forall st sels lex,
    leq (parseSingularQuery_loop n st sels lex) (parseSingularQuery_loop m st sels lex);
  mono_parseQuery : forall root segs lex,
    leq (parseQuery n root segs lex) (parseQuery m root segs lex);
  mono_parseDescendant : forall lex,
    leq (parseDescendant n lex) (parseDescendant m lex);
  mono_parseSelectors : forall sels lex,
    leq (parseSelectors n sels lex) (parseSelectors m sels lex);
  mono_parseFilter : forall lex, leq (parseFilter n lex) (parseFilter m lex);
  mono_parseLogicalOrExpr : forall lex,
    leq (parseLogicalOrExpr n lex) (parseLogicalOrExpr m lex);
  mono_parseLogicalOrExpr_loop : forall ands lex,
    leq (parseLogicalOrExpr_loop n ands lex) (parseLogicalOrExpr_loop m ands lex);
  mono_parseLogicalAndExpr : forall lex,
    leq (parseLogicalAndExpr n lex) (parseLogicalAndExpr m lex);
  mono_parseLogicalAndExpr_loop : forall ors lex,
    leq (parseLogicalAndExpr_loop n ors lex) (parseLogicalAndExpr_loop m ors lex);
  mono_parseBasicExpr : forall lex,
    leq (parseBasicExpr n lex) (parseBasicExpr m lex);
  mono_parseFunctionFilterExpr : forall ident lex,
    leq (parseFunctionFilterExpr n ident lex) (parseFunctionFilterExpr m ident lex);
  mono_parseNotExistsExpr : forall t lex,
    leq (parseNotExistsExpr n t lex) (parseNotExistsExpr m t lex);
  mono_parseFilterQuery : forall t lex,
    leq (parseFilterQuery n t lex) (parseFilterQuery m t lex);
  mono_parseInnerParenExpr : forall lex,
    leq (parseInnerParenExpr n lex) (parseInnerParenExpr m lex);
  mono_parseParenExpr : forall lex,
    leq (parseParenExpr n lex) (parseParenExpr m lex);
  mono_parseNotParenExpr : forall lex,
    leq (parseNotParenExpr n lex) (parseNotParenExpr m lex);
  mono_parseFunction : forall t lex,
    leq (parseFunction n t lex) (parseFunction m t lex);
  mono_parseFunctionArgs : forall res lex,
    leq (parseFunctionArgs n res lex) (parseFunctionArgs m res lex);
  mono_parseComparableExpr : forall left lex,
    leq (parseComparableExpr n left lex) (parseComparableExpr m left lex);
  mono_parseComparableVal : forall t lex,
    leq (parseComparableVal n t lex) (parseComparableVal m t lex)
}.

End Fuel.

(* ================================================================== *)
(** ** Notions used in the further properties *)

(** *** Registration *)
Section Registration.
Context {host : RegexpHost}.
Context {A : Type} {argI : FunctionExprArgI A}.

(** [func Register(fn *Function)]: the registry after the call.  The Go
    map is the association list; a new name goes to its end.  The mutex
    plays no part in a sequential run. *)
Definition Register (fn : option (Function A)) (reg : list (string * Function A))
  : Go (list (string * Function A)) :=
  match fn with
  | None => Panic "jsonpath: Register function is nil"
  | Some fn =>
      match lookup (FuncName fn) reg with
      | Some _ => Panic ("jsonpath: Register called twice for function " +++ FuncName fn)
      | None => Ret (reg ++ [(FuncName fn, fn)])
      end
  end.

(** [func registerFunctions()], from the empty registry of the package. *)
Definition registerFunctions : Go (list (string * Function A)) :=
  reg <- Register (Some (mkFunction "length" FuncValue checkLengthArgs lengthFunc)) [] ;;
  reg <- Register (Some (mkFunction "count" FuncValue checkCountArgs countFunc)) reg ;;
  reg <- Register (Some (mkFunction "value" FuncValue checkValueArgs valueFunc)) reg ;;
  reg <- Register (Some (mkFunction "match" FuncLogical checkMatchArgs matchFunc)) reg ;;
  Register (Some (mkFunction "search" FuncLogical checkSearchArgs searchFunc)) reg.

End Registration.

(** Whether a "." node occurs in a syntax tree. *)
Fixpoint hasAnyChar (re : Regexp) : bool :=
  match re with
  | Re op Sub _ => Op_eqb op OpAnyChar || existsb hasAnyChar Sub
  end.

(** Whether a JSONPath value is of the kind a result type announces,
    which is what the methods [FuncType] of the three implementations
    return: [FuncValue] for a value, [FuncLogical] for a logical,
    [FuncNodeList] for a node list.  Nothing, the nil that stands for
    the absence of a value, goes with [FuncValue]. *)
Definition hasResultType (ft : FuncType) (res : JSONPathValue) : bool :=
  match ft, res with
  | FuncValue, (PVNil | PVValue _) => true
  | FuncLogical, PVLogical _ => true
  | FuncNodeList, PVNodes _ => true
  | _, _ => false
  end.

(** Whether a call returned, as opposed to panicked. *)
Definition returns {A : Type} (m : Go A) : bool :=
  match m with
  | Ret _ => true
  | Panic _ => false
  end.

(** Whether a value is a string. *)
Definition isString (v : JSON) : bool :=
  match v with
  | JString _ => true
  | _ => false
  end.

(** *** Well-formed syntax trees

    What the constructors of the tree promise one another: segments
    with at least one selector, disjunctions and conjunctions that are
    not empty, indexes and slice parts within the interval of path
    integers, singular queries made of names and indexes, literals that
    are scalars, function calls that are registered and validated, a
    function on its own in a filter only when its result is logical and
    as an operand of a comparison only when it is not. *)

Definition inPathRange (i : Z) : Prop := minVal <= i <= maxVal.

Definition optInPathRange (x : option Z) : Prop :=
  match x with
  | Some i => inPathRange i
  | None => True
  end.

Definition wfSingularSelector (s : spec.Selector) : Prop :=
  match s with
  | spec.Name _ => True
  | spec.Index i => inPathRange i
  | _ => False
  end.

Definition wfSingularQuery (sq : spec.SingularQueryExpr) : Prop :=
  match sq with
  | spec.SingularQuery _ sel => Forall wfSingularSelector sel
  end.

Definition wfLiteral (l : spec.LiteralArg) : Prop :=
  match l with
  | spec.Literal (JArray _) | spec.Literal (JObject _) => False
  | _ => True
  end.

Section WellFormed.
Context {host : RegexpHost}.

Inductive wfSelector : spec.Selector -> Prop :=
| wf_Name : forall s, wfSelector (spec.Name s)
| wf_Index : forall i, inPathRange i -> wfSelector (spec.Index i)
| wf_SliceSel : forall s,
    optInPathRange (start s) -> optInPathRange (end_ s) -> inPathRange (step s) ->
    wfSelector (spec.SliceSel s)
| wf_Wildcard : wfSelector spec.Wildcard
| wf_Filter : forall lor, wfLogicalOr lor -> wfSelector (spec.Filter lor)
with wfSegment : spec.Segment -> Prop :=
| wf_Child : forall sel,
    sel <> [] -> Forall wfSelector sel -> wfSegment (spec.Child sel)
| wf_Descendant : forall sel,
    sel <> [] -> Forall wfSelector sel -> wfSegment (spec.Descendant sel)
with wfQuery : spec.PathQuery -> Prop :=
| wf_Query : forall root segs, Forall wfSegment segs -> wfQuery (spec.Query root segs)
with wfLogicalOr : list (list spec.BasicExpr) -> Prop :=
| wf_LogicalOr : forall lor,
    lor <> [] -> Forall (fun la => la <> [] /\ Forall wfBasicExpr la) lor ->
    wfLogicalOr lor
with wfBasicExpr : spec.BasicExpr -> Prop :=
| wf_Paren : forall e, wfLogicalOr e -> wfBasicExpr (spec.Paren e)
| wf_NotParen : forall e, wfLogicalOr e -> wfBasicExpr (spec.NotParen e)
| wf_ExistExpr : forall q, wfQuery q -> wfBasicExpr (spec.ExistExpr q)
| wf_Nonexistence : forall q, wfQuery q -> wfBasicExpr (spec.Nonexistence q)
| wf_ComparisonExpr : forall l op r,
    wfCompVal l -> wfCompVal r -> wfBasicExpr (spec.ComparisonExpr l op r)
| wf_FuncExpr : forall f,
    wfFunctionExpr f -> spec.ResultType f = FuncLogical ->
    wfBasicExpr (spec.FuncExpr f)
| wf_NotFuncExpr : forall f, wfFunctionExpr f -> wfBasicExpr (spec.NotFuncExpr f)
with wfCompVal : spec.CompVal -> Prop :=
| wf_CompLiteral : forall l, wfLiteral l -> wfCompVal (spec.CompLiteral l)
| wf_CompSingular : forall sq, wfSingularQuery sq -> wfCompVal (spec.CompSingular sq)
| wf_CompFunc : forall f,
    wfFunctionExpr f -> spec.ResultType f <> FuncLogical ->
    wfCompVal (spec.CompFunc f)
with wfFunctionExprArg : spec.FunctionExprArg -> Prop :=
| wf_ArgLiteral : forall l, wfLiteral l -> wfFunctionExprArg (spec.ArgLiteral l)
| wf_ArgSingular : forall sq, wfSingularQuery sq -> wfFunctionExprArg (spec.ArgSingular sq)
| wf_ArgQuery : forall q, wfQuery q -> wfFunctionExprArg (spec.ArgQuery q)
| wf_ArgFunc : forall f, wfFunctionExpr f -> wfFunctionExprArg (spec.ArgFunc f)
| wf_ArgLogicalOr : forall e, wfLogicalOr e -> wfFunctionExprArg (spec.ArgLogicalOr e)
with wfFunctionExpr : spec.FunctionExpr -> Prop :=
| wf_Func : forall name fn args,
    GetFunction name = Some fn -> Validate fn args = None ->
    Forall wfFunctionExprArg args ->
    wfFunctionExpr (spec.Func name (ResultType fn) args).

End WellFormed.

Definition wfSliceArgs (args : sliceArgs) : Prop :=
  let '(a0, a1, a2) := args in
  optInPathRange a0 /\ optInPathRange a1 /\ optInPathRange a2.

Definition wfLogicalAnd {host : RegexpHost} (la : list spec.BasicExpr) : Prop :=
  la <> [] /\ Forall wfBasicExpr la.

(** [WF n]: what every parsing function returns at the fuel [n] is well
    formed, given that what it was handed is. *)
Section WellFormedParsers.
Context {host : RegexpHost} {L : Lexer}.

Record WF (n : nat) : Prop := {
  wf_parseQuery : forall root segs lex q lex',
    Forall wfSegment segs ->
    parseQuery n root segs lex = POk q lex' ->
    exists segs', q = spec.Query root segs' /\ Forall wfSegment segs';
  wf_parseDescendant : forall lex seg lex',
    parseDescendant n lex = POk seg lex' -> wfSegment seg;
  wf_parseSelectors : forall sels lex res lex',
    Forall wfSelector sels ->
    parseSelectors n sels lex = POk res lex' ->
    res <> [] /\ Forall wfSelector res;
  wf_parseFilter : forall lex sel lex',
    parseFilter n lex = POk sel lex' -> wfSelector sel;
  wf_parseLogicalOrExpr : forall lex lo lex',
    parseLogicalOrExpr n lex = POk lo lex' -> wfLogicalOr lo;
  wf_parseLogicalOrExpr_loop : forall ands lex lo lex',
    wfLogicalOr ands ->
    parseLogicalOrExpr_loop n ands lex = POk lo lex' -> wfLogicalOr lo;
  wf_parseLogicalAndExpr : forall lex la lex',
    parseLogicalAndExpr n lex = POk la lex' -> wfLogicalAnd la;
  wf_parseLogicalAndExpr_loop : forall ors lex la lex',
    wfLogicalAnd ors ->
    parseLogicalAndExpr_loop n ors lex = POk la lex' -> wfLogicalAnd la;
  wf_parseBasicExpr : forall lex e lex',
    parseBasicExpr n lex = POk e lex' -> wfBasicExpr e;
  wf_parseFunctionFilterExpr : forall ident lex e lex',
    parseFunctionFilterExpr n ident lex = POk e lex' -> wfBasicExpr e;
  wf_parseNotExistsExpr : forall t lex e lex',
    parseNotExistsExpr n t lex = POk e lex' -> wfBasicExpr e;
  wf_parseFilterQuery : forall t lex q lex',
    parseFilterQuery n t lex = POk q lex' -> wfQuery q;
  wf_parseInnerParenExpr : forall lex lo lex',
    parseInnerParenExpr n lex = POk lo lex' -> wfLogicalOr lo;
  wf_parseParenExpr : forall lex e lex',
    parseParenExpr n lex = POk e lex' -> wfBasicExpr e;
  wf_parseNotParenExpr : forall lex e lex',
    parseNotParenExpr n lex = POk e lex' -> wfBasicExpr e;
  wf_parseFunction : forall t lex f lex',
    parseFunction n t lex = POk f lex' -> wfFunctionExpr f;
  wf_parseFunctionArgs : forall res lex res' lex',
    Forall wfFunctionExprArg res ->
    parseFunctionArgs n res lex = POk res' lex' -> Forall wfFunctionExprArg res';
  wf_parseComparableExpr : forall left lex e lex',
    wfCompVal left ->
    parseComparableExpr n left lex = POk e lex' -> wfBasicExpr e;
  wf_parseComparableVal : forall t lex v lex',
    parseComparableVal n t lex = POk v lex' -> wfCompVal v
}.

End WellFormedParsers.

(** *** Parse errors *)


Section ParserErrors.
Context {host : RegexpHost} {L : Lexer}.


End ParserErrors.

(* ================================================================== *)
(** * Properties *)

Unset Implicit Arguments.

(** ** The [Go] monad and the loops *)

Lemma bind_ret_r {A : Type} (m : Go A) : bind m Ret = m.
Proof. destruct m; reflexivity. Qed.

Lemma appendEach_app {A B : Type} (f : A -> Go (list B)) (l1 l2 : list A) :
  appendEach f (l1 ++ l2) =
  (r1 <- appendEach f l1 ;; r2 <- appendEach f l2 ;; Ret (r1 ++ r2)).
Proof.
  induction l1 as [| x l1 IH]; simpl.
  - rewrite bind_ret_r. reflexivity.
  - destruct (f x) as [r | msg]; simpl; [| reflexivity].
    rewrite IH.
    destruct (appendEach f l1) as [r1 | msg]; simpl; [| reflexivity].
    destruct (appendEach f l2) as [r2 | msg]; simpl; [| reflexivity].
    rewrite app_assoc. reflexivity.
Qed.


Lemma appendEach_map {A B C : Type} (f : B -> Go (list C)) (g : A -> B) (l : list A) :
  appendEach f (map g l) = appendEach (fun x => f (g x)) l.
Proof.
  induction l as [| x l IH]; simpl; [reflexivity |].
  rewrite IH. reflexivity.
Qed.

Lemma appendEach_ext {A B : Type} (f g : A -> Go (list B)) (l : list A) :
  Forall (fun x => f x = g x) l -> appendEach f l = appendEach g l.
Proof.
  induction 1 as [| x l Hx _ IH]; simpl; [reflexivity |].
  rewrite Hx, IH. reflexivity.
Qed.

(** ** Convertibility *)

(** C5. The convertibility of an argument kind to a declared type is the
    table of the specification: a literal and a value convert to Value
    only, a singular query to all three types, a node list to Logical and
    Nodes but not to Value, and a logical to Logical only. *)
Theorem convertsTo_table (ft : FuncType) (pv : PathType) :
  convertsTo ft pv =
  match ft, pv with
  | FuncLiteral, PathValue => true
  | FuncLiteral, PathLogical => false
  | FuncLiteral, PathNodes => false
  | FuncSingularQuery, PathValue => true
  | FuncSingularQuery, PathLogical => true
  | FuncSingularQuery, PathNodes => true
  | FuncValue, PathValue => true
  | FuncValue, PathLogical => false
  | FuncValue, PathNodes => false
  | FuncNodeList, PathValue => false
  | FuncNodeList, PathLogical => true
  | FuncNodeList, PathNodes => true
  | FuncLogical, PathValue => false
  | FuncLogical, PathLogical => true
  | FuncLogical, PathNodes => false
  end.
Proof. destruct ft, pv; reflexivity. Qed.


(** ** [match] and [search] *)

Section MatchSearch.
Context {host : RegexpHost}.

(** What [match] computes when both operands are present. *)
Lemma matchFunc_values (v r : ValueType) (rest : list JSONPathValue) :
  matchFunc (PVValue v :: PVValue r :: rest) =
  Ret (PVLogical
         match any v, any r with
         | JString s, JString pat =>
             match compileRegex ("\A" +++ pat +++ "\z") with
             | Some rc => logicalFrom (MatchString rc s)
             | None => LogicalFalse
             end
         | _, _ => LogicalFalse
         end).
Proof.
  unfold matchFunc; simpl.
  destruct (any v); try reflexivity; simpl.
  destruct (any r); try reflexivity.
  destruct (compileRegex _); reflexivity.
Qed.

(** What [search] computes when both operands are present. *)
Lemma searchFunc_values (v r : ValueType) (rest : list JSONPathValue) :
  searchFunc (PVValue v :: PVValue r :: rest) =
  Ret (PVLogical
         match any v, any r with
         | JString s, JString pat =>
             match compileRegex pat with
             | Some rc => logicalFrom (MatchString rc s)
             | None => LogicalFalse
             end
         | _, _ => LogicalFalse
         end).
Proof.
  unfold searchFunc; simpl.
  destruct (any v); try reflexivity; simpl.
  destruct (any r); try reflexivity.
  destruct (compileRegex _); reflexivity.
Qed.

(** An operand that is present and is not a string gives false: the
    first operand whatever the second is, the second when the first is a
    string. *)
Lemma matchFunc_not_string (v : ValueType) (jv : list JSONPathValue) :
  (forall s, any v <> JString s) ->
  matchFunc (PVValue v :: jv) = Ret (PVLogical LogicalFalse) /\
  searchFunc (PVValue v :: jv) = Ret (PVLogical LogicalFalse).
Proof.
  intros H. unfold matchFunc, searchFunc; simpl.
  destruct (any v); try (split; reflexivity).
  exfalso. eapply H. reflexivity.
Qed.

(** C1. Where the specification has [match] and [search] return false for an
    operand that is nothing, the code panics.  With nothing as the first
    operand, or as the second operand after a string, both functions
    dereference the nil pointer that [newValueTypeFrom] returns; so does
    the filter [match(@.x, "a")] on an object without the member [x]. *)
Theorem matchFunc_nothing_panics :
  let nilDeref :=
    "runtime error: invalid memory address or nil pointer dereference" in
  (forall pat rest,
      matchFunc (PVNil :: pat :: rest) = Panic nilDeref /\
      searchFunc (PVNil :: pat :: rest) = Panic nilDeref) /\
  (forall s rest,
      matchFunc (strValue s :: PVNil :: rest) = Panic nilDeref /\
      searchFunc (strValue s :: PVNil :: rest) = Panic nilDeref) /\
  (forall root,
      option_map
        (fun fe => FunctionExpr_testFilter fe (JObject [("y", JInt 1)]) root)
        matchCall
      = Some (Panic nilDeref)).
Proof.
  cbv zeta. repeat split; reflexivity.
Qed.

End MatchSearch.

(** The pattern [a.b] matches [axb], but neither a string with a line
    feed in the middle nor [ayyb]. *)
Example match_dot :
  matchFunc (host := HostModel.host) [strValue "axb"; strValue "a.b"]
  = Ret (PVLogical LogicalTrue) /\
  matchFunc (host := HostModel.host)
    [strValue (String "a" (String (ascii_of_nat 10) "b")); strValue "a.b"]
  = Ret (PVLogical LogicalFalse) /\
  matchFunc (host := HostModel.host) [strValue "ayyb"; strValue "a.b"]
  = Ret (PVLogical LogicalFalse).
Proof. repeat split; vm_compute; reflexivity. Qed.

(** C4. [match] is not anchored at both ends when the pattern has an
    alternation at top level: the code compiles [\Aa|b\z], whose first
    branch is open at the end and whose second is open at the start.  On
    the string [ab] and the pattern [a|b] it answers true, and the
    pattern does not match the whole of [ab]; likewise on [xb]. *)
Theorem matchFunc_alternation_unanchored :
  matchFunc (host := HostModel.host) [strValue "ab"; strValue "a|b"]
  = Ret (PVLogical LogicalTrue) /\
  fullMatch "a|b" "ab" = Some false /\
  matchFunc (host := HostModel.host) [strValue "xb"; strValue "a|b"]
  = Ret (PVLogical LogicalTrue) /\
  fullMatch "a|b" "xb" = Some false /\
  syntax_Parse (RegexpHost := HostModel.host) ("\A" +++ "a|b" +++ "\z")
  = Some (Re OpAlternate
            [Re OpConcat [Re OpBeginText [] []; Re OpLiteral [] [97]] [];
             Re OpConcat [Re OpLiteral [] [98]; Re OpEndText [] []] []] []).
Proof. repeat split; vm_compute; reflexivity. Qed.


(** ** Logical expressions *)

Lemma Filter_Select_false (f : LogicalOrExpr) (rootNode : JSON) (l : list JSON) :
  (forall v, LogicalOrExpr_testFilter f v rootNode = Ret false) ->
  appendEach
    (fun v => b <- LogicalOrExpr_testFilter f v rootNode ;;
              Ret (if b then [v] else [])) l
  = Ret [].
Proof.
  intros H. induction l as [| v l IH]; simpl; [reflexivity |].
  rewrite H; simpl. rewrite IH. reflexivity.
Qed.

(** C10. A conjunction of no expressions is true and a disjunction of no
    conjunctions is false, on every current node and root; a filter made
    of the empty disjunction selects nothing. *)
Theorem empty_logical_identities (current root : JSON) :
  LogicalAndExpr_testFilter [] current root = Ret true /\
  LogicalOrExpr_testFilter [] current root = Ret false /\
  Select (Filter []) current root = Ret [].
Proof.
  repeat split.
  unfold Filter, Select, Filter_Select.
  apply Filter_Select_false. reflexivity.
Qed.

(** [$[?@.a]] on [[{"a":1},{"a":2,"b":3},{"b":4}]] keeps the first two
    elements. *)
Example filter_existence :
  let root :=
    JArray [JObject [("a", JInt 1)];
            JObject [("a", JInt 2); ("b", JInt 3)];
            JObject [("b", JInt 4)]] in
  Query_Select
    (mkQuery true
       [Child [Filter [[ExistExpr (mkQuery false [Child [Name "a"]])]]]])
    root root
  = Ret [JObject [("a", JInt 1)]; JObject [("a", JInt 2); ("b", JInt 3)]].
Proof. reflexivity. Qed.

(** [$[?match(@, "a.b")]] on the strings [axb], [a], line feed, [b], and
    [ayyb] keeps the first: the dot matches no line feed. *)
Example filter_match_dot :
  option_map
    (fun sel =>
       Select sel
         (JArray [JString "axb";
                  JString (String "a" (String (ascii_of_nat 10) "b"));
                  JString "ayyb"]) JNull)
    (matchDotFilter (host := HostModel.host))
  = Some (Ret [JString "axb"]).
Proof. vm_compute. reflexivity. Qed.

(** ** Function expressions as filters *)

Lemma ValueType_testFilter_Truthy (vt : ValueType) :
  ValueType_testFilter vt = true <-> Truthy (any vt).
Proof.
  unfold ValueType_testFilter. destruct (any vt) as [| b | i | f | s | val | val].
  - split; [discriminate | inversion 1].
  - destruct b; split; try discriminate; try constructor. inversion 1.
  - split.
    + intros H. constructor. intros ->. discriminate.
    + inversion 1; subst. apply negb_true_iff, Z.eqb_neq. assumption.
  - split.
    + intros H. constructor. apply negb_true_iff. assumption.
    + inversion 1; subst. apply negb_true_iff. assumption.
  - split; [constructor | reflexivity].
  - split; [constructor | reflexivity].
  - split; [constructor | reflexivity].
Qed.

(** C9, read with empty collections as falsy, fails: [value(@)] on the
    empty array (or the empty object) returns it as a value, which that
    reading calls falsy, and the filter is true. *)
Lemma empty_array_value_truthy :
  FunctionExpr_execute valueCall (JArray []) JNull
  = Ret (PVValue (mkValueType (JArray []))) /\
  truthyUnlessEmpty (JArray []) = false /\
  FunctionExpr_testFilter valueCall (JArray []) JNull = Ret true /\
  FunctionExpr_execute valueCall (JObject []) JNull
  = Ret (PVValue (mkValueType (JObject []))) /\
  truthyUnlessEmpty (JObject []) = false /\
  FunctionExpr_testFilter valueCall (JObject []) JNull = Ret true.
Proof. repeat split. Qed.

(** C9, amended.  A function call used as a filter is true exactly when
    its result is a non-empty node list, or the logical true, or a value
    that is truthy, where null, false and the zeros are falsy and every
    other value is truthy: the non-zero numbers, true, every string, and
    every array and object, empty or not.  The filter returns whenever
    the call does. *)
Theorem FunctionExpr_testFilter_truthy
  (fe : FunctionExpr FunctionExprArg) (current root : JSON) :
  (FunctionExpr_testFilter fe current root = Ret true <->
   (exists n, FunctionExpr_execute fe current root = Ret (PVNodes n) /\ n <> [])
   \/ FunctionExpr_execute fe current root = Ret (PVLogical LogicalTrue)
   \/ (exists v, FunctionExpr_execute fe current root = Ret (PVValue v)
                 /\ Truthy (any v))) /\
  (forall res, FunctionExpr_execute fe current root = Ret res ->
               exists b, FunctionExpr_testFilter fe current root = Ret b) /\
  (forall arr obj, Truthy (JArray arr) /\ Truthy (JObject obj)).
Proof.
  unfold FunctionExpr_testFilter.
  destruct (FunctionExpr_execute fe current root) as [res | msg]; simpl.
  - repeat split.
    + destruct res as [| n | l | v]; intros H.
      * discriminate.
      * left. exists n. split; [reflexivity |].
        destruct n; [discriminate | discriminate].
      * right; left. destruct l; [discriminate | reflexivity].
      * right; right. exists v. split; [reflexivity |].
        apply ValueType_testFilter_Truthy. congruence.
    + intros [(n & E & Hn) | [E | (v & E & Hv)]]; inversion E; subst.
      * destruct n; [congruence | reflexivity].
      * reflexivity.
      * f_equal. apply ValueType_testFilter_Truthy. assumption.
    + intros res' _. destruct res; eexists; reflexivity.
    + constructor.
    + constructor.
  - repeat split.
    + discriminate.
    + intros [(n & E & _) | [E | (v & E & _)]]; discriminate.
    + discriminate.
    + constructor.
    + constructor.
Qed.


(** The theorem at [value(@)] on the empty array. *)
Lemma FunctionExpr_testFilter_truthy_witness :
  FunctionExpr_execute valueCall (JArray []) JNull
  = Ret (PVValue (mkValueType (JArray []))) /\
  exists b, FunctionExpr_testFilter valueCall (JArray []) JNull = Ret b.
Proof.
  split; [reflexivity |].
  destruct (FunctionExpr_testFilter_truthy valueCall (JArray []) JNull)
    as (_ & H & _).
  exact (H _ eq_refl).
Defined.

(** ** Segments *)

(** Induction on a value from its members. *)
Lemma JSON_by_members (P : JSON -> Prop) :
  (forall v, Forall P (members v) -> P v) -> forall v, P v.
Proof.
  intros H. induction v using JSON_members_ind; apply H; simpl; auto.
  apply Forall_map. assumption.
Qed.


(** [Select] on a segment is the selectors at the node, then, for a
    descendant segment, [descend]. *)
Lemma Segment_Select_unfold (s : Segment) (current root : JSON) :
  Segment_Select s current root =
  (ret <- appendEach (fun sel => Select sel current root) (selectors s) ;;
   if descendant s then d <- descend s current root ;; Ret (ret ++ d)
   else Ret ret).
Proof. destruct current; reflexivity. Qed.

Lemma descend_members (s : Segment) (current root : JSON) :
  descend s current root =
  appendEach (fun v => Segment_Select s v root) (members current).
Proof.
  destruct current; simpl; try reflexivity.
  rewrite appendEach_map. apply appendEach_ext.
  apply Forall_forall. intros [k v] _. reflexivity.
Qed.


(** A child segment is the selectors at the node and nothing more. *)
Lemma Child_Select (sel : list Selector) (current root : JSON) :
  Segment_Select (Child sel) current root =
  appendEach (fun s => Select s current root) sel.
Proof.
  rewrite Segment_Select_unfold. simpl. apply bind_ret_r.
Qed.

(** [$..q] on [{"o": {"p": {"q": 42}}}] selects 42. *)
Example descendant_q :
  Segment_Select (Descendant [Name "q"])
    (JObject [("o", JObject [("p", JObject [("q", JInt 42)])])]) JNull
  = Ret [JInt 42].
Proof. reflexivity. Qed.


(** ** Singular queries *)

(** A name or an index selects the value it leads to, or nothing. *)
Lemma in_range_negb (j n : Z) :
  (0 <=? j) && (j <? n) = negb ((j <? 0) || (n <=? j)).
Proof.
  destruct (Z.leb_spec 0 j), (Z.ltb_spec j n), (Z.ltb_spec j 0), (Z.leb_spec n j);
    simpl; try reflexivity; lia.
Qed.

Lemma toSelector_Select (s : SingularSelector) (v root : JSON) :
  Select (toSelector s) v root =
  Ret match stepTo s v with
      | Some x => [x]
      | None => []
      end.
Proof.
  destruct s as [k | i]; simpl.
  - unfold Name_Select. destruct v as [| b | z | f | t | arr | obj]; try reflexivity.
    destruct (getKey k obj); reflexivity.
  - unfold Index_Select. destruct v as [| b | z | f | t | arr | obj]; try reflexivity.
    assert (Ei : (i >=? 0) = negb (i <? 0)).
    { rewrite Z.geb_leb. destruct (Z.leb_spec 0 i), (Z.ltb_spec i 0);
        simpl; try reflexivity; lia. }
    rewrite Ei. destruct (i <? 0); simpl; rewrite in_range_negb.
    + destruct ((len arr + i <? 0) || (len arr <=? len arr + i)); simpl;
        [reflexivity |].
      destruct (nth_error arr (Z.to_nat (len arr + i))); reflexivity.
    + destruct ((i <? 0) || (len arr <=? i)); simpl; [reflexivity |].
      destruct (nth_error arr (Z.to_nat i)); reflexivity.
Qed.

Lemma toSelector_Select_empty (s : SingularSelector) (v root : JSON) :
  Select (toSelector s) v root = Ret [] <-> stepTo s v = None.
Proof.
  rewrite toSelector_Select. destruct (stepTo s v); split; congruence.
Qed.

Lemma singularQuery_walk_reach (sels : list SingularSelector) (v : JSON) :
  singularQuery_walk (map toSelector sels) v =
  Ret match reach sels v with
      | Some x => PVValue (mkValueType x)
      | None => PVNil
      end.
Proof.
  revert v. induction sels as [| s sels IH]; intros v; simpl; [reflexivity |].
  rewrite toSelector_Select. simpl.
  destruct (stepTo s v); [apply IH | reflexivity].
Qed.

(** The chain stops exactly where a selector leads nowhere. *)
Lemma reach_None (sels : list SingularSelector) (v : JSON) :
  reach sels v = None <->
  exists pre s post x,
    sels = pre ++ s :: post /\ reach pre v = Some x /\ stepTo s x = None.
Proof.
  revert v. induction sels as [| s sels IH]; intros v; simpl.
  - split; [discriminate |].
    intros (pre & s & post & x & E & _). destruct pre; discriminate.
  - destruct (stepTo s v) as [v' |] eqn:Es.
    + rewrite IH. split.
      * intros (pre & s' & post & x & E & Hr & Hs).
        exists (s :: pre), s', post, x. subst. simpl. rewrite Es. auto.
      * intros (pre & s' & post & x & E & Hr & Hs).
        destruct pre as [| p pre]; simpl in *.
        -- inversion E; subst. inversion Hr; subst. congruence.
        -- inversion E; subst. rewrite Es in Hr.
           exists pre, s', post, x. auto.
    + split; [| reflexivity].
      intros _. exists [], s, sels, v. auto.
Qed.

(** C8. A singular query, a chain of names and indexes from the root or
    from the current node, evaluates to nothing exactly when some
    selector of the chain selects no node from the value reached before
    it, and otherwise to the value the chain reaches; seen as a node
    list its result has at most one node. *)
Theorem singularQuery_execute_reach
  (rel : bool) (sels : list SingularSelector) (current root : JSON) :
  let sq := mkSingularQuery rel (map toSelector sels) in
  let target := if rel then current else root in
  (singularQuery_execute sq current root = Ret PVNil <->
   exists pre s post v,
     sels = pre ++ s :: post /\ reach pre target = Some v /\
     Select (toSelector s) v JNull = Ret []) /\
  (forall v, singularQuery_execute sq current root = Ret (PVValue (mkValueType v))
             <-> reach sels target = Some v) /\
  (exists res nodes,
      singularQuery_execute sq current root = Ret res /\
      newNodesTypeFrom res = Ret nodes /\ len nodes <= 1).
Proof.
  intros sq target.
  assert (E : singularQuery_execute sq current root =
              Ret match reach sels target with
                  | Some x => PVValue (mkValueType x)
                  | None => PVNil
                  end).
  { unfold singularQuery_execute, sq. simpl. apply singularQuery_walk_reach. }
  rewrite E. repeat split.
  - intros H. destruct (reach sels target) eqn:Er; [discriminate |].
    apply reach_None in Er. destruct Er as (pre & s & post & x & ? & ? & Hs).
    exists pre, s, post, x. rewrite toSelector_Select_empty. auto.
  - intros (pre & s & post & x & ? & ? & Hs).
    rewrite toSelector_Select_empty in Hs.
    assert (Er : reach sels target = None).
    { apply reach_None. exists pre, s, post, x. auto. }
    rewrite Er. reflexivity.
  - intros H. destruct (reach sels target); congruence.
  - intros ->. reflexivity.
  - destruct (reach sels target) as [x |].
    + exists (PVValue (mkValueType x)), [x]. repeat split. unfold len; simpl. lia.
    + exists PVNil, []. repeat split. unfold len; simpl. lia.
Qed.

(** [$.x.y] on the root of the test of the comparison operators. *)
Example singularQuery_xy :
  singularQuery_execute (mkSingularQuery false [Name "x"; Index (-1)]) JNull
    (JObject [("x", JArray [JInt 1; JInt 42]); ("y", JInt 43)])
  = Ret (PVValue (mkValueType (JInt 42))) /\
  singularQuery_execute (mkSingularQuery true [Name "z"; Index 0])
    (JObject [("x", JInt 42)]) JNull
  = Ret PVNil.
Proof. split; reflexivity. Qed.


(** ** Slices *)

Lemma len_nonneg {A : Type} (l : list A) : 0 <= len l.
Proof. unfold len. lia. Qed.

Lemma clamp_range (x lo hi : Z) : lo <= hi -> lo <= clamp x lo hi <= hi.
Proof. unfold clamp. lia. Qed.

Lemma indexZ_in_range {A : Type} (l : list A) (i : Z) :
  0 <= i < len l ->
  exists x, indexZ l i = Ret x /\ nth_error l (Z.to_nat i) = Some x.
Proof.
  intros H. unfold indexZ, index, len in *.
  destruct (Z.ltb_spec i 0); [lia |].
  destruct (nth_error l (Z.to_nat i)) as [x |] eqn:E.
  - exists x. auto.
  - apply nth_error_None in E. lia.
Qed.

(** The upward loop inside an array: it returns, with the elements the
    iteration takes, once the fuel covers the distance to [upper]. *)
Lemma sliceUp_upFrom (json : list JSON) (upper step : Z) :
  1 <= step -> upper <= len json ->
  forall (fuel : nat) (i : Z),
    0 <= i -> upper - i <= Z.of_nat fuel ->
    exists l, sliceUp fuel json i upper step = Ret l /\ upFrom json upper step i l.
Proof.
  intros Hs Hu. induction fuel as [| fuel IH]; intros i Hi Hf; simpl.
  - exists []. split; [reflexivity |]. constructor. lia.
  - destruct (Z.ltb_spec i upper) as [Hlt | Hge].
    + destruct (indexZ_in_range json i) as (x & Ex & En); [lia |].
      destruct (IH (i + step)) as (l & El & Hl); [lia | lia |].
      exists (x :: l). rewrite Ex; simpl. rewrite El; simpl.
      split; [reflexivity |]. constructor; assumption || lia.
    + exists []. split; [reflexivity |]. constructor. lia.
Qed.

Lemma sliceDown_downFrom (json : list JSON) (lower step : Z) :
  step <= -1 -> -1 <= lower ->
  forall (fuel : nat) (i : Z),
    i < len json -> i - lower <= Z.of_nat fuel ->
    exists l, sliceDown fuel json i lower step = Ret l /\ downFrom json lower step i l.
Proof.
  intros Hs Hl. induction fuel as [| fuel IH]; intros i Hi Hf; simpl.
  - exists []. split; [reflexivity |]. constructor. lia.
  - destruct (Z.ltb_spec lower i) as [Hlt | Hge].
    + destruct (indexZ_in_range json i) as (x & Ex & En); [lia |].
      destruct (IH (i + step)) as (l & El & Hd); [lia | lia |].
      exists (x :: l). rewrite Ex; simpl. rewrite El; simpl.
      split; [reflexivity |]. constructor; assumption || lia.
    + exists []. split; [reflexivity |]. constructor. lia.
Qed.

(** More fuel than the distance changes nothing. *)
Lemma sliceUp_fuel (json : list JSON) (upper step : Z) (fuel extra : nat) (i : Z) :
  1 <= step -> upper - i <= Z.of_nat fuel ->
  sliceUp (fuel + extra) json i upper step = sliceUp fuel json i upper step.
Proof.
  intros Hs. revert i. induction fuel as [| fuel IH]; intros i Hf; simpl.
  - destruct extra; simpl; [reflexivity |].
    destruct (Z.ltb_spec i upper); [lia | reflexivity].
  - destruct (i <? upper); [| reflexivity].
    rewrite IH by lia. reflexivity.
Qed.

Lemma sliceDown_fuel (json : list JSON) (lower step : Z) (fuel extra : nat) (i : Z) :
  step <= -1 -> i - lower <= Z.of_nat fuel ->
  sliceDown (fuel + extra) json i lower step = sliceDown fuel json i lower step.
Proof.
  intros Hs. revert i. induction fuel as [| fuel IH]; intros i Hf; simpl.
  - destruct extra; simpl; [reflexivity |].
    destruct (Z.ltb_spec lower i); [lia | reflexivity].
  - destruct (lower <? i); [| reflexivity].
    rewrite IH by lia. reflexivity.
Qed.

Lemma firstn_snoc {A : Type} (l : list A) (k : nat) (x : A) :
  nth_error l k = Some x -> firstn (S k) l = firstn k l ++ [x].
Proof.
  revert k. induction l as [| a l IH]; intros [| k] H; simpl in *; try discriminate.
  - inversion H. reflexivity.
  - f_equal. apply IH. assumption.
Qed.

(** Downward by one from [k - 1] to the start: the first [k] elements in
    reverse. *)
Lemma sliceDown_rev (json : list JSON) (k : nat) :
  (k <= List.length json)%nat ->
  sliceDown k json (Z.of_nat k - 1) (-1) (-1) = Ret (rev (firstn k json)).
Proof.
  induction k as [| k IH]; intros Hk; [reflexivity |].
  cbn [sliceDown].
  destruct (Z.ltb_spec (-1) (Z.of_nat (S k) - 1)); [| lia].
  destruct (indexZ_in_range json (Z.of_nat (S k) - 1)) as (x & Ex & En);
    [unfold len; lia |].
  rewrite Ex; cbn [bind].
  replace (Z.of_nat (S k) - 1 + -1) with (Z.of_nat k - 1) by lia.
  rewrite IH by lia. cbn [bind].
  replace (Z.to_nat (Z.of_nat (S k) - 1)) with k in En by lia.
  rewrite (firstn_snoc _ _ _ En), rev_app_distr. reflexivity.
Qed.

(** C2. On an array of length [n]: a slice of step 0 selects nothing;
    an endpoint [x] is normalized to [x + n] when it is negative; for a
    positive step the defaults are 0 and [n], the bounds are clamped to
    the interval from 0 to [n], and the selection takes [json[i]] from
    the lower bound upward while [i] is below the upper bound; for a
    negative step the defaults are [n - 1] and -1, the bounds are
    clamped to the interval from -1 to [n - 1], and the selection goes
    from the upper bound downward while [i] is above the lower bound.
    With all defaults and step -1 the bounds are -1 and [n - 1] and the
    selection is the array reversed. *)
Theorem Slice_bounds_and_selection
  (json : list JSON) (lo hi : option Z) (k : Z) (root : JSON) :
  let n := len json in
  let s := mkSlice lo hi k in
  (k = 0 -> Slice_Select s (JArray json) root = Ret []) /\
  (forall x d, normalizeOr (Some x) n d = (if x <? 0 then x + n else x) /\
               normalizeOr None n d = d) /\
  (0 < k ->
   bounds s n = (clamp (normalizeOr lo n 0) 0 n, clamp (normalizeOr hi n n) 0 n) /\
   0 <= fst (bounds s n) <= n /\ 0 <= snd (bounds s n) <= n /\
   exists l, Slice_Select s (JArray json) root = Ret l /\
             upFrom json (snd (bounds s n)) k (fst (bounds s n)) l) /\
  (k < 0 ->
   bounds s n = (clamp (normalizeOr hi n (-1)) (-1) (n - 1),
                 clamp (normalizeOr lo n (n - 1)) (-1) (n - 1)) /\
   -1 <= fst (bounds s n) <= n - 1 /\ -1 <= snd (bounds s n) <= n - 1 /\
   exists l, Slice_Select s (JArray json) root = Ret l /\
             downFrom json (fst (bounds s n)) k (snd (bounds s n)) l) /\
  bounds (Slice None None (Some (-1))) n = (-1, n - 1) /\
  Slice_Select (Slice None None (Some (-1))) (JArray json) root = Ret (rev json).
Proof.
  intros n s. pose proof (len_nonneg json) as Hn. fold n in Hn.
  split; [| split; [| split; [| split; [| split]]]].
  - intros ->. reflexivity.
  - intros x d. split; reflexivity.
  - intros Hs.
    assert (Eb : bounds s n =
                 (clamp (normalizeOr lo n 0) 0 n, clamp (normalizeOr hi n n) 0 n)).
    { unfold bounds, s; simpl. destruct (Z.gtb_spec k 0); [reflexivity | lia]. }
    rewrite Eb; simpl fst; simpl snd.
    split; [reflexivity |].
    split; [apply clamp_range; lia |].
    split; [apply clamp_range; lia |].
    unfold Slice_Select, extract. fold n. rewrite Eb. change (step s) with k.
    destruct (Z.gtb_spec k 0); [| lia].
    pose proof (clamp_range (normalizeOr lo n 0) 0 n).
    pose proof (clamp_range (normalizeOr hi n n) 0 n).
    apply sliceUp_upFrom; lia.
  - intros Hs.
    assert (Eb : bounds s n =
                 (clamp (normalizeOr hi n (-1)) (-1) (n - 1),
                  clamp (normalizeOr lo n (n - 1)) (-1) (n - 1))).
    { unfold bounds, s; simpl.
      destruct (Z.gtb_spec k 0); [lia |].
      destruct (Z.ltb_spec k 0); [reflexivity | lia]. }
    rewrite Eb; simpl fst; simpl snd.
    split; [reflexivity |].
    split; [apply clamp_range; lia |].
    split; [apply clamp_range; lia |].
    unfold Slice_Select, extract. fold n. rewrite Eb. change (step s) with k.
    destruct (Z.gtb_spec k 0); [lia |].
    destruct (Z.ltb_spec k 0); [| lia].
    pose proof (clamp_range (normalizeOr hi n (-1)) (-1) (n - 1)).
    pose proof (clamp_range (normalizeOr lo n (n - 1)) (-1) (n - 1)).
    apply sliceDown_downFrom; lia.
  - unfold bounds, Slice, clamp; simpl. f_equal; lia.
  - unfold Slice_Select, extract. fold n.
    assert (Eb : bounds (Slice None None (Some (-1))) n = (-1, n - 1)).
    { unfold bounds, Slice, clamp; simpl. f_equal; lia. }
    rewrite Eb. simpl.
    replace (Z.to_nat (n - 1 - -1)) with (List.length json) by (unfold n, len; lia).
    replace (n - 1) with (Z.of_nat (List.length json) - 1) by reflexivity.
    rewrite sliceDown_rev by lia.
    rewrite firstn_all. reflexivity.
Qed.

(** The theorem at the array [[1, 2]] and the slice [::-1]. *)
Lemma Slice_bounds_and_selection_witness :
  -1 < 0 /\
  exists l,
    Slice_Select (mkSlice None None (-1)) (JArray [JInt 1; JInt 2]) JNull = Ret l /\
    downFrom [JInt 1; JInt 2]
      (fst (bounds (mkSlice None None (-1)) 2)) (-1)
      (snd (bounds (mkSlice None None (-1)) 2)) l.
Proof.
  split; [reflexivity |].
  destruct (Slice_bounds_and_selection [JInt 1; JInt 2] None None (-1) JNull)
    as (_ & _ & _ & H & _).
  destruct (H eq_refl) as (_ & _ & _ & Hl). exact Hl.
Defined.

(** The slices of the specification and of [TestSliceBounds] on the
    array of the letters [a] to [g]. *)
Example slice_scenarios :
  let json := map JString ["a"; "b"; "c"; "d"; "e"; "f"; "g"] in
  extract json (Slice (Some 1) (Some 5) (Some 2)) = Ret (map JString ["b"; "d"]) /\
  extract json (Slice (Some 5) (Some 1) (Some (-2))) = Ret (map JString ["f"; "d"]) /\
  extract json (Slice None None (Some (-1))) = Ret (rev json) /\
  extract json (Slice (Some 3) (Some 8) (Some 2)) = Ret (map JString ["d"; "f"]) /\
  extract json (Slice None None (Some 0)) = Ret [] /\
  bounds (Slice None None (Some 0)) 10 = (0, 0) /\
  bounds (Slice (Some 5) (Some 1) (Some (-2))) 4 = (1, 3) /\
  bounds (Slice None None (Some (-1))) 99 = (-1, 98) /\
  bounds (Slice (Some 3) (Some 8) (Some 2)) 3 = (3, 3).
Proof. repeat split; reflexivity. Qed.


(** ** Integers of indexes and slices *)

Lemma digitOf_digitChar (d : digit) : digitOf (digitChar d) = Some (digitVal d).
Proof. destruct d; reflexivity. Qed.

Lemma digitVal_range (d : digit) : 0 <= digitVal d <= 9.
Proof. destruct d; simpl; lia. Qed.

Lemma digitsValue_ge (ds : list digit) (acc : Z) : 0 <= acc -> acc <= digitsValue acc ds.
Proof.
  revert acc. induction ds as [| d ds IH]; intros acc H; simpl; [lia |].
  pose proof (digitVal_range d).
  specialize (IH (acc * 10 + digitVal d)). lia.
Qed.

(** On digits the loop of [ParseUint] computes their value, or reports
    that it leaves 64 bits. *)
Lemma ParseUint_loop_digits (ds : list digit) (n : Z) :
  0 <= n <= maxUint64 ->
  ParseUint_loop (digitsText ds) n =
  if digitsValue n ds <=? maxUint64 then inl (digitsValue n ds) else inr ErrRange.
Proof.
  revert n. induction ds as [| d ds IH]; intros n Hn; simpl.
  - destruct (Z.leb_spec n maxUint64); [reflexivity | lia].
  - rewrite digitOf_digitChar.
    pose proof (digitVal_range d) as Hd.
    pose proof (digitsValue_ge ds (n * 10 + digitVal d)) as Hge.
    change (maxUint64 / 10 + 1) with 1844674407370955162.
    unfold maxUint64 in *.
    destruct (Z.geb_spec n 1844674407370955162).
    + destruct (Z.leb_spec (digitsValue (n * 10 + digitVal d) ds)
                  18446744073709551615); [lia | reflexivity].
    + destruct (Z.gtb_spec (n * 10 + digitVal d) 18446744073709551615).
      * destruct (Z.leb_spec (digitsValue (n * 10 + digitVal d) ds)
                    18446744073709551615); [lia | reflexivity].
      * apply IH. lia.
Qed.

Lemma digitChar_not_sign (d : digit) :
  Ascii.eqb (digitChar d) "+" = false /\ Ascii.eqb (digitChar d) "-" = false.
Proof. destruct d; split; reflexivity. Qed.

(** [ParseInt] on the text of an integer token: the value, or a range
    error when it does not fit 64 bits. *)
Lemma ParseInt_intText (neg : bool) (d : digit) (ds : list digit) :
  ParseInt (intText neg (d :: ds)) =
  let v := intValue neg (d :: ds) in
  if (- 9223372036854775808 <=? v) && (v <? 9223372036854775808)
  then inl v else inr ErrRange.
Proof.
  pose proof (digitsValue_ge (d :: ds) 0 (Z.le_refl 0)) as Hge.
  assert (Eu : ParseUint (digitsText (d :: ds)) =
               if digitsValue 0 (d :: ds) <=? maxUint64
               then inl (digitsValue 0 (d :: ds)) else inr ErrRange).
  { change (ParseUint (digitsText (d :: ds)))
      with (ParseUint_loop (digitsText (d :: ds)) 0).
    apply ParseUint_loop_digits. unfold maxUint64. lia. }
  unfold intValue, intText. cbv zeta.
  set (V := digitsValue 0 (d :: ds)) in *.
  destruct neg.
  - unfold ParseInt. change (Ascii.eqb "-" "+") with false.
    change (Ascii.eqb "-" "-") with true. cbv iota beta.
    rewrite Eu. unfold maxUint64.
    destruct (Z.leb_spec V 18446744073709551615); cbn [negb andb].
    + destruct (Z.gtb_spec V 9223372036854775808),
        (Z.leb_spec (-9223372036854775808) (- V)),
        (Z.ltb_spec (- V) 9223372036854775808); simpl; try reflexivity; lia.
    + destruct (Z.leb_spec (-9223372036854775808) (- V)); simpl;
        [lia | reflexivity].
  - unfold ParseInt. cbn [digitsText].
    destruct (digitChar_not_sign d) as [-> ->]. cbv iota beta.
    change (String (digitChar d) (digitsText ds)) with (digitsText (d :: ds)).
    rewrite Eu. unfold maxUint64.
    destruct (Z.leb_spec V 18446744073709551615); cbn [negb andb].
    + destruct (Z.geb_spec V 9223372036854775808),
        (Z.leb_spec (-9223372036854775808) V),
        (Z.ltb_spec V 9223372036854775808); simpl; try reflexivity; lia.
    + destruct (Z.leb_spec (-9223372036854775808) V),
        (Z.ltb_spec V 9223372036854775808); simpl; try reflexivity; lia.
Qed.

Lemma append_assoc (a b c : string) : (a +++ b) +++ c = a +++ (b +++ c).
Proof. induction a as [| x a IH]; simpl; [reflexivity |]. rewrite IH. reflexivity. Qed.

Lemma pathInt_range_bool (v : Z) :
  (v >? maxVal) || (v <? minVal) = negb ((- (2 ^ 53 - 1) <=? v) && (v <=? 2 ^ 53 - 1)).
Proof.
  unfold maxVal, minVal. change (2 ^ 53) with 9007199254740992.
  destruct (Z.gtb_spec v (9007199254740992 - 1)),
    (Z.ltb_spec v (- 9007199254740992 + 1)),
    (Z.leb_spec (- (9007199254740992 - 1)) v),
    (Z.leb_spec v (9007199254740992 - 1)); simpl; try reflexivity; lia.
Qed.

Lemma int64_range_bool (v : Z) :
  (- 9223372036854775808 <=? v) && (v <? 9223372036854775808) = false ->
  (- (2 ^ 53 - 1) <=? v) && (v <=? 2 ^ 53 - 1) = false.
Proof.
  change (2 ^ 53) with 9007199254740992.
  destruct (Z.leb_spec (- 9223372036854775808) v),
    (Z.ltb_spec v 9223372036854775808),
    (Z.leb_spec (- (9007199254740992 - 1)) v),
    (Z.leb_spec v (9007199254740992 - 1)); simpl; try reflexivity;
    try discriminate; lia.
Qed.

(** C7. An integer token used as an index or as a part of a slice is
    read by [parsePathInt].  The text [-0] is an error, whose message
    names the invalid integer path value and the position of the token
    counted from one; a value outside the interval from [-(2^53 - 1)] to
    [2^53 - 1] is an error; every other integer is accepted with its
    value. *)
Theorem parsePathInt_range (neg : bool) (d : digit) (ds : list digit) (p : Z) :
  let text := intText neg (d :: ds) in
  let v := intValue neg (d :: ds) in
  parsePathInt (mkToken integer text p) =
  if String.eqb text "-0" then
    inr ("jsonpath: invalid integer path value " +++ Quote "-0"
         +++ " at position " +++ itoa (p + 1))
  else if (- (2 ^ 53 - 1) <=? v) && (v <=? 2 ^ 53 - 1) then inl v
  else
    inr ("jsonpath: cannot parse " +++ Quote text
         +++ ", value out of range at position " +++ itoa (p + 1)).
Proof.
  intros text v. unfold parsePathInt. cbn [val].
  destruct (String.eqb_spec text "-0") as [E | _].
  - rewrite E. reflexivity.
  - unfold text. rewrite ParseInt_intText. fold v. cbv zeta.
    destruct ((- 9223372036854775808 <=? v) && (v <? 9223372036854775808)) eqn:E64.
    + rewrite pathInt_range_bool.
      destruct ((- (2 ^ 53 - 1) <=? v) && (v <=? 2 ^ 53 - 1)); [reflexivity |].
      cbn [negb]. unfold makeError, Quote. cbn [pos val].
      rewrite !append_assoc. reflexivity.
    + rewrite (int64_range_bool v E64).
      unfold makeNumErr, makeError, Quote, NumError_Error. cbn [pos val].
      rewrite !append_assoc. reflexivity.
Qed.


(** ** The parser: fuel *)

(** One level of every parsing function, with the calls folded back. *)
Ltac unfold_parsers :=
  cbn [parseSlice parseSingularQuery parseSlice_loop parseSingularQuery_loop
       parseQuery parseDescendant parseSelectors parseFilter
       parseLogicalOrExpr parseLogicalOrExpr_loop parseLogicalAndExpr
       parseLogicalAndExpr_loop parseBasicExpr parseFunctionFilterExpr
       parseNotExistsExpr parseFilterQuery parseInnerParenExpr parseParenExpr
       parseNotParenExpr parseFunction parseFunctionArgs parseComparableExpr
       parseComparableVal];
  fold parseSlice_loop parseSingularQuery_loop
       parseQuery parseDescendant parseSelectors parseFilter
       parseLogicalOrExpr parseLogicalOrExpr_loop parseLogicalAndExpr
       parseLogicalAndExpr_loop parseBasicExpr parseFunctionFilterExpr
       parseNotExistsExpr parseFilterQuery parseInnerParenExpr parseParenExpr
       parseNotParenExpr parseFunction parseFunctionArgs parseComparableExpr
       parseComparableVal.

Ltac unfold_parsers_in H :=
  cbn [parseSlice parseSingularQuery parseSlice_loop parseSingularQuery_loop
       parseQuery parseDescendant parseSelectors parseFilter
       parseLogicalOrExpr parseLogicalOrExpr_loop parseLogicalAndExpr
       parseLogicalAndExpr_loop parseBasicExpr parseFunctionFilterExpr
       parseNotExistsExpr parseFilterQuery parseInnerParenExpr parseParenExpr
       parseNotParenExpr parseFunction parseFunctionArgs parseComparableExpr
       parseComparableVal] in H;
  fold parseSlice_loop parseSingularQuery_loop
       parseQuery parseDescendant parseSelectors parseFilter
       parseLogicalOrExpr parseLogicalOrExpr_loop parseLogicalAndExpr
       parseLogicalAndExpr_loop parseBasicExpr parseFunctionFilterExpr
       parseNotExistsExpr parseFilterQuery parseInnerParenExpr parseParenExpr
       parseNotParenExpr parseFunction parseFunctionArgs parseComparableExpr
       parseComparableVal in H.

Section ParserFuel.
Context {host : RegexpHost} {L : Lexer}.

Lemma leq_refl {A : Type} (r : PResult lexer A) : leq r r.
Proof. right; reflexivity. Qed.

Lemma leq_trans {A : Type} (r1 r2 r3 : PResult lexer A) :
  leq r1 r2 -> leq r2 r3 -> leq r1 r3.
Proof.
  intros [E1 | E1] [E2 | E2]; subst; try (left; reflexivity).
  right; reflexivity.
Qed.

Lemma pbind_leq {A B : Type} (m1 m2 : Parser A) (k1 k2 : A -> Parser B)
  (lex : lexer) :
  leq (m1 lex) (m2 lex) ->
  (forall a lex', leq (k1 a lex') (k2 a lex')) ->
  leq (pbind m1 k1 lex) (pbind m2 k2 lex).
Proof.
  intros [E | E] Hk; unfold pbind.
  - rewrite E. left; reflexivity.
  - rewrite E. destruct (m2 lex); try (right; reflexivity). apply Hk.
Qed.

(** One step through two runs of the same code on different fuel. *)
Ltac mono_step H :=
  cbv beta;
  first
    [ apply leq_refl
    | apply H
    | apply pbind_leq; [ | intros ? ? ]
    | match goal with
      | |- leq ((if ?c then _ else _) _) _ => destruct c
      | |- leq (match ?x with _ => _ end _) _ => destruct x
      end ].

Lemma Mono_S (n m : nat) : Mono n m -> Mono (S n) (S m).
Proof.
  intros H.
  split; intros; unfold_parsers.
  all: repeat mono_step H.
  all: try (unfold parseSlice; repeat mono_step H).
Qed.

Lemma Mono_O (m : nat) : Mono 0 m.
Proof. split; intros; left; reflexivity. Qed.

Lemma Mono_plus (n extra : nat) : Mono n (n + extra).
Proof.
  induction n as [| n IH]; [apply Mono_O |].
  simpl. apply Mono_S. assumption.
Qed.

(** More fuel does not change an outcome that did not run out of it. *)
Lemma Parse_fuel (n extra : nat) (path : string) :
  leq (Parse n path) (Parse (n + extra) path).
Proof.
  unfold Parse. destruct (scan (newLexer path)) as [t lex].
  destruct (isChar (tok t) "$"); [| apply leq_refl].
  apply pbind_leq; [| intros; apply leq_refl].
  apply (Mono_plus n extra).
Qed.

Lemma Parse_POk_fuel (n extra : nat) (path : string) (q : spec.PathQuery)
  (lex : lexer) :
  Parse n path = POk q lex -> Parse (n + extra) path = POk q lex.
Proof.
  intros E. destruct (Parse_fuel n extra path) as [H | H]; congruence.
Qed.

Lemma Parse_PErr_fuel (n extra : nat) (path : string) (err : string) :
  Parse n path = PErr err -> Parse (n + extra) path = PErr err.
Proof.
  intros E. destruct (Parse_fuel n extra path) as [H | H]; congruence.
Qed.

End ParserFuel.


(** ** The parser: function results *)

Section FunctionResults.
Context {host : RegexpHost} {L : Lexer}.

Lemma rune_eqb_eq (a b : rune) : rune_eqb a b = true -> a = b.
Proof.
  destruct a, b; simpl; try discriminate; try reflexivity.
  intros H. apply Ascii.eqb_eq in H. congruence.
Qed.

(** A function call at the head of a basic expression: a logical
    function stands alone, any other must be followed by a comparison
    operator, or the error is the missing comparison. *)
Lemma parseFunctionFilterExpr_discipline
  (fuel : nat) (ident : token) (lex lex1 : lexer) (f : spec.FunctionExpr) :
  parseFunction fuel ident lex = POk f lex1 ->
  parseFunctionFilterExpr (S fuel) ident lex =
  if FuncType_eqb (spec.ResultType f) FuncLogical then POk (spec.FuncExpr f) lex1
  else
    if isCompStart (fst (skipBlankSpace lex1)) then
      parseComparableExpr fuel (spec.CompFunc f) (snd (skipBlankSpace lex1))
    else
      PErr (makeError (fst (scan (snd (skipBlankSpace lex1))))
              "missing comparison to function result").
Proof.
  intros E. unfold_parsers. unfold pbind at 1. rewrite E.
  destruct (FuncType_eqb (spec.ResultType f) FuncLogical); [reflexivity |].
  unfold pbind, skipBlank, scanTok, fail.
  destruct (skipBlankSpace lex1) as [c lex2]. simpl.
  destruct (isCompStart c); [reflexivity |].
  destruct (scan lex2); reflexivity.
Qed.

(** A function call as the right operand of a comparison: a logical
    function is rejected. *)
Lemma parseComparableVal_discipline
  (fuel : nat) (t : token) (lex lex1 : lexer) (f : spec.FunctionExpr) :
  rune_eqb (tok t) identifier = true ->
  isChar (r lex) "(" = true ->
  parseFunction fuel t lex = POk f lex1 ->
  parseComparableVal (S fuel) t lex =
  if FuncType_eqb (spec.ResultType f) FuncLogical
  then PErr (makeError t "cannot compare result of logical function")
  else POk (spec.CompFunc f) lex1.
Proof.
  intros Ht Hr E. apply rune_eqb_eq in Ht.
  unfold_parsers. rewrite Ht. cbn [isLiteralTok isChar rune_eqb orb].
  unfold pbind at 1. unfold curRune. rewrite Hr. cbn [negb].
  unfold pbind. rewrite E.
  destruct (FuncType_eqb (spec.ResultType f) FuncLogical); reflexivity.
Qed.

(** A function call after [!]: it becomes a negated function expression
    whatever the type of its result. *)
Lemma parseBasicExpr_negated_function
  (fuel : nat) (lex lex0 lex1 lex2 lex3 lex4 : lexer) (c0 c : rune)
  (t next : token) (f : spec.FunctionExpr) :
  skipBlankSpace lex = (c0, lex0) ->
  scan lex0 = (t, lex1) ->
  isChar (tok t) "!" = true ->
  skipBlankSpace lex1 = (c, lex2) ->
  isChar c "(" = false ->
  scan lex2 = (next, lex3) ->
  rune_eqb (tok next) identifier = true ->
  parseFunction fuel next lex3 = POk f lex4 ->
  parseBasicExpr (S fuel) lex = POk (spec.NotFuncExpr f) lex4.
Proof.
  intros E0 E1 Ht E2 Hc E3 Hn Ef.
  unfold_parsers. unfold pbind, skipBlank, scanTok.
  rewrite E0, E1, Ht, E2, Hc, E3, Hn, Ef. reflexivity.
Qed.

End FunctionResults.

(** C6. The parser does not enforce the discipline of function results
    on a negated call: [$[?!length(@.a)]] is parsed, into the negation of
    a function whose result is a value and which no comparison follows.
    Without the [!] the same call is the error of the missing
    comparison, and a logical function as the operand of a comparison is
    rejected.  The fuel of the model plays no part: any amount from the
    one given on yields the same outcome. *)
Theorem negated_function_result_unchecked (extra : nat) :
  Parse (L := LexerModel.model) (host := HostModel.host) (11 + extra)
    "$[?!length(@.a)]"
  = POk (spec.Query true
           [spec.Child
              [spec.Filter
                 [[spec.NotFuncExpr
                     (spec.Func "length" FuncValue
                        [spec.ArgSingular
                           (spec.SingularQuery false [spec.Name "a"])])]]]])
      (LexerModel.mkState [] 16)
  /\
  Parse (L := LexerModel.model) (host := HostModel.host) (12 + extra)
    "$[?length(@.a)]"
  = PErr "jsonpath: missing comparison to function result at position 15"
  /\
  Parse (L := LexerModel.model) (host := HostModel.host) (13 + extra)
    "$[?1 == match(@.a, 'x')]"
  = PErr "jsonpath: cannot compare result of logical function at position 9".
Proof.
  split; [| split].
  - apply (@Parse_POk_fuel HostModel.host LexerModel.model). vm_compute. reflexivity.
  - apply (@Parse_PErr_fuel HostModel.host LexerModel.model). vm_compute. reflexivity.
  - apply (@Parse_PErr_fuel HostModel.host LexerModel.model). vm_compute. reflexivity.
Qed.

(** A logical function on the left of a comparison operator is a parse
    error as well: the call is taken as the whole expression and the
    operator is then unexpected. *)
Example logical_function_left_operand (extra : nat) :
  Parse (L := LexerModel.model) (host := HostModel.host) (12 + extra)
    "$[?match(@.a, 'x') == true]"
  = PErr "jsonpath: unexpected '=' at position 20".
Proof. apply (@Parse_PErr_fuel HostModel.host LexerModel.model). vm_compute. reflexivity. Qed.

(** The text [-0] as an index, in a slice and in a singular query, and
    the ends of the interval of indexes. *)
Example parse_path_integers (extra : nat) :
  Parse (L := LexerModel.model) (host := HostModel.host) (2 + extra) "$[-0]"
  = PErr ("jsonpath: invalid integer path value " +++ Quote "-0"
          +++ " at position 3")
  /\
  Parse (L := LexerModel.model) (host := HostModel.host) (5 + extra) "$[1:-0]"
  = PErr ("jsonpath: invalid integer path value " +++ Quote "-0"
          +++ " at position 5")
  /\
  Parse (L := LexerModel.model) (host := HostModel.host) (9 + extra) "$[?1 == @[-0]]"
  = PErr ("jsonpath: invalid integer path value " +++ Quote "-0"
          +++ " at position 11")
  /\
  Parse (L := LexerModel.model) (host := HostModel.host) (4 + extra)
    "$[9007199254740991, -9007199254740991]"
  = POk (spec.Query true
           [spec.Child [spec.Index 9007199254740991;
                        spec.Index (-9007199254740991)]])
      (LexerModel.mkState [] 38)
  /\
  Parse (L := LexerModel.model) (host := HostModel.host) (2 + extra)
    "$[9007199254740992]"
  = PErr ("jsonpath: cannot parse " +++ Quote "9007199254740992"
          +++ ", value out of range at position 3").
Proof.
  split; [| split; [| split; [| split]]].
  - apply (@Parse_PErr_fuel HostModel.host LexerModel.model). vm_compute. reflexivity.
  - apply (@Parse_PErr_fuel HostModel.host LexerModel.model). vm_compute. reflexivity.
  - apply (@Parse_PErr_fuel HostModel.host LexerModel.model). vm_compute. reflexivity.
  - apply (@Parse_POk_fuel HostModel.host LexerModel.model). vm_compute. reflexivity.
  - apply (@Parse_PErr_fuel HostModel.host LexerModel.model). vm_compute. reflexivity.
Qed.


(** ** The parser: filters are not empty *)

Section ParsedFilters.
Context {host : RegexpHost} {L : Lexer}.

Lemma pbind_POk {A B : Type} (m : Parser A) (k : A -> Parser B)
  (lex lex' : lexer) (b : B) :
  pbind m k lex = POk b lex' ->
  exists a lex1, m lex = POk a lex1 /\ k a lex1 = POk b lex'.
Proof.
  unfold pbind. destruct (m lex) as [a lex1 | err |]; try discriminate.
  intros H. exists a, lex1. auto.
Qed.

(** Takes a successful run apart, one step at a time. *)
Ltac run_apart H :=
  repeat match type of H with
         | pbind _ _ _ = POk _ _ =>
             let a := fresh "a" in
             let lex1 := fresh "lex" in
             let E := fresh "E" in
             apply pbind_POk in H; destruct H as (a & lex1 & E & H)
         | (if ?c then _ else _) _ = POk _ _ => destruct c
         | fail _ _ = POk _ _ => discriminate H
         | pret _ _ = POk _ _ => unfold pret in H; inversion H; subst; clear H
         end.

Lemma parseLogicalAndExpr_loop_extends (fuel : nat) :
  forall ors lex la lex',
    parseLogicalAndExpr_loop fuel ors lex = POk la lex' ->
    exists more, la = ors ++ more.
Proof.
  induction fuel as [| fuel IH]; intros ors lex la lex' H; [discriminate |].
  unfold_parsers_in H. run_apart H.
  - exists []. rewrite app_nil_r. reflexivity.
  - apply IH in H. destruct H as (more & ->).
    eexists. rewrite <- app_assoc. reflexivity.
Qed.

Lemma parseLogicalAndExpr_nonempty (fuel : nat) (lex lex' : lexer)
  (la : spec.LogicalAnd) :
  parseLogicalAndExpr fuel lex = POk la lex' -> la <> [].
Proof.
  destruct fuel as [| fuel]; [discriminate |].
  intros H. unfold_parsers_in H. run_apart H.
  apply parseLogicalAndExpr_loop_extends in H. destruct H as (more & ->).
  discriminate.
Qed.

Lemma parseLogicalOrExpr_loop_nonempty (fuel : nat) :
  forall ands lex lo lex',
    parseLogicalOrExpr_loop fuel ands lex = POk lo lex' ->
    ands <> [] -> Forall (fun la => la <> []) ands ->
    lo <> [] /\ Forall (fun la => la <> []) lo.
Proof.
  induction fuel as [| fuel IH]; intros ands lex lo lex' H Hne Hall;
    [discriminate |].
  unfold_parsers_in H. run_apart H.
  - auto.
  - apply IH in H; [assumption | |].
    + destruct ands; discriminate.
    + apply Forall_app. split; [assumption |].
      constructor; [| constructor].
      eapply parseLogicalAndExpr_nonempty. eassumption.
Qed.

(** A filter the parser produced has at least one conjunction, and each
    conjunction at least one expression. *)
Lemma parseLogicalOrExpr_nonempty (fuel : nat) (lex lex' : lexer)
  (lo : spec.LogicalOr) :
  parseLogicalOrExpr fuel lex = POk lo lex' ->
  lo <> [] /\ Forall (fun la => la <> []) lo.
Proof.
  destruct fuel as [| fuel]; [discriminate |].
  intros H. unfold_parsers_in H. run_apart H.
  eapply parseLogicalOrExpr_loop_nonempty; [eassumption | discriminate |].
  constructor; [| constructor].
  eapply parseLogicalAndExpr_nonempty. eassumption.
Qed.

End ParsedFilters.


(** * Further properties

    What the code shows beyond the statements above: the registry, the
    built-in functions and their validators, the order of evaluation of
    logical expressions, segments, singular queries, and the trees and
    the errors of the parser. *)

(** ** The registry *)

Section RegistryFacts.
Context {host : RegexpHost}.
Context {A : Type} {argI : FunctionExprArgI A}.

Lemma lookup_app (name : string) (r1 r2 : list (string * Function A)) :
  lookup name (r1 ++ r2) =
  match lookup name r1 with
  | Some fn => Some fn
  | None => lookup name r2
  end.
Proof.
  induction r1 as [| [k fn] r1 IH]; simpl; [reflexivity |].
  destruct (String.eqb k name); [reflexivity | exact IH].
Qed.

(** X1. [Register] and the lookup of [GetFunction]: after a registration
    that returned, the name is bound to the function and every other
    name is bound as before; registering the same name again panics, and
    so does a nil function.  The registrations of [registerFunctions]
    do not panic and give the five functions of the registry. *)
Theorem Register_lookup (fn : Function A) (reg : list (string * Function A)) :
  (forall reg',
     Register (Some fn) reg = Ret reg' ->
     lookup (FuncName fn) reg' = Some fn
     /\ (forall name, name <> FuncName fn -> lookup name reg' = lookup name reg)
     /\ (forall fn', FuncName fn' = FuncName fn ->
           Register (Some fn') reg' =
           Panic ("jsonpath: Register called twice for function " +++ FuncName fn)))
  /\ (lookup (FuncName fn) reg = None -> exists reg', Register (Some fn) reg = Ret reg')
  /\ Register None reg = Panic "jsonpath: Register function is nil"
  /\ registerFunctions (A := A) = Ret registry.
Proof.
  split; [| split; [| split]].
  - intros reg' H. unfold Register in H.
    destruct (lookup (FuncName fn) reg) eqn:E; [discriminate |].
    inversion H; subst reg'; clear H.
    assert (Hb : lookup (FuncName fn) (reg ++ [(FuncName fn, fn)]) = Some fn).
    { rewrite lookup_app, E. simpl. rewrite String.eqb_refl. reflexivity. }
    split; [exact Hb | split].
    + intros name Hn. rewrite lookup_app. simpl.
      destruct (String.eqb_spec (FuncName fn) name) as [E' | _];
        [symmetry in E'; contradiction |].
      destruct (lookup name reg); reflexivity.
    + intros fn' Hf. unfold Register. rewrite Hf, Hb. reflexivity.
  - intros E. unfold Register. rewrite E. eexists. reflexivity.
  - reflexivity.
  - reflexivity.
Qed.

End RegistryFacts.


(** ** Rewriting the dots of a regular expression *)

Lemma Regexp_by_subs (P : Regexp -> Prop)
  (H : forall op Sub Rune, Forall P Sub -> P (Re op Sub Rune)) :
  forall re, P re.
Proof.
  fix IH 1. intros [op Sub Rune]. apply H.
  induction Sub as [| x Sub IHs]; constructor; [apply IH | exact IHs].
Qed.

(** X2. [replaceDot] leaves no "." node in the tree, does nothing to a
    tree that has none, and so does nothing when applied again. *)
Theorem replaceDot_removes_dots (re : Regexp) :
  hasAnyChar (replaceDot re) = false
  /\ (hasAnyChar re = false -> replaceDot re = re)
  /\ replaceDot (replaceDot re) = replaceDot re.
Proof.
  assert (H1 : forall re, hasAnyChar (replaceDot re) = false).
  { induction re0 as [op Sub Rune IH] using Regexp_by_subs. simpl.
    destruct (Op_eqb op OpAnyChar) eqn:E; [reflexivity |].
    simpl. rewrite E. simpl.
    induction IH as [| x Sub Hx _ IHs]; simpl; [reflexivity |].
    rewrite Hx. exact IHs. }
  assert (H2 : forall re, hasAnyChar re = false -> replaceDot re = re).
  { induction re0 as [op Sub Rune IH] using Regexp_by_subs. simpl.
    intros H. apply orb_false_iff in H. destruct H as [E H]. rewrite E.
    f_equal.
    induction IH as [| x Sub Hx _ IHs]; simpl; [reflexivity |].
    simpl in H. apply orb_false_iff in H. destruct H as [Hx' H].
    rewrite (Hx Hx'), (IHs H). reflexivity. }
  split; [apply H1 | split; [apply H2 |]].
  apply H2, H1.
Qed.

(** ** The built-in functions *)

Section BuiltinFacts.
Context {host : RegexpHost}.
Context {A : Type} {argI : FunctionExprArgI A}.

Lemma RuneCountInString_nonneg (s : string) : 0 <= RuneCountInString s.
Proof.
  induction s as [| c s IH]; simpl; [lia |].
  destruct (Z.land (Z.of_N (N_of_ascii c)) 192 =? 128); lia.
Qed.

Lemma RuneCountInString_le (s : string) :
  RuneCountInString s <= Z.of_nat (String.length s).
Proof.
  induction s as [| c s IH]; [simpl; lia |].
  cbn [RuneCountInString String.length].
  destruct (Z.land (Z.of_N (N_of_ascii c)) 192 =? 128); lia.
Qed.

Lemma lookup_registry (name : string) (fn : Function A) :
  lookup name registry = Some fn ->
  fn = mkFunction "length" FuncValue checkLengthArgs lengthFunc
  \/ fn = mkFunction "count" FuncValue checkCountArgs countFunc
  \/ fn = mkFunction "value" FuncValue checkValueArgs valueFunc
  \/ fn = mkFunction "match" FuncLogical checkMatchArgs matchFunc
  \/ fn = mkFunction "search" FuncLogical checkSearchArgs searchFunc.
Proof.
  unfold registry, lookup.
  repeat match goal with
         | |- (if ?c then _ else _) = _ -> _ => destruct c
         end; intros H; inversion H; auto 6.
Qed.

Lemma lookup_registry_name (name : string) (fn : Function A) :
  lookup name registry = Some fn -> FuncName fn = name.
Proof.
  unfold registry, lookup.
  repeat match goal with
         | |- (if String.eqb ?k ?n then _ else _) = _ -> _ =>
             destruct (String.eqb_spec k n)
         end; intros H; inversion H; subst; reflexivity.
Qed.

Lemma Evaluate_registry_kind (name : string) (fn : Function A)
  (jv : list JSONPathValue) (res : JSONPathValue) :
  lookup name registry = Some fn ->
  Evaluate fn jv = Ret res ->
  hasResultType (ResultType fn) res = true.
Proof.
  intros Hg He. apply lookup_registry in Hg.
  destruct Hg as [-> | [-> | [-> | [-> | ->]]]]; cbn [Evaluate ResultType] in *.
  - unfold lengthFunc in He.
    destruct jv as [| [| n | l | v] rest]; try discriminate;
      simpl in He; [inversion He; reflexivity |].
    destruct (any v); inversion He; reflexivity.
  - unfold countFunc in He.
    destruct jv as [| [| n | l | v] rest]; try discriminate;
      simpl in He; inversion He; reflexivity.
  - unfold valueFunc in He.
    destruct jv as [| [| n | l | v] rest]; try discriminate;
      simpl in He; try (inversion He; reflexivity).
    destruct n as [| x [| y n]]; inversion He; reflexivity.
  - unfold matchFunc in He.
    destruct jv as [| [| n | l | v] rest]; try discriminate. simpl in He.
    destruct (any v); try (inversion He; reflexivity).
    destruct rest as [| [| n | l | v1] rest]; try discriminate. simpl in He.
    destruct (any v1); try (inversion He; reflexivity).
    destruct (compileRegex _); inversion He; reflexivity.
  - unfold searchFunc in He.
    destruct jv as [| [| n | l | v] rest]; try discriminate. simpl in He.
    destruct (any v); try (inversion He; reflexivity).
    destruct rest as [| [| n | l | v1] rest]; try discriminate. simpl in He.
    destruct (any v1); try (inversion He; reflexivity).
    destruct (compileRegex _); inversion He; reflexivity.
Qed.

(** X3. A built-in function that returns, returns a value of its
    declared result type: [length], [count] and [value] a value or
    nothing, [match] and [search] a logical.  This holds for every
    argument list, of any length and of any kinds. *)
Theorem builtin_result_type (name : string) (fn : Function A)
  (jv : list JSONPathValue) (res : JSONPathValue) :
  GetFunction name = Some fn ->
  Evaluate fn jv = Ret res ->
  hasResultType (ResultType fn) res = true.
Proof. apply Evaluate_registry_kind. Qed.

(** X4. The arguments on which the built-in functions return rather than
    panic.  [length] needs a first argument that is a value or nothing;
    [count] and [value] one that is not a logical; [match] and [search]
    a first argument that is a value and, when that value is a string, a
    second argument that is a value as well. *)
Theorem builtin_domains (jv : list JSONPathValue) :
  returns (lengthFunc jv) =
    match jv with
    | PVNil :: _ | PVValue _ :: _ => true
    | _ => false
    end
  /\ returns (countFunc jv) =
    match jv with
    | [] | PVLogical _ :: _ => false
    | _ => true
    end
  /\ returns (valueFunc jv) = returns (countFunc jv)
  /\ returns (matchFunc jv) =
    match jv with
    | PVValue v :: rest =>
        negb (isString (any v))
        || match rest with
           | PVValue _ :: _ => true
           | _ => false
           end
    | _ => false
    end
  /\ returns (searchFunc jv) = returns (matchFunc jv).
Proof.
  unfold lengthFunc, countFunc, valueFunc, matchFunc, searchFunc.
  destruct jv as [| [| n | l | v] rest]; simpl; try (repeat split; reflexivity).
  - repeat split. destruct n as [| x [| y n]]; reflexivity.
  - split; [destruct (any v); reflexivity |].
    split; [reflexivity |]. split; [reflexivity |].
    destruct (any v); simpl; try (split; reflexivity).
    destruct rest as [| [| n | l | v1] rest]; simpl; try (split; reflexivity).
    destruct (any v1); simpl; try (split; reflexivity).
    destruct (compileRegex _), (compileRegex _); split; reflexivity.
Qed.

(** X5. [value] gives a node exactly when [count] gives one: on every
    argument list, [value] returns a value if and only if [count]
    returns 1, and then the argument holds that single node. *)
Theorem value_iff_count_one (jv : list JSONPathValue) :
  (exists v, valueFunc jv = Ret (PVValue v))
  <-> countFunc jv = Ret (PVValue (mkValueType (JInt 1))).
Proof.
  unfold valueFunc, countFunc.
  destruct jv as [| [| n | l | v] rest]; simpl.
  - split; [intros [v H] | intros H]; discriminate.
  - split; [intros [v H] | intros H]; discriminate.
  - destruct n as [| x [| y n]]; simpl.
    + split; [intros [v H] | intros H]; discriminate.
    + split; [reflexivity | eexists; reflexivity].
    + split; [intros [v H]; discriminate |].
      unfold len. intros H. inversion H as [H1].
      cbn [List.length] in H1. lia.
  - split; [intros [v H] | intros H]; discriminate.
  - split; [reflexivity | eexists; reflexivity].
Qed.

(** X6. [match] and [search] on two values never panic and give a
    logical; it is false unless both values are strings, and false when
    the pattern does not compile. *)
Theorem match_search_on_values (v p : ValueType) (rest : list JSONPathValue) :
  exists lm ls,
    matchFunc (PVValue v :: PVValue p :: rest) = Ret (PVLogical lm)
    /\ searchFunc (PVValue v :: PVValue p :: rest) = Ret (PVLogical ls)
    /\ ((isString (any v) && isString (any p)) = false ->
        lm = LogicalFalse /\ ls = LogicalFalse)
    /\ (forall s pat, any v = JString s -> any p = JString pat ->
        (syntax_Parse ("\A" +++ pat +++ "\z") = None -> lm = LogicalFalse)
        /\ (syntax_Parse pat = None -> ls = LogicalFalse)).
Proof.
  rewrite matchFunc_values, searchFunc_values.
  eexists. eexists. split; [reflexivity |]. split; [reflexivity |].
  unfold compileRegex.
  destruct (any v) as [| b | z | f | s | arr | obj];
    try (repeat split; intros; congruence).
  destruct (any p) as [| b | z | f | pat | arr | obj];
    try (repeat split; intros; congruence).
  split; [simpl; discriminate |].
  intros s' pat' Es Ep. inversion Es; inversion Ep; subst.
  split; intros ->; reflexivity.
Qed.

(** *** Validation *)


(** X7. The validators of [length], [count] and [value] accept exactly
    one argument: for [length] a literal, a singular query or a value;
    for [count] and [value] a singular query or a node list.  Any other
    number of arguments is reported with the number found. *)
Theorem one_argument_validators (fea : list A) :
  (checkLengthArgs fea = None <->
   exists a, fea = [a] /\ (asTypeKind a = FuncLiteral \/ asTypeKind a = FuncSingularQuery
                          \/ asTypeKind a = FuncValue))
  /\ (checkCountArgs fea = None <->
      exists a, fea = [a] /\ (asTypeKind a = FuncSingularQuery \/ asTypeKind a = FuncNodeList))
  /\ (checkValueArgs fea = None <->
      exists a, fea = [a] /\ (asTypeKind a = FuncSingularQuery \/ asTypeKind a = FuncNodeList))
  /\ (len fea <> 1 ->
      let err := Some ("expected 1 argument but found " +++ itoa (len fea)) in
      checkLengthArgs fea = err /\ checkCountArgs fea = err /\ checkValueArgs fea = err).
Proof.
  unfold checkLengthArgs, checkCountArgs, checkValueArgs.
  destruct fea as [| a [| b fea]].
  - repeat split; try discriminate; intros (a & H & _); discriminate.
  - split; [| split; [| split]].
    + destruct (asTypeKind a) eqn:E; simpl; split; intros H; try discriminate;
        try (exists a; split; [reflexivity | rewrite E; auto]);
        try reflexivity;
        destruct H as (a' & Ha & [H | [H | H]]); inversion Ha; subst; congruence.
    + destruct (asTypeKind a) eqn:E; simpl; split; intros H; try discriminate;
        try (exists a; split; [reflexivity | rewrite E; auto]);
        try reflexivity;
        destruct H as (a' & Ha & [H | H]); inversion Ha; subst; congruence.
    + destruct (asTypeKind a) eqn:E; simpl; split; intros H; try discriminate;
        try (exists a; split; [reflexivity | rewrite E; auto]);
        try reflexivity;
        destruct H as (a' & Ha & [H | H]); inversion Ha; subst; congruence.
    + intros H. exfalso. apply H. reflexivity.
  - repeat split; try discriminate; intros (a' & H & _); discriminate.
Qed.


(** X9. [NewFunctionExpr] succeeds exactly for a registered name whose
    validator accepts the arguments; the expression then holds these
    arguments and the function of that name, whose result type is
    [FuncLogical] for [match] and [search] and [FuncValue] for
    [length], [count] and [value].  Any other name is the error of the
    unknown function. *)
Theorem NewFunctionExpr_outcome (name : string) (fea : list A) :
  match NewFunctionExpr name fea with
  | inl fe =>
      args fe = fea /\ FuncName (fn fe) = name /\ Validate (fn fe) fea = None
      /\ GetFunction name = Some (fn fe)
      /\ ResultType (fn fe) =
         (if String.eqb name "match" || String.eqb name "search"
          then FuncLogical else FuncValue)
  | inr (ErrInvalid err) =>
      exists fn, GetFunction name = Some fn /\ Validate fn fea = Some err
  | inr (ErrUnregistered err) =>
      GetFunction name = None
      /\ ~ In name ["length"; "count"; "value"; "match"; "search"]
      /\ err = "jsonpath: unknown jsonpath function " +++ name +++ "()"
  end.
Proof.
  unfold NewFunctionExpr, GetFunction.
  destruct (lookup name registry) as [f |] eqn:E.
  - pose proof (lookup_registry_name _ _ E) as Hn.
    destruct (Validate f fea) as [err |] eqn:Ev.
    + exists f. auto.
    + cbn [args fn]. repeat split; try assumption.
      apply lookup_registry in E.
      destruct E as [-> | [-> | [-> | [-> | ->]]]]; subst name; reflexivity.
  - split; [reflexivity |]. split; [| reflexivity].
    intros Hin. unfold registry, lookup in E.
    cbn [In] in Hin.
    destruct Hin as [<- | [<- | [<- | [<- | [<- | []]]]]]; discriminate E.
Qed.

End BuiltinFacts.

Lemma builtin_result_type_witness :
  hasResultType
    (ResultType (mkFunction (A := FunctionExprArg) "count" FuncValue checkCountArgs countFunc))
    (PVValue (mkValueType (JInt 2))) = true.
Proof.
  apply (builtin_result_type (host := HostModel.host) "count"
           (mkFunction "count" FuncValue checkCountArgs countFunc)
           [PVNodes [JNull; JNull]] (PVValue (mkValueType (JInt 2))));
    reflexivity.
Defined.

(** ** Logical expressions: evaluation order *)

Lemma LogicalAndExpr_testFilter_app_eq (la1 la2 : LogicalAndExpr) (current root : JSON) :
  LogicalAndExpr_testFilter (la1 ++ la2) current root =
  (b <- LogicalAndExpr_testFilter la1 current root ;;
   if b then LogicalAndExpr_testFilter la2 current root else Ret false).
Proof.
  induction la1 as [| e la1 IH]; simpl; [reflexivity |].
  destruct (testFilter e current root) as [[|] | msg]; simpl; [exact IH | reflexivity ..].
Qed.

Lemma LogicalOrExpr_testFilter_app_eq (lo1 lo2 : LogicalOrExpr) (current root : JSON) :
  LogicalOrExpr_testFilter (lo1 ++ lo2) current root =
  (b <- LogicalOrExpr_testFilter lo1 current root ;;
   if b then Ret true else LogicalOrExpr_testFilter lo2 current root).
Proof.
  induction lo1 as [| e lo1 IH]; simpl; [reflexivity |].
  destruct (LogicalAndExpr_testFilter e current root) as [[|] | msg]; simpl;
    [reflexivity | exact IH | reflexivity].
Qed.

(** X10. A conjunction evaluates its expressions from left to right and
    stops at the first that is false: the expressions after it are not
    evaluated, so that a panic among them is not reached.  When every
    expression returns, the result is their conjunction. *)
Theorem LogicalAndExpr_short_circuit (la1 la2 : LogicalAndExpr) (e : basicExpr)
  (current root : JSON) :
  LogicalAndExpr_testFilter la1 current root = Ret true ->
  (testFilter e current root = Ret false ->
   LogicalAndExpr_testFilter (la1 ++ e :: la2) current root = Ret false)
  /\ (forall msg, testFilter e current root = Panic msg ->
      LogicalAndExpr_testFilter (la1 ++ e :: la2) current root = Panic msg)
  /\ (testFilter e current root = Ret true ->
      LogicalAndExpr_testFilter (la1 ++ e :: la2) current root
      = LogicalAndExpr_testFilter la2 current root).
Proof.
  intros H1. rewrite LogicalAndExpr_testFilter_app_eq, H1. simpl.
  repeat split; intros; match goal with E : testFilter _ _ _ = _ |- _ => rewrite E end;
    reflexivity.
Qed.

Lemma LogicalAndExpr_short_circuit_witness :
  LogicalAndExpr_testFilter
    ([ExistExpr (mkQuery false [])]
     ++ NotExistsExpr (mkQuery false []) :: [mkBasicExpr (fun _ _ => Panic "not reached")])
    JNull JNull = Ret false.
Proof.
  apply (LogicalAndExpr_short_circuit [ExistExpr (mkQuery false [])]
           [mkBasicExpr (fun _ _ => Panic "not reached")]
           (NotExistsExpr (mkQuery false [])) JNull JNull);
    reflexivity.
Defined.

(** X11. A disjunction evaluates its conjunctions from left to right and
    stops at the first that is true; the ones after it are not
    evaluated. *)
Theorem LogicalOrExpr_short_circuit (lo1 lo2 : LogicalOrExpr) (la : LogicalAndExpr)
  (current root : JSON) :
  LogicalOrExpr_testFilter lo1 current root = Ret false ->
  (LogicalAndExpr_testFilter la current root = Ret true ->
   LogicalOrExpr_testFilter (lo1 ++ la :: lo2) current root = Ret true)
  /\ (forall msg, LogicalAndExpr_testFilter la current root = Panic msg ->
      LogicalOrExpr_testFilter (lo1 ++ la :: lo2) current root = Panic msg)
  /\ (LogicalAndExpr_testFilter la current root = Ret false ->
      LogicalOrExpr_testFilter (lo1 ++ la :: lo2) current root
      = LogicalOrExpr_testFilter lo2 current root).
Proof.
  intros H1. rewrite LogicalOrExpr_testFilter_app_eq, H1. simpl.
  repeat split; intros;
    match goal with E : LogicalAndExpr_testFilter _ _ _ = _ |- _ => rewrite E end;
    reflexivity.
Qed.

Lemma LogicalOrExpr_short_circuit_witness :
  LogicalOrExpr_testFilter
    ([[NotExistsExpr (mkQuery false [])]]
     ++ [ExistExpr (mkQuery false [])] :: [[mkBasicExpr (fun _ _ => Panic "not reached")]])
    JNull JNull = Ret true.
Proof.
  apply (LogicalOrExpr_short_circuit [[NotExistsExpr (mkQuery false [])]]
           [[mkBasicExpr (fun _ _ => Panic "not reached")]]
           [ExistExpr (mkQuery false [])] JNull JNull);
    reflexivity.
Defined.

(** X12. When every expression of a filter returns, the filter is the
    disjunction of the conjunctions of their results. *)
Theorem LogicalOrExpr_testFilter_value (lo : LogicalOrExpr)
  (vals : list (list bool)) (current root : JSON) :
  Forall2 (Forall2 (fun e b => testFilter e current root = Ret b)) lo vals ->
  LogicalOrExpr_testFilter lo current root
  = Ret (existsb (forallb (fun b => b)) vals).
Proof.
  assert (Hand : forall la bs,
             Forall2 (fun e b => testFilter e current root = Ret b) la bs ->
             LogicalAndExpr_testFilter la current root = Ret (forallb (fun b => b) bs)).
  { induction 1 as [| e b la bs He _ IH]; simpl; [reflexivity |].
    rewrite He. simpl. destruct b; simpl; [exact IH | reflexivity]. }
  induction 1 as [| la bs lo vals Hla _ IH]; simpl; [reflexivity |].
  rewrite (Hand _ _ Hla). simpl.
  destruct (forallb (fun b => b) bs); simpl; [reflexivity | exact IH].
Qed.

Lemma LogicalOrExpr_testFilter_value_witness :
  LogicalOrExpr_testFilter
    [[ExistExpr (mkQuery false []); NotExistsExpr (mkQuery false [])];
     [ExistExpr (mkQuery false [])]] JNull JNull
  = Ret (existsb (forallb (fun b => b)) [[true; false]; [true]]).
Proof.
  apply (LogicalOrExpr_testFilter_value
           [[ExistExpr (mkQuery false []); NotExistsExpr (mkQuery false [])];
            [ExistExpr (mkQuery false [])]]
           [[true; false]; [true]] JNull JNull).
  repeat constructor.
Defined.

(** X13. The negated forms are the negations of the plain ones, panics
    included: a non-existence test of the existence test, a negated
    parenthesis of the parenthesis, a negated function of the function.
    Parentheses around a single expression change nothing. *)
Theorem negations_negate (current root : JSON) :
  (forall q, NotExistsExpr_testFilter q current root
             = (b <- ExistExpr_testFilter q current root ;; Ret (negb b)))
  /\ (forall lo, testFilter (NotParenExpr lo) current root
                 = (b <- testFilter (ParenExpr lo) current root ;; Ret (negb b)))
  /\ (forall fe, testFilter (NotFuncExpr fe) current root
                 = (b <- testFilter (FunctionExpr_basic fe) current root ;; Ret (negb b)))
  /\ (forall e, testFilter (ParenExpr [[e]]) current root = testFilter e current root)
  /\ (forall lo, testFilter (NotParenExpr [[NotParenExpr lo]]) current root
                 = LogicalOrExpr_testFilter lo current root).
Proof.
  split; [| split; [| split; [| split]]].
  - intros q. unfold NotExistsExpr_testFilter, ExistExpr_testFilter.
    destruct (Query_Select q current root) as [res | msg]; simpl; [| reflexivity].
    f_equal. unfold len.
    destruct res; simpl; [reflexivity |].
    destruct (Z.eqb_spec (Z.pos (Pos.of_succ_nat (List.length res))) 0); [lia |].
    reflexivity.
  - reflexivity.
  - reflexivity.
  - intros e. simpl. destruct (testFilter e current root) as [[|] | msg]; reflexivity.
  - intros lo. cbn [testFilter NotParenExpr]. unfold NotParenExpr_testFilter at 1.
    cbn [LogicalOrExpr_testFilter LogicalAndExpr_testFilter testFilter NotParenExpr].
    unfold NotParenExpr_testFilter.
    destruct (LogicalOrExpr_testFilter lo current root) as [[|] | msg]; reflexivity.
Qed.

(** ** Segments: child and descendant *)

Lemma Descendant_nothing (current root : JSON) :
  Segment_Select (Descendant []) current root = Ret [].
Proof.
  induction current as [v IH] using JSON_by_members.
  rewrite Segment_Select_unfold. simpl. rewrite descend_members.
  induction IH as [| x l Hx _ IHl]; simpl; [reflexivity |].
  rewrite Hx. simpl.
  destruct (appendEach (fun v => Segment_Select (Descendant []) v root) l) as [d | msg];
    [| discriminate].
  simpl in IHl. inversion IHl. reflexivity.
Qed.

(** X14. Child and descendant segments compared.  Without selectors both
    select nothing, at any depth.  A child segment of the selectors
    [s1 ++ s2] selects what [s1] selects followed by what [s2] selects.
    On a value without members a descendant segment selects what the
    child segment selects; on any value its result starts with the
    result of the child segment, and it panics when the child segment
    does. *)
Theorem Segment_Select_child_descendant (sel s1 s2 : list Selector)
  (current root : JSON) :
  Segment_Select (Child []) current root = Ret []
  /\ Segment_Select (Descendant []) current root = Ret []
  /\ Segment_Select (Child (s1 ++ s2)) current root =
     (a <- Segment_Select (Child s1) current root ;;
      b <- Segment_Select (Child s2) current root ;;
      Ret (a ++ b))
  /\ (members current = [] ->
      Segment_Select (Descendant sel) current root
      = Segment_Select (Child sel) current root)
  /\ (forall res, Segment_Select (Descendant sel) current root = Ret res ->
      exists c d, Segment_Select (Child sel) current root = Ret c /\ res = c ++ d)
  /\ (forall msg, Segment_Select (Child sel) current root = Panic msg ->
      Segment_Select (Descendant sel) current root = Panic msg).
Proof.
  split; [apply Child_Select |].
  split; [apply Descendant_nothing |].
  split; [rewrite !Child_Select; apply appendEach_app |].
  rewrite Child_Select, Segment_Select_unfold, descend_members. simpl.
  split; [| split].
  - intros ->. simpl.
    destruct (appendEach (fun s => Select s current root) sel) as [ret | msg]; simpl;
      [rewrite app_nil_r |]; reflexivity.
  - intros res H.
    destruct (appendEach (fun s => Select s current root) sel) as [ret | msg];
      [| discriminate].
    simpl in H.
    destruct (appendEach _ (members current)) as [d | msg]; [| discriminate].
    inversion H. exists ret, d. auto.
  - intros msg ->. reflexivity.
Qed.

(** X15. A segment that reports itself singular is a child segment of
    exactly one selector, itself singular, and selects exactly what that
    selector selects. *)
Theorem Segment_isSingular_select (s : Segment) :
  Segment_isSingular s = true ->
  exists sel,
    selectors s = [sel] /\ descendant s = false /\ isSingular sel = true
    /\ forall current root, Segment_Select s current root = Select sel current root.
Proof.
  unfold Segment_isSingular. destruct s as [sels desc]. simpl.
  destruct desc; [discriminate |]. simpl.
  destruct sels as [| sel [| sel2 sels]].
  - discriminate.
  - simpl. intros H. exists sel. repeat split; try assumption.
    intros current root. rewrite Segment_Select_unfold. simpl.
    destruct (Select sel current root) as [res | msg]; simpl; [| reflexivity].
    rewrite app_nil_r. reflexivity.
  - assert (E : (len (sel :: sel2 :: sels) =? 1) = false).
    { apply Z.eqb_neq. unfold len. cbn [List.length]. lia. }
    rewrite E. discriminate.
Qed.

Lemma Segment_isSingular_select_witness :
  Segment_isSingular (Child [Name "a"]) = true
  /\ exists sel,
       selectors (Child [Name "a"]) = [sel] /\ descendant (Child [Name "a"]) = false
       /\ isSingular sel = true
       /\ forall current root,
            Segment_Select (Child [Name "a"]) current root = Select sel current root.
Proof.
  split; [reflexivity |].
  apply (Segment_isSingular_select (Child [Name "a"])). reflexivity.
Defined.

(** ** Singular queries: composition *)

Lemma singularQuery_walk_app_eq (l1 l2 : list Selector) (target : JSON) :
  singularQuery_walk (l1 ++ l2) target =
  (res <- singularQuery_walk l1 target ;;
   match res with
   | PVValue x => singularQuery_walk l2 (any x)
   | other => Ret other
   end).
Proof.
  revert target. induction l1 as [| sel l1 IH]; intros target; simpl; [reflexivity |].
  destruct (Select sel target JNull) as [[| r0 res] | msg]; simpl;
    [reflexivity | apply IH | reflexivity].
Qed.

Lemma singularQuery_walk_kind (sels : list Selector) :
  forall target res,
    singularQuery_walk sels target = Ret res -> hasResultType FuncValue res = true.
Proof.
  induction sels as [| sel sels IH]; intros target res H; simpl in H.
  - inversion H. reflexivity.
  - destruct (Select sel target JNull) as [[| r0 l] | msg]; simpl in H;
      [inversion H; reflexivity | eapply IH; eassumption | discriminate].
Qed.

(** X16. A singular query of the selectors [l1 ++ l2] is the query of
    [l2] run from the value that the query of [l1] gives, and nothing
    when that gives nothing; whatever its selectors are, a singular
    query that returns gives a value or nothing, never a node list or a
    logical. *)
Theorem singularQuery_execute_app (rel : bool) (l1 l2 : list Selector)
  (current root : JSON) :
  singularQuery_execute (mkSingularQuery rel (l1 ++ l2)) current root =
  (res <- singularQuery_execute (mkSingularQuery rel l1) current root ;;
   match res with
   | PVValue x => singularQuery_execute (mkSingularQuery true l2) (any x) root
   | other => Ret other
   end)
  /\ (forall res,
        singularQuery_execute (mkSingularQuery rel l1) current root = Ret res ->
        hasResultType FuncValue res = true).
Proof.
  unfold singularQuery_execute. cbn [relative sq_selectors].
  split; [apply singularQuery_walk_app_eq |].
  intros res. apply singularQuery_walk_kind.
Qed.

(** ** Function expressions *)

Section FunctionExprFacts.
Context {host : RegexpHost}.

(** X17. An argument that returns, returns what its kind announces: a
    literal a value, a singular query a value or nothing, a filter
    query a node list, a logical expression a logical, and a call of a
    registered function a value of the result type of the function. *)
Theorem argument_results (current root : JSON) (res : JSONPathValue) :
  (forall la, execute (literalArg_arg la) current root = Ret res ->
              exists v, res = PVValue v)
  /\ (forall sq, execute (singularQuery_arg sq) current root = Ret res ->
                 hasResultType FuncValue res = true)
  /\ (forall fq, execute (filterQuery_arg fq) current root = Ret res ->
                 hasResultType FuncNodeList res = true)
  /\ (forall lo, execute (LogicalOrExpr_arg lo) current root = Ret res ->
                 hasResultType FuncLogical res = true)
  /\ (forall name fea fe,
        NewFunctionExpr name fea = inl fe ->
        execute (FunctionExpr_arg fe) current root = Ret res ->
        hasResultType (argTypeKind (FunctionExpr_arg fe)) res = true).
Proof.
  split; [| split; [| split; [| split]]].
  - intros la H. inversion H. eexists. reflexivity.
  - intros sq H. eapply singularQuery_walk_kind. exact H.
  - intros fq H. simpl in H. unfold filterQuery_execute in H.
    destruct (Query_Select fq current root); inversion H. reflexivity.
  - intros lo H. simpl in H. unfold LogicalOrExpr_execute in H.
    destruct (LogicalOrExpr_testFilter lo current root); inversion H. reflexivity.
  - intros name fea fe Hn H.
    unfold NewFunctionExpr in Hn.
    destruct (lookup name registry) as [f |] eqn:E; [| discriminate].
    destruct (Validate f fea); [discriminate |].
    inversion Hn; subst fe; clear Hn.
    cbn [execute argTypeKind FunctionExpr_arg] in *.
    unfold FunctionExpr_execute, FunctionExpr_asTypeKind in *. cbn [fn args] in *.
    destruct (collect (fun a => execute a current root) fea) as [jv | msg];
      [| discriminate].
    simpl in H. eapply Evaluate_registry_kind; [exact E | exact H].
Qed.

(** X18. [count] and [value] accept every filter query as their
    argument, and then panic only when the query does: [count] gives the
    number of nodes the query selects, [value] the node when there is
    exactly one and nothing otherwise. *)
Theorem count_value_of_query (fq : Query) :
  exists fc fv,
    NewFunctionExpr "count" [filterQuery_arg fq] = inl fc
    /\ NewFunctionExpr "value" [filterQuery_arg fq] = inl fv
    /\ forall current root,
         FunctionExpr_execute fc current root =
         (nodes <- Query_Select fq current root ;;
          Ret (PVValue (mkValueType (JInt (Z.of_nat (List.length nodes))))))
         /\ FunctionExpr_execute fv current root =
            (nodes <- Query_Select fq current root ;;
             Ret match nodes with
                 | [n] => PVValue (mkValueType n)
                 | _ => PVNil
                 end).
Proof.
  unfold NewFunctionExpr. cbn [lookup registry String.eqb Ascii.eqb Bool.eqb Validate].
  unfold checkCountArgs, checkValueArgs.
  change (asTypeKind (filterQuery_arg fq)) with (filterQuery_asTypeKind fq).
  unfold filterQuery_asTypeKind.
  destruct (Query_isSingular fq); simpl;
    (eexists; eexists; split; [reflexivity |]; split; [reflexivity |];
     intros current root;
     unfold FunctionExpr_execute; cbn [args fn Evaluate collect execute filterQuery_arg];
     unfold filterQuery_execute;
     destruct (Query_Select fq current root) as [nodes | msg]; simpl;
     [| split; reflexivity];
     split; [reflexivity |];
     destruct nodes as [| n [| n2 nodes]]; reflexivity).
Qed.

(** X19. [length] accepts a filter query that is singular, its kind
    converting to a value, but the query is executed to a node list, on
    which [length] panics: the call panics on every input on which the
    query itself returns. *)
Theorem length_of_singular_filter_query (fq : Query) :
  Query_isSingular fq = true ->
  exists fe,
    NewFunctionExpr "length" [filterQuery_arg fq] = inl fe
    /\ forall current root,
         FunctionExpr_execute fe current root =
         (nodes <- Query_Select fq current root ;;
          Panic "unexpected argument of type jsonpath.NodesType").
Proof.
  intros Hs.
  unfold NewFunctionExpr. cbn [lookup registry String.eqb Ascii.eqb Bool.eqb Validate].
  unfold checkLengthArgs.
  change (asTypeKind (filterQuery_arg fq)) with (filterQuery_asTypeKind fq).
  unfold filterQuery_asTypeKind. rewrite Hs. simpl.
  eexists. split; [reflexivity |].
  intros current root.
  unfold FunctionExpr_execute; cbn [args fn Evaluate collect execute filterQuery_arg].
  unfold filterQuery_execute.
  destruct (Query_Select fq current root) as [nodes | msg]; reflexivity.
Qed.

End FunctionExprFacts.

Lemma length_of_singular_filter_query_witness :
  Query_isSingular (mkQuery false [Child [Name "a"]]) = true
  /\ exists fe,
       NewFunctionExpr (host := HostModel.host) "length"
         [filterQuery_arg (mkQuery false [Child [Name "a"]])] = inl fe
       /\ forall current root,
            FunctionExpr_execute fe current root =
            (nodes <- Query_Select (mkQuery false [Child [Name "a"]]) current root ;;
             Panic "unexpected argument of type jsonpath.NodesType").
Proof.
  split; [reflexivity |].
  apply (length_of_singular_filter_query (host := HostModel.host)
           (mkQuery false [Child [Name "a"]])).
  reflexivity.
Defined.


Section ParsedTrees.
Context {host : RegexpHost} {L : Lexer}.

Lemma lift_POk {A : Type} (res : A + string) (lex lex' : lexer) (a : A) :
  lift res lex = POk a lex' -> res = inl a.
Proof.
  destruct res as [x | err]; simpl; unfold pret, fail; intros H;
    inversion H; reflexivity.
Qed.

(** Takes a successful run apart, one step at a time. *)
Ltac take_apart H :=
  repeat match type of H with
         | pbind _ _ _ = POk _ _ =>
             let a := fresh "a" in
             let lex1 := fresh "lex" in
             let E := fresh "E" in
             apply pbind_POk in H; destruct H as (a & lex1 & E & H)
         | (if ?c then _ else _) _ = POk _ _ =>
             let C := fresh "C" in destruct c eqn:C
         | (let '(_, _) := ?x in _) _ = POk _ _ => destruct x
         | (match ?x with _ => _ end) _ = POk _ _ =>
             let C := fresh "C" in destruct x eqn:C
         | fail _ _ = POk _ _ => discriminate H
         | pret _ _ = POk _ _ => unfold pret in H; inversion H; subst; clear H
         end.

Lemma parsePathInt_inPathRange (t : token) (i : Z) :
  parsePathInt t = inl i -> inPathRange i.
Proof.
  unfold parsePathInt.
  destruct (String.eqb (val t) "-0"); [discriminate |].
  destruct (ParseInt (val t)) as [idx | err]; [| discriminate].
  destruct (Z.gtb_spec idx maxVal) as [Hgt | Hgt]; simpl; [discriminate |].
  destruct (Z.ltb_spec idx minVal) as [Hlt | Hlt]; [discriminate |].
  intros E. inversion E; subst. unfold inPathRange. lia.
Qed.

Lemma parseLiteral_wfLiteral (t : token) (l : spec.LiteralArg) :
  parseLiteral t = inl l -> wfLiteral l.
Proof.
  unfold parseLiteral.
  destruct (tok t); try discriminate;
    try (intros H; inversion H; exact I).
  - destruct (ParseInt (val t)); intros H; inversion H; exact I.
  - destruct (ParseFloat (val t)) as [num [err |]]; intros H; inversion H; exact I.
Qed.

Lemma wfSliceArgs_setArg (args : sliceArgs) (i num : Z) :
  wfSliceArgs args -> inPathRange num -> wfSliceArgs (setArg args i num).
Proof.
  destruct args as [[a0 a1] a2]. unfold wfSliceArgs, setArg.
  intros (H0 & H1 & H2) Hn.
  destruct (i =? 0); [| destruct (i =? 1)]; simpl; auto.
Qed.

Lemma parseSlice_loop_wf (fuel : nat) :
  forall args i t lex s lex',
    wfSliceArgs args ->
    parseSlice_loop fuel args i t lex = POk s lex' ->
    wfSelector (spec.SliceSel s).
Proof.
  induction fuel as [| fuel IH]; intros args i t lex s lex' Ha H; [discriminate |].
  cbn [parseSlice_loop] in H.
  destruct (i <? 3); [| discriminate].
  apply pbind_POk in H. destruct H as (st & lex1 & E & H).
  destruct st as [args' i'].
  assert (Ha' : wfSliceArgs args').
  { take_apart E; [assumption |].
    apply wfSliceArgs_setArg; [assumption |].
    match goal with X : lift _ _ = POk _ _ |- _ => apply lift_POk in X end.
    eapply parsePathInt_inPathRange. eassumption. }
  take_apart H.
  - destruct Ha' as (H0 & H1 & H2).
    constructor; simpl; try assumption.
    match goal with
    | |- inPathRange match ?o with _ => _ end => destruct o as [k |]
    end; [assumption |].
    unfold inPathRange, minVal, maxVal. simpl. lia.
  - eapply IH; eassumption.
Qed.

Lemma parseSingularQuery_loop_wf (fuel : nat) :
  forall st sels lex sq lex',
    Forall wfSingularSelector sels ->
    parseSingularQuery_loop fuel st sels lex = POk sq lex' ->
    wfSingularQuery sq.
Proof.
  induction fuel as [| fuel IH]; intros st sels lex sq lex' Hs H; [discriminate |].
  cbn [parseSingularQuery_loop] in H.
  take_apart H.
  - eapply IH; [| eassumption].
    apply Forall_app. split; [assumption |]. constructor; [| constructor].
    take_apart E3; [exact I |].
    match goal with X : lift _ _ = POk _ _ |- _ => apply lift_POk in X end.
    simpl. eapply parsePathInt_inPathRange. eassumption.
  - eapply IH; [| eassumption].
    apply Forall_app. split; [assumption |]. constructor; [exact I | constructor].
  - exact Hs.
Qed.

(** The singular query of a well-formed query is well formed. *)
Lemma Singular_wf (q : spec.PathQuery) (sq : spec.SingularQueryExpr) :
  wfQuery q -> spec.Singular q = Some sq -> wfSingularQuery sq.
Proof.
  intros Hq. destruct Hq as [root segs Hsegs]. unfold spec.Singular.
  destruct (forallb spec.Segment_isSingular segs) eqn:E; [| discriminate].
  intros H. inversion H; subst; clear H. simpl.
  induction Hsegs as [| seg segs Hseg _ IH]; simpl; [constructor |].
  simpl in E. apply andb_true_iff in E. destruct E as [E1 E2].
  apply Forall_app. split; [| apply IH; assumption].
  destruct seg as [[| sel [| sel2 sels]] | sels]; try discriminate.
  inversion Hseg as [sels' _ Hall |]; subst.
  inversion Hall as [| x l Hsel _]; subst.
  constructor; [| constructor].
  destruct sel; try discriminate; [exact I |].
  inversion Hsel; assumption.
Qed.

Lemma Expression_wf (q : spec.PathQuery) :
  wfQuery q -> wfFunctionExprArg (spec.Expression q).
Proof.
  intros Hq. unfold spec.Expression.
  destruct (spec.Singular q) as [sq |] eqn:E.
  - constructor. eapply Singular_wf; eassumption.
  - constructor. assumption.
Qed.

Lemma FuncType_eqb_eq (a b : FuncType) : FuncType_eqb a b = true <-> a = b.
Proof. destruct a, b; simpl; split; intros H; congruence. Qed.

Lemma WF_O : WF 0.
Proof. split; intros; discriminate. Qed.

Lemma Forall_snoc {A : Type} (P : A -> Prop) (l : list A) (x : A) :
  Forall P l -> P x -> Forall P (l ++ [x]).
Proof. intros Hl Hx. apply Forall_app. split; [assumption | constructor; auto]. Qed.

Lemma snoc_not_nil {A : Type} (l : list A) (x : A) : l ++ [x] <> [].
Proof. destruct l; discriminate. Qed.

Lemma parseNameOrWildcard_wf (lex lex' : lexer) (sel : spec.Selector) :
  parseNameOrWildcard lex = POk sel lex' -> wfSelector sel.
Proof.
  intros H. unfold parseNameOrWildcard in H. take_apart H; constructor.
Qed.

(** What [NewFunctionExpr] accepted is a registered, validated call. *)
Lemma NewFunctionExpr_wf (name : string) (fea : list spec.FunctionExprArg)
  (fe : FunctionExpr spec.FunctionExprArg) :
  NewFunctionExpr name fea = inl fe ->
  Forall wfFunctionExprArg fea ->
  wfFunctionExpr (spec.Func (FuncName (fn fe)) (ResultType (fn fe)) fea).
Proof.
  unfold NewFunctionExpr.
  destruct (lookup name registry) as [f |] eqn:E; [| discriminate].
  destruct (Validate f fea) eqn:Ev; [discriminate |].
  intros H Hall. inversion H; subst; clear H. cbn [fn].
  econstructor; [| eassumption | assumption].
  unfold GetFunction. rewrite (lookup_registry_name _ _ E). exact E.
Qed.

Create HintDb wf.
#[local] Hint Constructors wfSelector wfSegment wfQuery wfLogicalOr wfBasicExpr
  wfCompVal wfFunctionExprArg wfFunctionExpr Forall : wf.
#[local] Hint Resolve Forall_snoc snoc_not_nil parseNameOrWildcard_wf Expression_wf
  Singular_wf : wf.

Lemma WF_S (n : nat) : WF n -> WF (S n).
Proof.
  intros IH.
  pose proof (wf_parseQuery IH) as IHq.
  pose proof (wf_parseDescendant IH) as IHd.
  pose proof (wf_parseSelectors IH) as IHs.
  pose proof (wf_parseFilter IH) as IHf.
  pose proof (wf_parseLogicalOrExpr IH) as IHlo.
  pose proof (wf_parseLogicalOrExpr_loop IH) as IHlol.
  pose proof (wf_parseLogicalAndExpr IH) as IHla.
  pose proof (wf_parseLogicalAndExpr_loop IH) as IHlal.
  pose proof (wf_parseBasicExpr IH) as IHb.
  pose proof (wf_parseFunctionFilterExpr IH) as IHff.
  pose proof (wf_parseNotExistsExpr IH) as IHne.
  pose proof (wf_parseFilterQuery IH) as IHfq.
  pose proof (wf_parseInnerParenExpr IH) as IHip.
  pose proof (wf_parseParenExpr IH) as IHp.
  pose proof (wf_parseNotParenExpr IH) as IHnp.
  pose proof (wf_parseFunction IH) as IHfn.
  pose proof (wf_parseFunctionArgs IH) as IHfa.
  pose proof (wf_parseComparableExpr IH) as IHce.
  pose proof (wf_parseComparableVal IH) as IHcv.
  split.
  - (* parseQuery *)
    intros root segs lex q lex' Hs H. unfold_parsers_in H. take_apart H.
    + eapply IHq; [| eassumption]. apply Forall_snoc; [assumption |].
      destruct (IHs _ _ _ _ (Forall_nil _) E1). auto with wf.
    + eapply IHq; [| eassumption]. eauto 6 with wf.
    + eapply IHq; [| eassumption]. apply Forall_snoc; [assumption |].
      constructor; [discriminate | eauto 6 with wf].
    + eapply IHq; eassumption.
    + eauto.
    + eauto.
  - (* parseDescendant *)
    intros lex seg lex' H. unfold_parsers_in H. take_apart H.
    + destruct (IHs _ _ _ _ (Forall_nil _) E0). auto with wf.
    + constructor; [discriminate | auto with wf].
    + constructor; [discriminate | auto with wf].
  - (* parseSelectors *)
    intros sels lex res lex' Hs H. unfold_parsers_in H. take_apart H.
    all: try (eapply IHs; [| eassumption]; solve [eauto 6 with wf]).
    all: try (split; [apply snoc_not_nil | solve [eauto 6 with wf]]).
    all: try match goal with
             | X : parseSlice _ _ _ = POk _ _ |- _ =>
                 unfold parseSlice in X; apply parseSlice_loop_wf in X;
                 [| simpl; auto]
             end.
    all: try match goal with
             | X : lift _ _ = POk _ _ |- _ =>
                 apply lift_POk, parsePathInt_inPathRange in X
             end.
    all: try (eapply IHs; [| eassumption]; solve [eauto 6 with wf]).
    all: try (split; [apply snoc_not_nil | solve [eauto 6 with wf]]).
  - (* parseFilter *)
    intros lex sel lex' H. unfold_parsers_in H. take_apart H. eauto with wf.
  - (* parseLogicalOrExpr *)
    intros lex lo lex' H. unfold_parsers_in H. take_apart H.
    eapply IHlol; [| eassumption].
    constructor; [discriminate |]. constructor; [| constructor].
    eapply IHla. eassumption.
  - (* parseLogicalOrExpr_loop *)
    intros ands lex lo lex' Ha H. unfold_parsers_in H. take_apart H.
    + assumption.
    + eapply IHlol; [| eassumption].
      destruct Ha as [ands Hne Hall].
      constructor; [apply snoc_not_nil |].
      apply Forall_snoc; [assumption |]. eapply IHla. eassumption.
  - (* parseLogicalAndExpr *)
    intros lex la lex' H. unfold_parsers_in H. take_apart H.
    eapply IHlal; [| eassumption].
    split; [discriminate |]. eauto with wf.
  - (* parseLogicalAndExpr_loop *)
    intros ors lex la lex' Ho H. unfold_parsers_in H. take_apart H.
    + assumption.
    + eapply IHlal; [| eassumption].
      destruct Ho as [Hne Hall].
      split; [apply snoc_not_nil | eauto with wf].
  - (* parseBasicExpr *)
    intros lex e lex' H. unfold_parsers_in H. take_apart H.
    all: try solve [eauto 6 with wf].
    all: try match goal with
             | X : lift _ _ = POk _ _ |- _ =>
                 apply lift_POk, parseLiteral_wfLiteral in X
             end.
    all: try solve [eauto 6 with wf].
  - (* parseFunctionFilterExpr *)
    intros ident lex e lex' H. unfold_parsers_in H. take_apart H.
    + constructor; [eauto | apply FuncType_eqb_eq; assumption].
    + eapply IHce; [| eassumption].
      constructor; [eauto |]. intros Hr. apply FuncType_eqb_eq in Hr. congruence.
  - (* parseNotExistsExpr *)
    intros t lex e lex' H. unfold_parsers_in H. take_apart H. eauto with wf.
  - (* parseFilterQuery *)
    intros t lex q lex' H. unfold_parsers_in H.
    apply IHq in H; [| constructor]. destruct H as (segs' & -> & Hs).
    constructor. assumption.
  - (* parseInnerParenExpr *)
    intros lex lo lex' H. unfold_parsers_in H. take_apart H. eauto.
  - (* parseParenExpr *)
    intros lex e lex' H. unfold_parsers_in H. take_apart H. eauto with wf.
  - (* parseNotParenExpr *)
    intros lex e lex' H. unfold_parsers_in H. take_apart H. eauto with wf.
  - (* parseFunction *)
    intros t lex f lex' H. unfold_parsers_in H. take_apart H.
    eapply NewFunctionExpr_wf; [eassumption |]. eauto with wf.
  - (* parseFunctionArgs *)
    intros res lex res' lex' Hr H. unfold_parsers_in H. take_apart H.
    all: try match goal with
             | X : lift _ _ = POk _ _ |- _ =>
                 apply lift_POk, parseLiteral_wfLiteral in X
             end.
    all: try assumption.
    all: try (eapply IHfa; [| eassumption]; solve [eauto 6 with wf]).
    all: try solve [eauto 6 with wf].
  - (* parseComparableExpr *)
    intros left lex e lex' Hl H. unfold_parsers_in H. take_apart H. eauto with wf.
  - (* parseComparableVal *)
    intros t lex v lex' H. unfold_parsers_in H. take_apart H.
    all: try match goal with
             | X : lift _ _ = POk _ _ |- _ =>
                 apply lift_POk, parseLiteral_wfLiteral in X
             end.
    all: try match goal with
             | X : parseSingularQuery _ _ _ = POk _ _ |- _ =>
                 unfold parseSingularQuery in X;
                 apply parseSingularQuery_loop_wf in X; [| constructor]
             end.
    all: try solve [eauto 6 with wf].
    constructor; [eauto |]. intros Hr. apply FuncType_eqb_eq in Hr. congruence.
Qed.


Lemma WF_all (n : nat) : WF n.
Proof. induction n as [| n IH]; [apply WF_O | apply WF_S; assumption]. Qed.

(** X20. A query that [Parse] returns is well formed.  It is an absolute
    query, and the whole input was read.  Every segment has at least one
    selector; every filter is a disjunction of at least one conjunction
    of at least one expression; every index and every part of a slice
    lies between [-(2^53 - 1)] and [2^53 - 1]; the singular queries of
    comparisons hold names and indexes only; literals are scalars; every
    function call names a registered function whose validator accepted
    the arguments; a function stands on its own only with a logical
    result (unless negated) and is compared only when its result is not
    logical. *)
Theorem Parse_wellformed (fuel : nat) (path : string) (q : spec.PathQuery)
  (lex : lexer) :
  Parse fuel path = POk q lex ->
  wfQuery q
  /\ (exists segs, q = spec.Query true segs)
  /\ r lex = eof
  /\ isChar (tok (fst (scan (newLexer path)))) "$" = true.
Proof.
  unfold Parse. destruct (scan (newLexer path)) as [t lex0]. cbn [fst].
  destruct (isChar (tok t) "$") eqn:Et.
  - intros H. take_apart H.
    apply (wf_parseQuery (WF_all fuel)) in E; [| constructor].
    destruct E as (segs & -> & Hs).
    unfold curRune in E0. inversion E0; subst.
    split; [constructor; assumption |].
    split; [eauto |].
    split; [| reflexivity].
    apply negb_false_iff in C. apply rune_eqb_eq. exact C.
  - destruct (rune_eqb (tok t) eof); discriminate.
Qed.

End ParsedTrees.

Lemma Parse_wellformed_witness :
  wfQuery (host := HostModel.host)
    (spec.Query true
       [spec.Child
          [spec.Filter
             [[spec.ComparisonExpr
                 (spec.CompFunc
                    (spec.Func "length" FuncValue
                       [spec.ArgSingular (spec.SingularQuery false [spec.Name "a"])]))
                 spec.GreaterThan
                 (spec.CompLiteral (spec.Literal (JInt 2)))]]];
        spec.Descendant [spec.Index (-1)]]).
Proof.
  apply (Parse_wellformed (host := HostModel.host) (L := LexerModel.model) 20
           "$[?length(@.a) > 2]..[-1]" _ (LexerModel.mkState [] 25)).
  vm_compute. reflexivity.
Defined.


Section ParseErrors.
Context {host : RegexpHost} {L : Lexer}.


















End ParseErrors.



(** ** Literals *)

Section Literals.
Context {host : RegexpHost} {L : Lexer}.

(** X22. An integer token as a literal of a comparison or of a function
    argument is read with 64 bits: every integer from [-2^63] to
    [2^63 - 1] is accepted with its value, the text [-0] as zero, and a
    value outside is the error of the range with the position of the
    token.  The interval of path integers does not apply here. *)
Theorem parseLiteral_integer (neg : bool) (d : digit) (ds : list digit) (p : Z) :
  let text := intText neg (d :: ds) in
  let v := intValue neg (d :: ds) in
  parseLiteral (mkToken integer text p) =
  if (- 2 ^ 63 <=? v) && (v <? 2 ^ 63) then inl (spec.Literal (JInt v))
  else
    inr ("jsonpath: cannot parse " +++ Quote text
         +++ ", value out of range at position " +++ itoa (p + 1)).
Proof.
  intros text v. unfold parseLiteral. cbn [tok val].
  unfold text. rewrite ParseInt_intText. fold v. cbv zeta.
  change (- 2 ^ 63) with (- 9223372036854775808).
  change (2 ^ 63) with 9223372036854775808.
  destruct ((- 9223372036854775808 <=? v) && (v <? 9223372036854775808));
    [reflexivity |].
  unfold makeNumErr, makeError, Quote, NumError_Error. cbn [pos val].
  rewrite !append_assoc. reflexivity.
Qed.

End Literals.

(** ** The parser: what it lets through *)

Section Lenient.
Context {host : RegexpHost} {L : Lexer}.

(** X23. After [!], a token that is neither an opening parenthesis nor an
    identifier is not looked at, except for being [$]: whatever it is, a
    literal or a bracket as well, the parser takes it for the start of a
    query, relative unless the token is [$], and the expression is the
    non-existence of what [parseQuery] reads from there. *)
Theorem parseBasicExpr_nonexistence (fuel : nat)
  (lex lex0 lex1 lex2 lex3 : lexer) (c0 c : rune) (t next : token) :
  skipBlankSpace lex = (c0, lex0) ->
  scan lex0 = (t, lex1) ->
  isChar (tok t) "!" = true ->
  skipBlankSpace lex1 = (c, lex2) ->
  isChar c "(" = false ->
  scan lex2 = (next, lex3) ->
  rune_eqb (tok next) identifier = false ->
  parseBasicExpr (S (S (S fuel))) lex =
  match parseQuery fuel (isChar (tok next) "$") [] lex3 with
  | POk q lex4 => POk (spec.Nonexistence q) lex4
  | PErr err => PErr err
  | PFuel => PFuel
  end.
Proof.
  intros E0 E1 Ht E2 Hc E3 Hn.
  unfold_parsers. unfold pbind, skipBlank, scanTok.
  rewrite E0, E1, Ht, E2, Hc, E3, Hn.
  unfold_parsers. unfold pbind.
  destruct (parseQuery fuel (isChar (tok next) "$") [] lex3); reflexivity.
Qed.

(** X24. [parseSlice] counts colons up to three and does not count
    integers: a third colon before the closing bracket is accepted, and
    of two integers in a row the second replaces the first. *)
Theorem parseSlice_loop_lenient (fuel : nat) (args : sliceArgs) :
  (forall t lex c lex',
     isChar (tok t) ":" = true ->
     skipBlankSpace lex = (c, lex') ->
     isChar c "]" || isChar c "," = true ->
     parseSlice_loop (S fuel) args 2 t lex =
     POk (let '(a0, a1, a2) := args in Slice a0 a1 a2) lex')
  /\ (forall i t t2 lex c lex1 lex2 c2 lex3 n1 n2,
        (i <? 3) = true ->
        rune_eqb (tok t) integer = true ->
        parsePathInt t = inl n1 ->
        skipBlankSpace lex = (c, lex1) ->
        isChar c "]" || isChar c "," = false ->
        scan lex1 = (t2, lex2) ->
        rune_eqb (tok t2) integer = true ->
        parsePathInt t2 = inl n2 ->
        skipBlankSpace lex2 = (c2, lex3) ->
        isChar c2 "]" || isChar c2 "," = true ->
        parseSlice_loop (S (S fuel)) args i t lex =
        POk (let '(a0, a1, a2) := setArg args i n2 in Slice a0 a1 a2) lex3).
Proof.
  split.
  - intros t lex c lex' Ht E Hc.
    cbn [parseSlice_loop]. change (2 <? 3) with true. cbv iota.
    rewrite Ht. unfold pbind, pret, skipBlank. rewrite E, Hc.
    destruct args as [[a0 a1] a2]. reflexivity.
  - intros i t t2 lex c lex1 lex2 c2 lex3 n1 n2
      Hi Ht2 Hp1 E1 Hc1 E2 Ht4 Hp2 E3 Hc2.
    assert (Ht1 : isChar (tok t) ":" = false)
      by (rewrite (rune_eqb_eq _ _ Ht2); reflexivity).
    assert (Ht3 : isChar (tok t2) ":" = false)
      by (rewrite (rune_eqb_eq _ _ Ht4); reflexivity).
    cbn [parseSlice_loop]. rewrite Hi, Ht1, Ht2, Hp1.
    unfold lift. unfold pbind, pret, skipBlank, scanTok.
    rewrite E1, Hc1, E2, Hi, Ht3, Ht4, Hp2, E3, Hc2.
    destruct args as [[a0 a1] a2]. unfold setArg.
    destruct (i =? 0); [reflexivity |]. destruct (i =? 1); reflexivity.
Qed.

End Lenient.

Lemma parseBasicExpr_nonexistence_witness :
  parseBasicExpr (host := HostModel.host) (L := LexerModel.model) 4
    (LexerModel.mkState (list_ascii_of_string "!1]") 3)
  = POk (spec.Nonexistence (spec.Query false []))
      (LexerModel.mkState (list_ascii_of_string "]") 5).
Proof.
  rewrite (parseBasicExpr_nonexistence (host := HostModel.host) (L := LexerModel.model) 1
             (LexerModel.mkState (list_ascii_of_string "!1]") 3)
             (LexerModel.mkState (list_ascii_of_string "!1]") 3)
             (LexerModel.mkState (list_ascii_of_string "1]") 4)
             (LexerModel.mkState (list_ascii_of_string "1]") 4)
             (LexerModel.mkState (list_ascii_of_string "]") 5)
             (Char "!") (Char "1") (mkToken (Char "!") "!" 3) (mkToken integer "1" 4));
    vm_compute; reflexivity.
Defined.

(** The three leniencies on inputs, with the lexer of the model:
    [$[?!1]] is read as [$[?!@]], [$[:::]] as [$[:]] and [$[1:2 3]] as
    [$[1:3]]. *)
Example lenient_parses (extra : nat) :
  Parse (L := LexerModel.model) (host := HostModel.host) (12 + extra) "$[?!1]"
  = POk (spec.Query true
           [spec.Child [spec.Filter [[spec.Nonexistence (spec.Query false [])]]]])
      (LexerModel.mkState [] 6)
  /\
  Parse (L := LexerModel.model) (host := HostModel.host) (8 + extra) "$[:::]"
  = POk (spec.Query true [spec.Child [spec.SliceSel (mkSlice None None 1)]])
      (LexerModel.mkState [] 6)
  /\
  Parse (L := LexerModel.model) (host := HostModel.host) (8 + extra) "$[1:2 3]"
  = POk (spec.Query true [spec.Child [spec.SliceSel (mkSlice (Some 1) (Some 3) 1)]])
      (LexerModel.mkState [] 8).
Proof.
  split; [| split].
  - apply (@Parse_POk_fuel HostModel.host LexerModel.model). vm_compute. reflexivity.
  - apply (@Parse_POk_fuel HostModel.host LexerModel.model). vm_compute. reflexivity.
  - apply (@Parse_POk_fuel HostModel.host LexerModel.model). vm_compute. reflexivity.
Qed.

(** ** Conversions of JSONPath values *)

(** X25. The conversions at evaluation agree with the convertibility of
    kinds: a value of a result type ([hasResultType]) converts without
    panic to each path type that [convertsTo] allows for that type. *)
Theorem conversions_follow_convertsTo (ft : FuncType) (res : JSONPathValue) :
  hasResultType ft res = true ->
  (convertsTo ft PathValue = true -> returns (newValueTypeFrom res) = true)
  /\ (convertsTo ft PathLogical = true -> returns (newLogicalTypeFrom res) = true)
  /\ (convertsTo ft PathNodes = true -> returns (newNodesTypeFrom res) = true).
Proof.
  destruct ft, res; simpl; try discriminate; intros _; repeat split;
    try reflexivity; discriminate.
Qed.

Lemma conversions_follow_convertsTo_witness :
  (convertsTo FuncNodeList PathValue = true ->
   returns (newValueTypeFrom (PVNodes [JNull])) = true)
  /\ (convertsTo FuncNodeList PathLogical = true ->
      returns (newLogicalTypeFrom (PVNodes [JNull])) = true)
  /\ (convertsTo FuncNodeList PathNodes = true ->
      returns (newNodesTypeFrom (PVNodes [JNull])) = true).
Proof.
  apply (conversions_follow_convertsTo FuncNodeList (PVNodes [JNull])). reflexivity.
Defined.

(** X26. The truth of a function expression as a filter is the logical
    that its result converts to: whenever the result of the call
    converts to a logical (a logical, a node list, or nothing),
    [testFilter] returns the boolean of that logical. *)
Theorem FunctionExpr_testFilter_logical (fe : FunctionExpr FunctionExprArg)
  (current root : JSON) (res : JSONPathValue) (l : LogicalType) :
  FunctionExpr_execute fe current root = Ret res ->
  newLogicalTypeFrom res = Ret l ->
  FunctionExpr_testFilter fe current root = Ret (Bool l).
Proof.
  intros He Hl. unfold FunctionExpr_testFilter. rewrite He. simpl.
  destruct res as [| n | l' | v]; simpl in Hl; inversion Hl; subst; try reflexivity.
  destruct (len n >? 0); reflexivity.
Qed.

Lemma FunctionExpr_testFilter_logical_witness :
  FunctionExpr_testFilter
    (mkFunctionExpr
       [literalArg_arg (mkLiteralArg (JString "a"));
        literalArg_arg (mkLiteralArg (JString "a"))]
       (mkFunction "match" FuncLogical checkMatchArgs (matchFunc (host := HostModel.host))))
    JNull JNull = Ret (Bool LogicalTrue).
Proof.
  apply (FunctionExpr_testFilter_logical _ JNull JNull (PVLogical LogicalTrue) LogicalTrue);
    reflexivity.
Defined.
